(** * LingoFlow: the client-side orchestration pipeline

    A shallow embedding of [src/services/geminiService.ts] (audio
    subsystem and generation client), of the [ExploreView] component
    (exploration orchestrator) and of [src/App.tsx] (flashcard store),
    followed by the properties of the specification that concern them.

    Conventions.  JavaScript strings are modelled as byte strings
    ([string]), the UTF-8 encoding of their characters; asynchronous
    functions are split at their [await]s into a part that runs when the
    function is called and a part that runs when the awaited promise
    settles; module-level variables and browser state
    live in one record, [World]; React state lives in [ExploreState] and
    handlers read the values captured by the render that created them. *)

From Stdlib Require Import ZArith QArith String Ascii List Lia Bool.
From Stdlib Require Import Strings.Byte DecimalString.
From stdpp Require Import gmap strings list.
Import ListNotations.

Set Warnings "-register-all".

Local Open Scope string_scope.
Local Open Scope list_scope.

(* ================================================================== *)
(** * JavaScript values, completions and string built-ins *)
(* ================================================================== *)

Module Js.

(** What a [catch (e)] clause can receive. *)
Inductive Exn : Type :=
| BackendError (msg : string)       (* rejected network call *)
| TypeError (msg : string)
| SyntaxError (msg : string)
| RangeError (msg : string)
| DOMException (name : string).

(** Outcome of evaluating a call: a value, or an exception (a rejected
    promise, for an awaited call). *)
Inductive Completion (A : Type) : Type :=
| Returned (a : A)
| Threw (e : Exn).
Arguments Returned {A} a.
Arguments Threw {A} e.

Definition threw {A} (c : Completion A) : bool :=
  match c with Threw _ => true | Returned _ => false end.

(** Run-time values: what [JSON.parse] can produce, and [undefined].
    A number keeps the lexeme it was written with. *)
Inductive JsValue : Type :=
| JsUndefined
| JsNull
| JsBool (b : bool)
| JsNumber (lexeme : string)
| JsString (s : string)
| JsArray (items : list JsValue)
| JsObject (fields : list (string * JsValue)).

Definition is_digit (c : ascii) : bool :=
  let n := nat_of_ascii c in (48 <=? n)%nat && (n <=? 57)%nat.

(** A number lexeme denotes zero when no digit of its mantissa is
    non-zero (underflow to zero of tiny literals is not modelled). *)
Fixpoint mantissa_is_zero (s : string) : bool :=
  match s with
  | EmptyString => true
  | String c rest =>
      if (c =? "e")%char || (c =? "E")%char then true
      else if is_digit c && negb (c =? "0")%char then false
      else mantissa_is_zero rest
  end.

(** ToBoolean. *)
Definition truthy (v : JsValue) : bool :=
  match v with
  | JsUndefined | JsNull => false
  | JsBool b => b
  | JsNumber lex => negb (mantissa_is_zero lex)
  | JsString s => negb (s =? "")
  | JsArray _ | JsObject _ => true
  end.

(** [a || b]. *)
Definition js_or (a b : JsValue) : JsValue := if truthy a then a else b.

(** [s || d] for a string [s]. *)
Definition str_or (s d : string) : string := if s =? "" then d else s.

(** Own-property lookup on a parsed object: the last binding of a
    repeated key wins, as in [JSON.parse]. *)
Fixpoint lookup_field (k : string) (fs : list (string * JsValue)) : option JsValue :=
  match fs with
  | [] => None
  | (k', v) :: rest =>
      match lookup_field k rest with
      | Some v' => Some v'
      | None => if k' =? k then Some v else None
      end
  end.

(** [v.k] for one of the property names the program reads
    ([definition], [story], [translation], ...): none of them exists on
    a prototype, so only own properties of objects answer; reading a
    property of [null] or [undefined] throws. *)
Definition js_get (v : JsValue) (k : string) : Completion JsValue :=
  match v with
  | JsUndefined => Threw (TypeError "Cannot read properties of undefined")
  | JsNull => Threw (TypeError "Cannot read properties of null")
  | JsObject fs =>
      Returned (match lookup_field k fs with Some x => x | None => JsUndefined end)
  | _ => Returned JsUndefined
  end.

Definition str_join (sep : string) (parts : list string) : string :=
  match parts with
  | [] => ""
  | p :: ps => fold_left (fun acc q => acc +:+ sep +:+ q) ps p
  end.

(** ToString, as used by template literals.  A number is printed as
    its lexeme, which is what JavaScript prints for a number written
    the way JavaScript prints it ([1.5]); for another spelling of a
    number ([1.50], [15e-1], more digits than a double holds) the
    model keeps the spelling where JavaScript prints the number. *)
Fixpoint toString (v : JsValue) : string :=
  match v with
  | JsUndefined => "undefined"
  | JsNull => "null"
  | JsBool true => "true"
  | JsBool false => "false"
  | JsNumber lex => lex
  | JsString s => s
  | JsArray items =>
      str_join "," (map (fun x => match x with
                              | JsUndefined | JsNull => ""
                              | _ => toString x
                              end) items)
  | JsObject _ => "[object Object]"
  end.

Fixpoint str_drop (n : nat) (s : string) : string :=
  match n, s with
  | O, _ => s
  | S n', String _ rest => str_drop n' rest
  | S _, EmptyString => EmptyString
  end.

(** White space and line terminators ([WhiteSpace] and
    [LineTerminator] of ECMA-262), as the UTF-8 bytes of the string
    show them.  One byte: TAB, LF, VT, FF, CR and the space. *)
Definition is_space (c : ascii) : bool :=
  let n := nat_of_ascii c in
  ((9 <=? n)%nat && (n <=? 13)%nat) || (n =? 32)%nat.

(** Two bytes: U+00A0, the no-break space. *)
Definition is_space2 (a b : ascii) : bool :=
  (nat_of_ascii a =? 194)%nat && (nat_of_ascii b =? 160)%nat.

(** Three bytes: U+1680, U+2000 to U+200A, U+2028, U+2029, U+202F,
    U+205F, U+3000 and U+FEFF. *)
Definition is_space3 (a b c : ascii) : bool :=
  let x := nat_of_ascii a in
  let y := nat_of_ascii b in
  let z := nat_of_ascii c in
  ((x =? 225) && (y =? 154) && (z =? 128))%nat
  || ((x =? 226) && (y =? 128)
      && (((128 <=? z) && (z <=? 138)) || (z =? 168) || (z =? 169) || (z =? 175)))%nat
  || ((x =? 226) && (y =? 129) && (z =? 159))%nat
  || ((x =? 227) && (y =? 128) && (z =? 128))%nat
  || ((x =? 239) && (y =? 187) && (z =? 191))%nat.

(** Number of bytes of the white space character that [s] starts
    with; [0] when it starts with none. *)
Definition space_width (s : string) : nat :=
  match s with
  | String a (String b (String c _)) =>
      if is_space a then 1 else if is_space2 a b then 2
      else if is_space3 a b c then 3 else 0
  | String a (String b EmptyString) =>
      if is_space a then 1 else if is_space2 a b then 2 else 0
  | String a EmptyString => if is_space a then 1 else 0
  | EmptyString => 0
  end.

(** [fuel] bounds the scan; [String.length s] is enough. *)
Fixpoint trimStart_aux (fuel : nat) (s : string) : string :=
  match fuel with
  | O => s
  | S fuel' =>
      match space_width s with
      | O => s
      | n => trimStart_aux fuel' (str_drop n s)
      end
  end.

Definition trimStart (s : string) : string := trimStart_aux (String.length s) s.

(** What is left once the longest run of white space that ends the
    string is cut. *)
Fixpoint trimEnd (s : string) : string :=
  match s with
  | EmptyString => EmptyString
  | String c rest =>
      match trimStart s with
      | EmptyString => EmptyString
      | _ => String c (trimEnd rest)
      end
  end.

(** [String.prototype.trim]. *)
Definition trim (s : string) : string := trimEnd (trimStart s).

Definition lower_char (c : ascii) : ascii :=
  let n := nat_of_ascii c in
  if (65 <=? n)%nat && (n <=? 90)%nat then ascii_of_nat (n + 32) else c.

(** Lower case for the letters of the ASCII range, every other byte
    kept. *)
Fixpoint lower_ascii (s : string) : string :=
  match s with
  | EmptyString => EmptyString
  | String c rest => String (lower_char c) (lower_ascii rest)
  end.

(** A string of ASCII characters. *)
Fixpoint only_ascii (s : string) : bool :=
  match s with
  | EmptyString => true
  | String c rest => (nat_of_ascii c <? 128)%nat && only_ascii rest
  end.

(** What the program takes from the engine that runs it.
    [String.prototype.toLowerCase] maps a string through the case
    tables of the Unicode version that the engine carries, so it is a
    parameter here; two facts hold of it in every engine: on ASCII
    strings it is [lower_ascii], and lowering the ASCII letters of a
    string first does not change its result. *)
Class Host : Type := {
  toLowerCase : string -> string;
  toLowerCase_ascii : forall s, only_ascii s = true -> toLowerCase s = lower_ascii s;
  toLowerCase_fold : forall s, toLowerCase (lower_ascii s) = toLowerCase s
}.

(** [s.startsWith(p)]. *)
Definition startsWith (p s : string) : bool := String.prefix p s.

(** [s.includes(p)]. *)
Fixpoint includes (p s : string) : bool :=
  String.prefix p s ||
  match s with
  | EmptyString => false
  | String _ rest => includes p rest
  end.

(** [s.replace(/p/g, '')] for a literal, non-empty pattern [p]: scan
    left to right, dropping each occurrence found.  [fuel] bounds the
    scan; [String.length s] is enough. *)
Fixpoint remove_all_aux (fuel : nat) (p s : string) : string :=
  match fuel with
  | O => s
  | S fuel' =>
      match s with
      | EmptyString => EmptyString
      | String c rest =>
          if String.prefix p s
          then remove_all_aux fuel' p (str_drop (String.length p) s)
          else String c (remove_all_aux fuel' p rest)
      end
  end.

Definition remove_all (p s : string) : string :=
  remove_all_aux (String.length s) p s.

End Js.

Import Js.

(* ================================================================== *)
(** * JSON.parse *)
(* ================================================================== *)

(** A recursive-descent reading of the JSON grammar (RFC 8259): objects,
    arrays, strings with their escapes, numbers, the three literals,
    and the four white-space characters.  An escape [\uXXXX] is stored
    as the UTF-8 bytes of that code unit. *)
Module Json.

Definition dquote : ascii := "034"%char.
Definition backslash : ascii := "092"%char.

Definition is_ws (c : ascii) : bool :=
  let n := nat_of_ascii c in
  (n =? 32)%nat || (n =? 9)%nat || (n =? 10)%nat || (n =? 13)%nat.

Fixpoint skip_ws (s : string) : string :=
  match s with
  | String c rest => if is_ws c then skip_ws rest else s
  | EmptyString => EmptyString
  end.

Definition hex_val (c : ascii) : option nat :=
  let n := nat_of_ascii c in
  if (48 <=? n)%nat && (n <=? 57)%nat then Some (n - 48)%nat
  else if (65 <=? n)%nat && (n <=? 70)%nat then Some (n - 55)%nat
  else if (97 <=? n)%nat && (n <=? 102)%nat then Some (n - 87)%nat
  else None.

Definition hex4 (a b c d : ascii) : option nat :=
  match hex_val a, hex_val b, hex_val c, hex_val d with
  | Some x, Some y, Some z, Some w =>
      Some (((x * 16 + y) * 16 + z) * 16 + w)%nat
  | _, _, _, _ => None
  end.

Definition utf8 (n : nat) : string :=
  if (n <? 128)%nat then String (ascii_of_nat n) ""
  else if (n <? 2048)%nat then
    String (ascii_of_nat (192 + n / 64))
      (String (ascii_of_nat (128 + n mod 64)) "")
  else
    String (ascii_of_nat (224 + n / 4096))
      (String (ascii_of_nat (128 + (n / 64) mod 64))
         (String (ascii_of_nat (128 + n mod 64)) "")).

Definition simple_escape (e : ascii) : option ascii :=
  if (e =? dquote)%char then Some dquote
  else if (e =? backslash)%char then Some backslash
  else if (e =? "/")%char then Some "/"%char
  else if (e =? "b")%char then Some "008"%char
  else if (e =? "f")%char then Some "012"%char
  else if (e =? "n")%char then Some "010"%char
  else if (e =? "r")%char then Some "013"%char
  else if (e =? "t")%char then Some "009"%char
  else None.

(** The characters of a string after its opening quote, up to and
    including the closing quote. *)
Fixpoint parse_string_body (s : string) : option (string * string) :=
  match s with
  | EmptyString => None
  | String c rest =>
      if (c =? dquote)%char then Some ("", rest)
      else if (c =? backslash)%char then
        match rest with
        | EmptyString => None
        | String e rest1 =>
            if (e =? "u")%char then
              match rest1 with
              | String h1 (String h2 (String h3 (String h4 rest2))) =>
                  match hex4 h1 h2 h3 h4, parse_string_body rest2 with
                  | Some n, Some (str, r) => Some (utf8 n +:+ str, r)
                  | _, _ => None
                  end
              | _ => None
              end
            else
              match simple_escape e, parse_string_body rest1 with
              | Some x, Some (str, r) => Some (String x str, r)
              | _, _ => None
              end
        end
      else if (nat_of_ascii c <? 32)%nat then None
      else
        match parse_string_body rest with
        | Some (str, r) => Some (String c str, r)
        | None => None
        end
  end.

(** Longest prefix of digits, and what follows it. *)
Fixpoint span_digits (s : string) : string * string :=
  match s with
  | String c rest =>
      if is_digit c
      then let '(ds, r) := span_digits rest in (String c ds, r)
      else ("", s)
  | EmptyString => ("", "")
  end.

Definition parse_int_part (s : string) : option (string * string) :=
  match span_digits s with
  | ("", _) => None
  | (String d ds, r) =>
      if (d =? "0")%char && negb (ds =? "") then None
      else Some (String d ds, r)
  end.

Definition parse_frac_part (s : string) : option (string * string) :=
  match s with
  | String c rest =>
      if (c =? ".")%char then
        match span_digits rest with
        | ("", _) => None
        | (ds, r) => Some (String c ds, r)
        end
      else Some ("", s)
  | EmptyString => Some ("", s)
  end.

Definition parse_exp_part (s : string) : option (string * string) :=
  match s with
  | String c rest =>
      if (c =? "e")%char || (c =? "E")%char then
        let '(sign, rest1) :=
          match rest with
          | String g rest' =>
              if (g =? "+")%char || (g =? "-")%char
              then (String g "", rest') else ("", rest)
          | EmptyString => ("", rest)
          end in
        match span_digits rest1 with
        | ("", _) => None
        | (ds, r) => Some (String c (sign +:+ ds), r)
        end
      else Some ("", s)
  | EmptyString => Some ("", s)
  end.

Definition parse_number (s : string) : option (string * string) :=
  let '(sign, s1) :=
    match s with
    | String c rest => if (c =? "-")%char then ("-", rest) else ("", s)
    | EmptyString => ("", s)
    end in
  match parse_int_part s1 with
  | None => None
  | Some (i, s2) =>
      match parse_frac_part s2 with
      | None => None
      | Some (f, s3) =>
          match parse_exp_part s3 with
          | None => None
          | Some (e, s4) => Some (sign +:+ i +:+ f +:+ e, s4)
          end
      end
  end.

Definition parse_literal (s : string) : option (JsValue * string) :=
  if String.prefix "true" s then Some (JsBool true, str_drop 4 s)
  else if String.prefix "false" s then Some (JsBool false, str_drop 5 s)
  else if String.prefix "null" s then Some (JsNull, str_drop 4 s)
  else None.

Fixpoint parse_value (fuel : nat) (s : string) : option (JsValue * string) :=
  match fuel with
  | O => None
  | S f =>
      match skip_ws s with
      | EmptyString => None
      | String c rest =>
          if (c =? "{")%char then
            match skip_ws rest with
            | String c' rest' =>
                if (c' =? "}")%char then Some (JsObject [], rest')
                else parse_members f rest []
            | EmptyString => None
            end
          else if (c =? "[")%char then
            match skip_ws rest with
            | String c' rest' =>
                if (c' =? "]")%char then Some (JsArray [], rest')
                else parse_elements f rest []
            | EmptyString => None
            end
          else if (c =? dquote)%char then
            match parse_string_body rest with
            | Some (str, r) => Some (JsString str, r)
            | None => None
            end
          else if (c =? "-")%char || is_digit c then
            match parse_number (String c rest) with
            | Some (lex, r) => Some (JsNumber lex, r)
            | None => None
            end
          else parse_literal (String c rest)
      end
  end
with parse_members (fuel : nat) (s : string) (acc : list (string * JsValue))
  : option (JsValue * string) :=
  match fuel with
  | O => None
  | S f =>
      match skip_ws s with
      | EmptyString => None
      | String q rest =>
          if negb (q =? dquote)%char then None else
          match parse_string_body rest with
          | None => None
          | Some (k, r1) =>
              match skip_ws r1 with
              | EmptyString => None
              | String colon r2 =>
                  if negb (colon =? ":")%char then None else
                  match parse_value f r2 with
                  | None => None
                  | Some (v, r3) =>
                      match skip_ws r3 with
                      | EmptyString => None
                      | String d r4 =>
                          if (d =? ",")%char
                          then parse_members f r4 (acc ++ [(k, v)])
                          else if (d =? "}")%char
                          then Some (JsObject (acc ++ [(k, v)]), r4)
                          else None
                      end
                  end
              end
          end
      end
  end
with parse_elements (fuel : nat) (s : string) (acc : list JsValue)
  : option (JsValue * string) :=
  match fuel with
  | O => None
  | S f =>
      match parse_value f s with
      | None => None
      | Some (v, r1) =>
          match skip_ws r1 with
          | EmptyString => None
          | String d r2 =>
              if (d =? ",")%char then parse_elements f r2 (acc ++ [v])
              else if (d =? "]")%char then Some (JsArray (acc ++ [v]), r2)
              else None
          end
      end
  end.

(** [JSON.parse(text)]: one value, surrounded by white space only;
    anything else is a [SyntaxError].  Every recursive call has
    consumed a character, so the fuel given is never exhausted. *)
Definition parse (text : string) : Completion JsValue :=
  match parse_value (S (String.length text)) text with
  | Some (v, rest) =>
      match skip_ws rest with
      | EmptyString => Returned v
      | String _ _ => Threw (SyntaxError "Unexpected non-whitespace character after JSON")
      end
  | None => Threw (SyntaxError "Unexpected token in JSON")
  end.

End Json.

(* ================================================================== *)
(** * types.ts *)
(* ================================================================== *)

Inductive VisualType : Type := Image | SVG | Video.

(** [interface Flashcard].  The text fields are declared [string]; the
    five fields copied from a lookup hold whatever run-time value the
    lookup held, hence [JsValue]. *)
Module Card.
Record Flashcard : Type := mk {
  id : string;
  sourceText : string;
  definition : JsValue;
  story : JsValue;
  translation : JsValue;
  definitionTranslation : JsValue;
  storyTranslation : JsValue;
  targetLangCode : string;
  sourceLangCode : string;
  createdAt : Z;
  visualType : option VisualType;
  visualContent : option string
}.
End Card.
Abbreviation Flashcard := Card.Flashcard.

(** [interface TranslationResult]: five optional fields. *)
Module Result.
Record TranslationResult : Type := mk {
  definition : JsValue;
  story : JsValue;
  translation : JsValue;
  definitionTranslation : JsValue;
  storyTranslation : JsValue
}.
End Result.
Abbreviation TranslationResult := Result.TranslationResult.

Record LanguageOption : Type := mkLang {
  code : string;
  label : string;
  defaultVoice : string;
  altVoice : option string
}.

Definition LANGUAGES : list LanguageOption :=
  [ mkLang "en" "English" "Fenrir" (Some "Puck");
    mkLang "zh-CN" "Chinese (Simplified)" "Zephyr" None;
    mkLang "ja" "Japanese" "Kore" None;
    mkLang "es" "Spanish" "Fenrir" None;
    mkLang "fr" "French" "Charon" None;
    mkLang "de" "German" "Fenrir" None ].

(* ================================================================== *)
(** * The backend, as the client sees it *)
(* ================================================================== *)

Module Genai.

(** What the program reads of a response: [response.text], and
    [response.candidates?.[0]?.content?.parts?.[0]] with its
    [inlineData] and the [data] inside. *)
Record InlineData : Type := mkInline { data : option string }.
Record Part : Type := mkPart { inlineData : option InlineData }.
Record Response : Type := mkResponse {
  text : option string;
  firstPart : option Part
}.

(** One value per call built by the client; the arguments are the
    values interpolated into the prompt or passed in the request. *)
Inductive Request : Type :=
| ReqTranslate (text targetLang : string)
| ReqRichContext (text sourceLang targetLang : string)
| ReqChat (message context : string) (history : list (string * string))
| ReqImage (inputText meaning story : string)
| ReqSvg (inputText meaning story : string)
| ReqTts (text voiceName : string).

End Genai.

(* ================================================================== *)
(** * services/geminiService.ts *)
(* ================================================================== *)

Module Service.
Import Genai.

Inductive ContextState : Type := Running | Suspended.

(** [AudioBuffer]: samples are exact rationals; each is a 16-bit
    integer over 2^15, which single-precision floats hold exactly. *)
Record AudioBuffer : Type := mkBuffer {
  sampleRate : Z;
  numberOfChannels : nat;
  frames : nat;
  channelData : list (list Q)
}.

(** Life of an [AudioBufferSourceNode] once started: it sounds, then
    (buffer exhausted, or [stop()] called) its [ended] event is queued,
    then the event has been dispatched. *)
Inductive NodeState : Type := Playing | EndQueued | Ended.

Record SourceNode : Type := mkNode {
  node_state : NodeState;
  node_buffer : AudioBuffer;
  node_playback : nat;        (* the [playAudio] call that created it *)
  node_onEnded : bool         (* whether that call was given [onEnded] *)
}.

(** Module-level variables of the service ([audioCache],
    [audioContext], [currentSource]) and the environment they act on. *)
Record World : Type := mkWorld {
  apiKey : option string;
  audioCache : gmap string string;
  audioContext : option ContextState;
  currentSource : option nat;
  nodes : list SourceNode;
  plays : nat;                                  (* [playAudio] calls so far *)
  awaitingResume : list (nat * (string * bool)); (* calls parked at [await ctx.resume()] *)
  onEndedCalls : list nat;                      (* [onEnded] invocations, by call *)
  console : list (string * option Exn);
  network : list Request
}.

Definition with_audioCache (v : gmap string string) (w : World) : World :=
  mkWorld (apiKey w) v (audioContext w) (currentSource w) (nodes w) (plays w)
          (awaitingResume w) (onEndedCalls w) (console w) (network w).
Definition with_audioContext (v : option ContextState) (w : World) : World :=
  mkWorld (apiKey w) (audioCache w) v (currentSource w) (nodes w) (plays w)
          (awaitingResume w) (onEndedCalls w) (console w) (network w).
Definition with_currentSource (v : option nat) (w : World) : World :=
  mkWorld (apiKey w) (audioCache w) (audioContext w) v (nodes w) (plays w)
          (awaitingResume w) (onEndedCalls w) (console w) (network w).
Definition with_nodes (v : list SourceNode) (w : World) : World :=
  mkWorld (apiKey w) (audioCache w) (audioContext w) (currentSource w) v (plays w)
          (awaitingResume w) (onEndedCalls w) (console w) (network w).
Definition with_plays (v : nat) (w : World) : World :=
  mkWorld (apiKey w) (audioCache w) (audioContext w) (currentSource w) (nodes w) v
          (awaitingResume w) (onEndedCalls w) (console w) (network w).
Definition with_awaitingResume (v : list (nat * (string * bool))) (w : World) : World :=
  mkWorld (apiKey w) (audioCache w) (audioContext w) (currentSource w) (nodes w) (plays w)
          v (onEndedCalls w) (console w) (network w).
Definition with_onEndedCalls (v : list nat) (w : World) : World :=
  mkWorld (apiKey w) (audioCache w) (audioContext w) (currentSource w) (nodes w) (plays w)
          (awaitingResume w) v (console w) (network w).
Definition with_console (v : list (string * option Exn)) (w : World) : World :=
  mkWorld (apiKey w) (audioCache w) (audioContext w) (currentSource w) (nodes w) (plays w)
          (awaitingResume w) (onEndedCalls w) v (network w).
Definition with_network (v : list Request) (w : World) : World :=
  mkWorld (apiKey w) (audioCache w) (audioContext w) (currentSource w) (nodes w) (plays w)
          (awaitingResume w) (onEndedCalls w) (console w) v.

(** A freshly loaded page. *)
Definition initial (key : option string) : World :=
  mkWorld key ∅ None None [] 0 [] [] [] [].

Definition console_error (msg : string) (e : option Exn) (w : World) : World :=
  with_console (console w ++ [(msg, e)]) w.

Definition send (req : Request) (w : World) : World :=
  with_network (network w ++ [req]) w.

(** [getClient]: complains when no key is configured, and builds the
    client all the same. *)
Definition getClient (w : World) : World :=
  match apiKey w with
  | Some (String _ _) => w
  | _ => console_error
           "API_KEY is missing. Please set VITE_API_KEY in your Vercel Environment Variables."
           None w
  end.

(** ** PCM decoding helpers *)

Definition b64_val (c : ascii) : option nat :=
  let n := nat_of_ascii c in
  if (65 <=? n)%nat && (n <=? 90)%nat then Some (n - 65)%nat
  else if (97 <=? n)%nat && (n <=? 122)%nat then Some (n - 71)%nat
  else if (48 <=? n)%nat && (n <=? 57)%nat then Some (n + 4)%nat
  else if (n =? 43)%nat then Some 62%nat
  else if (n =? 47)%nat then Some 63%nat
  else None.

Definition is_b64_space (c : ascii) : bool :=
  let n := nat_of_ascii c in
  (n =? 9)%nat || (n =? 10)%nat || (n =? 12)%nat || (n =? 13)%nat || (n =? 32)%nat.

Definition strip_padding (cs : list ascii) : list ascii :=
  if (length cs mod 4 =? 0)%nat then
    match rev cs with
    | p1 :: p2 :: r =>
        if (p1 =? "=")%char then
          if (p2 =? "=")%char then rev r else rev (p2 :: r)
        else cs
    | _ => cs
    end
  else cs.

Fixpoint sextets (cs : list ascii) : option (list nat) :=
  match cs with
  | [] => Some []
  | c :: rest =>
      match b64_val c, sextets rest with
      | Some v, Some vs => Some (v :: vs)
      | _, _ => None
      end
  end.

Fixpoint octets (vs : list nat) : list nat :=
  match vs with
  | a :: b :: c :: d :: rest =>
      (a * 4 + b / 16)%nat :: ((b mod 16) * 16 + c / 4)%nat
        :: ((c mod 4) * 64 + d)%nat :: octets rest
  | [a; b; c] => [(a * 4 + b / 16)%nat; ((b mod 16) * 16 + c / 4)%nat]
  | [a; b] => [(a * 4 + b / 16)%nat]
  | _ => []
  end.

(** [atob]: the forgiving base64 decoding of the HTML standard; the
    result is a binary string, one character per byte. *)
Definition atob (base64 : string) : Completion string :=
  let cs := strip_padding
              (List.filter (fun c => negb (is_b64_space c))
                           (list_ascii_of_string base64)) in
  if (length cs mod 4 =? 1)%nat
  then Threw (DOMException "InvalidCharacterError")
  else match sextets cs with
       | None => Threw (DOMException "InvalidCharacterError")
       | Some vs => Returned (string_of_list_ascii (map ascii_of_nat (octets vs)))
       end.

(** [decodeBase64]: the bytes of [atob(base64)]. *)
Definition decodeBase64 (base64 : string) : Completion (list byte) :=
  match atob base64 with
  | Threw e => Threw e
  | Returned binaryString =>
      Returned (map byte_of_ascii (list_ascii_of_string binaryString))
  end.

(** One element of an [Int16Array] over a byte buffer: two's
    complement, low byte first (typed arrays use the byte order of the
    platform, little-endian wherever browsers run). *)
Definition int16_le (lo hi : byte) : Z :=
  let u := (Z.of_N (Byte.to_N lo) + 256 * Z.of_N (Byte.to_N hi))%Z in
  if (u <? 32768)%Z then u else (u - 65536)%Z.

Fixpoint int16_view (data : list byte) : list Z :=
  match data with
  | lo :: hi :: rest => int16_le lo hi :: int16_view rest
  | _ => []
  end.

(** [new Int16Array(data.buffer)]: the buffer must hold whole
    elements. *)
Definition Int16Array (data : list byte) : Completion (list Z) :=
  if Nat.even (length data) then Returned (int16_view data)
  else Threw (RangeError "byte length of Int16Array should be a multiple of 2").

(** The inner loop for one channel:
    [channelData[i] = dataInt16[i * numChannels + channel] / 32768.0]. *)
Definition channel_samples (dataInt16 : list Z) (numChannels frameCount channel : nat)
  : list Q :=
  map (fun i => Qmake (nth (i * numChannels + channel) dataInt16 0%Z) 32768)
      (seq 0 frameCount).

(** The channel counts and sample rates that [createBuffer] accepts in
    every browser: Web Audio asks for up to 32 channels and for rates
    from 8000 to 96000 Hz at least.  What a browser accepts beyond
    these is its own choice; the model refuses it, and the properties
    below speak of the nominal values only. *)
Definition nominal (sampleRate : Z) (numChannels : nat) : bool :=
  (numChannels <=? 32)%nat && (8000 <=? sampleRate)%Z && (sampleRate <=? 96000)%Z.

(** [decodeAudioData].  [createBuffer] takes the integer part of
    [frameCount] and refuses a buffer with no channel or no frame, and
    a channel count or a sample rate that it does not support; writes
    past the end of a channel are dropped, so only whole frames are
    stored. *)
Definition decodeAudioData (data : list byte) (sampleRate : Z) (numChannels : nat)
  : Completion AudioBuffer :=
  match Int16Array data with
  | Threw e => Threw e
  | Returned dataInt16 =>
      let frameCount := (length dataInt16 / numChannels)%nat in
      if (numChannels =? 0)%nat || (frameCount =? 0)%nat
         || negb (nominal sampleRate numChannels)
      then Threw (DOMException "NotSupportedError")
      else Returned
             (mkBuffer sampleRate numChannels frameCount
                (map (channel_samples dataInt16 numChannels frameCount)
                     (seq 0 numChannels)))
  end.

(** ** Playback *)

Definition set_node_state (s : NodeState) (nd : SourceNode) : SourceNode :=
  mkNode s (node_buffer nd) (node_playback nd) (node_onEnded nd).

(** [source.stop()]: a sounding node falls silent and its [ended]
    event is queued; on a node already stopped nothing happens. *)
Definition stop_node (n : nat) (w : World) : World :=
  match nodes w !! n with
  | Some nd =>
      match node_state nd with
      | Playing => with_nodes (<[n := set_node_state EndQueued nd]> (nodes w)) w
      | _ => w
      end
  | None => w
  end.

(** [stopAudio]. *)
Definition stopAudio (w : World) : World :=
  match currentSource w with
  | Some n => with_currentSource None (stop_node n w)
  | None => w
  end.

Definition getAudioContext (fresh : ContextState) (w : World) : ContextState * World :=
  match audioContext w with
  | Some st => (st, w)
  | None => (fresh, with_audioContext (Some fresh) w)
  end.

(** The [catch] block of [playAudio]. *)
Definition playAudio_catch (playback : nat) (onEnded : bool) (e : Exn) (w : World)
  : World :=
  let w1 := console_error "Audio playback failed" (Some e) w in
  if onEnded then with_onEndedCalls (onEndedCalls w1 ++ [playback]) w1 else w1.

(** [playAudio] from [decodeBase64] on: decode, create the source
    node, install the handler, start, remember the node.  The promise
    of [decodeAudioData] settles without leaving the current turn of
    the event loop, so this part runs in one piece. *)
Definition playAudio_setup (playback : nat) (base64Audio : string) (onEnded : bool)
           (w : World) : World :=
  match decodeBase64 base64Audio with
  | Threw e => playAudio_catch playback onEnded e w
  | Returned bytes =>
      match decodeAudioData bytes 24000 1 with
      | Threw e => playAudio_catch playback onEnded e w
      | Returned audioBuffer =>
          let source := length (nodes w) in
          with_currentSource (Some source)
            (with_nodes (nodes w ++ [mkNode Playing audioBuffer playback onEnded]) w)
      end
  end.

(** [playAudio(base64Audio, onEnded)], up to its first suspension.
    [fresh] is the state in which the browser hands out a new
    [AudioContext], should this call create it. *)
Definition playAudio (fresh : ContextState) (base64Audio : string) (onEnded : bool)
           (w : World) : World :=
  let playback := plays w in
  let w1 := stopAudio (with_plays (S playback) w) in
  let '(st, w2) := getAudioContext fresh w1 in
  match st with
  | Suspended =>
      with_awaitingResume (awaitingResume w2 ++ [(playback, (base64Audio, onEnded))]) w2
  | Running => playAudio_setup playback base64Audio onEnded w2
  end.

Definition is_playback (playback : nat) (entry : nat * (string * bool)) : bool :=
  (fst entry =? playback)%nat.

(** [playAudio] resumes when [ctx.resume()] settles. *)
Definition playAudio_resumed (playback : nat) (outcome : Completion unit) (w : World)
  : World :=
  match List.find (is_playback playback) (awaitingResume w) with
  | None => w
  | Some (_, (base64Audio, onEnded)) =>
      let w1 := with_awaitingResume
                  (List.filter (fun e => negb (is_playback playback e)) (awaitingResume w))
                  w in
      match outcome with
      | Threw e => playAudio_catch playback onEnded e w1
      | Returned _ =>
          playAudio_setup playback base64Audio onEnded
            (with_audioContext (Some Running) w1)
      end
  end.

(** A sounding node reaches the end of its buffer. *)
Definition buffer_played (n : nat) (w : World) : World := stop_node n w.

(** The browser dispatches [ended] to node [n], running the handler
    that [playAudio] installed:
    [currentSource = null; if (onEnded) onEnded()]. *)
Definition ended (n : nat) (w : World) : World :=
  match nodes w !! n with
  | Some nd =>
      match node_state nd with
      | EndQueued =>
          let w1 := with_nodes (<[n := set_node_state Ended nd]> (nodes w)) w in
          let w2 := with_currentSource None w1 in
          if node_onEnded nd
          then with_onEndedCalls (onEndedCalls w2 ++ [node_playback nd]) w2
          else w2
      | _ => w
      end
  | None => w
  end.

(** What can happen to the audio subsystem, one event at a time. *)
Inductive Event : Type :=
| EvPlay (fresh : ContextState) (base64Audio : string) (onEnded : bool)
| EvResumeSettled (playback : nat) (ok : bool)
| EvStop
| EvBufferPlayed (node : nat)
| EvEnded (node : nat).

Definition step (ev : Event) (w : World) : World :=
  match ev with
  | EvPlay fresh base64Audio onEnded => playAudio fresh base64Audio onEnded w
  | EvResumeSettled playback true => playAudio_resumed playback (Returned tt) w
  | EvResumeSettled playback false =>
      playAudio_resumed playback (Threw (DOMException "InvalidStateError")) w
  | EvStop => stopAudio w
  | EvBufferPlayed n => buffer_played n w
  | EvEnded n => ended n w
  end.

Definition run (evs : list Event) (w : World) : World :=
  fold_left (fun acc ev => step ev acc) evs w.

Definition is_playing (nd : SourceNode) : bool :=
  match node_state nd with Playing => true | _ => false end.

(** Number of source nodes sounding. *)
Definition active (w : World) : nat :=
  length (List.filter is_playing (nodes w)).

(** How many times the [onEnded] of call [playback] has run. *)
Definition onEnded_count (playback : nat) (w : World) : nat :=
  count_occ Nat.eq_dec (onEndedCalls w) playback.

(** ** Main services

    Each call is split at its [await]: [_call] is what runs when the
    function is invoked (up to the request leaving), [_settle] what
    runs when the backend has answered or failed. *)

(** [translateTextSimple]. *)
Definition translateTextSimple_call (text targetLang : string) (w : World) : World :=
  send (ReqTranslate text targetLang) (getClient w).

Definition translateTextSimple_settle (answer : Completion Response) (w : World)
  : Completion string * World :=
  match answer with
  | Returned response =>
      (Returned (match Genai.text response with
                 | Some t => str_or (trim t) ""
                 | None => ""
                 end), w)
  | Threw e => (Returned "", console_error "Fast translation failed" (Some e) w)
  end.

(** [getRichContext]: no [try]; the parse of [response.text || '{}']
    is returned as it is. *)
Definition getRichContext_call (text sourceLang targetLang : string) (w : World) : World :=
  send (ReqRichContext text sourceLang targetLang) (getClient w).

Definition getRichContext_settle (answer : Completion Response) (w : World)
  : Completion JsValue * World :=
  match answer with
  | Returned response =>
      (Json.parse (match Genai.text response with
                   | Some t => str_or t "{}"
                   | None => "{}"
                   end), w)
  | Threw e => (Threw e, w)
  end.

(** [chatWithAI]: no [try] either. *)
Definition chatWithAI_call (message context : string) (history : list (string * string))
           (w : World) : World :=
  send (ReqChat message context history) (getClient w).

Definition chatWithAI_settle (answer : Completion Response) (w : World)
  : Completion string * World :=
  match answer with
  | Returned result =>
      (Returned (match Genai.text result with Some t => str_or t "" | None => "" end), w)
  | Threw e => (Threw e, w)
  end.

(** An optional string argument as the prompt shows it:
    [definition || '']. *)
Definition prompt_arg (v : JsValue) : string := toString (js_or v (JsString "")).

(** [generateVisualImage]: the [catch] logs and throws again. *)
Definition generateVisualImage_call (inputText : string) (definition story : JsValue)
           (w : World) : World :=
  send (ReqImage inputText (prompt_arg definition) (prompt_arg story)) (getClient w).

Definition generateVisualImage_settle (answer : Completion Response) (w : World)
  : Completion (option string) * World :=
  match answer with
  | Returned response =>
      (Returned
         (match firstPart response with
          | Some part =>
              match inlineData part with
              | Some blob =>
                  Some ("data:image/png;base64," +:+
                        match data blob with Some d => d | None => "undefined" end)
              | None => None
              end
          | None => None
          end), w)
  | Threw e => (Threw e, console_error "Image gen failed" (Some e) w)
  end.

(** [generateVisualSvg]: no [try]. *)
Definition generateVisualSvg_call (inputText : string) (definition story : JsValue)
           (w : World) : World :=
  send (ReqSvg inputText (prompt_arg definition) (prompt_arg story)) (getClient w).

Definition clean_svg (raw : string) : string :=
  trim (remove_all "```" (remove_all "```svg" (remove_all "```xml" raw))).

Definition generateVisualSvg_settle (answer : Completion Response) (w : World)
  : Completion (option string) * World :=
  match answer with
  | Returned response =>
      let svg := clean_svg (match Genai.text response with
                            | Some t => t
                            | None => ""
                            end) in
      (Returned (if includes "<svg" svg then Some svg else None), w)
  | Threw e => (Threw e, w)
  end.

(** [generateSpeech].  The key is the text, a hyphen, the voice. *)
Definition cacheKey (text voiceName : string) : string :=
  text +:+ "-" +:+ voiceName.

(** Up to the request: a hit returns at once, a miss sends the
    request and waits. *)
Definition generateSpeech_call (text voiceName : string) (w : World)
  : option string * World :=
  match audioCache w !! cacheKey text voiceName with
  | Some cached => (Some cached, w)
  | None => (None, send (ReqTts text voiceName) (getClient w))
  end.

Definition audio_of (response : Response) : option string :=
  match firstPart response with
  | Some part =>
      match inlineData part with
      | Some blob => data blob
      | None => None
      end
  | None => None
  end.

(** After the request: store and return the audio, or [null]. *)
Definition generateSpeech_settle (text voiceName : string)
           (answer : Completion Response) (w : World)
  : Completion (option string) * World :=
  match answer with
  | Returned response =>
      match audio_of response with
      | Some (String c rest as base64Audio) =>
          (Returned (Some base64Audio),
           with_audioCache (<[cacheKey text voiceName := base64Audio]> (audioCache w)) w)
      | _ => (Returned None, w)
      end
  | Threw e => (Returned None, console_error "TTS failed" (Some e) w)
  end.

(** The backend's behaviour, for runs in which each call is answered
    before the next is made. *)
Definition Backend : Type := Request -> Completion Response.

Definition translateTextSimple (backend : Backend) (text targetLang : string) (w : World)
  : Completion string * World :=
  translateTextSimple_settle (backend (ReqTranslate text targetLang))
    (translateTextSimple_call text targetLang w).

Definition getRichContext (backend : Backend) (text sourceLang targetLang : string)
           (w : World) : Completion JsValue * World :=
  getRichContext_settle (backend (ReqRichContext text sourceLang targetLang))
    (getRichContext_call text sourceLang targetLang w).

Definition chatWithAI (backend : Backend) (message context : string)
           (history : list (string * string)) (w : World)
  : Completion string * World :=
  chatWithAI_settle (backend (ReqChat message context history))
    (chatWithAI_call message context history w).

Definition generateVisualImage (backend : Backend) (inputText : string)
           (definition story : JsValue) (w : World)
  : Completion (option string) * World :=
  generateVisualImage_settle
    (backend (ReqImage inputText (prompt_arg definition) (prompt_arg story)))
    (generateVisualImage_call inputText definition story w).

Definition generateVisualSvg (backend : Backend) (inputText : string)
           (definition story : JsValue) (w : World)
  : Completion (option string) * World :=
  generateVisualSvg_settle
    (backend (ReqSvg inputText (prompt_arg definition) (prompt_arg story)))
    (generateVisualSvg_call inputText definition story w).

Definition generateSpeech (backend : Backend) (text voiceName : string) (w : World)
  : Completion (option string) * World :=
  match generateSpeech_call text voiceName w with
  | (Some cached, w1) => (Returned (Some cached), w1)
  | (None, w1) => generateSpeech_settle text voiceName (backend (ReqTts text voiceName)) w1
  end.

(** A series of speech calls, each completed before the next, each
    with the backend as it behaves at that time. *)
Fixpoint generateSpeech_all (calls : list (Backend * (string * string))) (w : World)
  : World :=
  match calls with
  | [] => w
  | (backend, (text, voiceName)) :: rest =>
      generateSpeech_all rest (snd (generateSpeech backend text voiceName w))
  end.

(** Speech calls that overlap: each starts, and settles later, in any
    order. *)
Inductive SpeechEvent : Type :=
| SpeechCalled (text voiceName : string)
| SpeechSettled (text voiceName : string) (answer : Completion Response).

Definition speech_step (ev : SpeechEvent) (w : World) : World :=
  match ev with
  | SpeechCalled text voiceName => snd (generateSpeech_call text voiceName w)
  | SpeechSettled text voiceName answer =>
      snd (generateSpeech_settle text voiceName answer w)
  end.

Definition speech_run (evs : list SpeechEvent) (w : World) : World :=
  fold_left (fun acc ev => speech_step ev acc) evs w.

End Service.


(* ================================================================== *)
(** * App.tsx: the flashcard store *)
(* ================================================================== *)

Module App.

(** The test of [flashcards.find(f => ...)]. *)
Definition same_source {host : Host} (card f : Flashcard) : bool :=
  (toLowerCase (Card.sourceText f) =? toLowerCase (Card.sourceText card)).

(** [addFlashcard]: the duplicate test reads the [flashcards] of the
    render that created the handler; the result is the updater handed
    to [setFlashcards], if any. *)
Definition addFlashcard {host : Host} (flashcards : list Flashcard) (card : Flashcard)
  : option (list Flashcard -> list Flashcard) :=
  match List.find (same_source card) flashcards with
  | Some _ => None
  | None => Some (fun prev => card :: prev)
  end.

(** [removeFlashcard]. *)
Definition removeFlashcard (id0 : string)
  : list Flashcard -> list Flashcard :=
  fun prev => List.filter (fun c => negb (Card.id c =? id0)) prev.

(** One call of [addFlashcard] on the rendered collection, state update
    applied. *)
Definition add {host : Host} (card : Flashcard) (flashcards : list Flashcard)
  : list Flashcard :=
  match addFlashcard flashcards card with
  | Some update => update flashcards
  | None => flashcards
  end.

Definition remove (id0 : string) (flashcards : list Flashcard) : list Flashcard :=
  removeFlashcard id0 flashcards.

End App.

(* ================================================================== *)
(** * components/ExploreView.tsx *)
(* ================================================================== *)

Module Chat.
Inductive Role : Type := user | model.
Record Message : Type := mk { role : Role; text : string }.
End Chat.

Module Explore.
Import Genai Service.

(** The [useState] cells of the component (the typewriter text of the
    landing screen apart). *)
Record ExploreState : Type := mkState {
  inputText : string;
  isSearching : bool;
  result : option TranslationResult;
  visualType : VisualType;
  visualContent : option string;
  isGeneratingVisual : bool;
  hasAddedToFlashcards : bool;
  activeAudioId : option string;
  loadingAudioId : option string;
  useAltVoice : bool;
  isChatOpen : bool;
  chatMessages : list Chat.Message;
  chatInput : string;
  isChatLoading : bool
}.

Record Props : Type := mkProps {
  sourceLang : LanguageOption;
  targetLang : LanguageOption
}.

(** The state setters. *)
Definition setInputText (v : string) (st : ExploreState) : ExploreState :=
  mkState v (isSearching st) (result st) (visualType st) (visualContent st)
          (isGeneratingVisual st) (hasAddedToFlashcards st) (activeAudioId st)
          (loadingAudioId st) (useAltVoice st) (isChatOpen st) (chatMessages st)
          (chatInput st) (isChatLoading st).
Definition setUseAltVoice (v : bool) (st : ExploreState) : ExploreState :=
  mkState (inputText st) (isSearching st) (result st) (visualType st)
          (visualContent st) (isGeneratingVisual st) (hasAddedToFlashcards st)
          (activeAudioId st) (loadingAudioId st) v (isChatOpen st) (chatMessages st)
          (chatInput st) (isChatLoading st).
Definition setIsSearching (v : bool) (st : ExploreState) : ExploreState :=
  mkState (inputText st) v (result st) (visualType st) (visualContent st)
          (isGeneratingVisual st) (hasAddedToFlashcards st) (activeAudioId st)
          (loadingAudioId st) (useAltVoice st) (isChatOpen st) (chatMessages st)
          (chatInput st) (isChatLoading st).
Definition setResult (v : option TranslationResult) (st : ExploreState) : ExploreState :=
  mkState (inputText st) (isSearching st) v (visualType st) (visualContent st)
          (isGeneratingVisual st) (hasAddedToFlashcards st) (activeAudioId st)
          (loadingAudioId st) (useAltVoice st) (isChatOpen st) (chatMessages st)
          (chatInput st) (isChatLoading st).
Definition setVisualType (v : VisualType) (st : ExploreState) : ExploreState :=
  mkState (inputText st) (isSearching st) (result st) v (visualContent st)
          (isGeneratingVisual st) (hasAddedToFlashcards st) (activeAudioId st)
          (loadingAudioId st) (useAltVoice st) (isChatOpen st) (chatMessages st)
          (chatInput st) (isChatLoading st).
Definition setVisualContent (v : option string) (st : ExploreState) : ExploreState :=
  mkState (inputText st) (isSearching st) (result st) (visualType st) v
          (isGeneratingVisual st) (hasAddedToFlashcards st) (activeAudioId st)
          (loadingAudioId st) (useAltVoice st) (isChatOpen st) (chatMessages st)
          (chatInput st) (isChatLoading st).
Definition setIsGeneratingVisual (v : bool) (st : ExploreState) : ExploreState :=
  mkState (inputText st) (isSearching st) (result st) (visualType st)
          (visualContent st) v (hasAddedToFlashcards st) (activeAudioId st)
          (loadingAudioId st) (useAltVoice st) (isChatOpen st) (chatMessages st)
          (chatInput st) (isChatLoading st).
Definition setHasAddedToFlashcards (v : bool) (st : ExploreState) : ExploreState :=
  mkState (inputText st) (isSearching st) (result st) (visualType st)
          (visualContent st) (isGeneratingVisual st) v (activeAudioId st)
          (loadingAudioId st) (useAltVoice st) (isChatOpen st) (chatMessages st)
          (chatInput st) (isChatLoading st).
Definition setActiveAudioId (v : option string) (st : ExploreState) : ExploreState :=
  mkState (inputText st) (isSearching st) (result st) (visualType st)
          (visualContent st) (isGeneratingVisual st) (hasAddedToFlashcards st) v
          (loadingAudioId st) (useAltVoice st) (isChatOpen st) (chatMessages st)
          (chatInput st) (isChatLoading st).
Definition setLoadingAudioId (v : option string) (st : ExploreState) : ExploreState :=
  mkState (inputText st) (isSearching st) (result st) (visualType st)
          (visualContent st) (isGeneratingVisual st) (hasAddedToFlashcards st)
          (activeAudioId st) v (useAltVoice st) (isChatOpen st) (chatMessages st)
          (chatInput st) (isChatLoading st).
Definition setChatMessages (v : list Chat.Message) (st : ExploreState) : ExploreState :=
  mkState (inputText st) (isSearching st) (result st) (visualType st)
          (visualContent st) (isGeneratingVisual st) (hasAddedToFlashcards st)
          (activeAudioId st) (loadingAudioId st) (useAltVoice st) (isChatOpen st) v
          (chatInput st) (isChatLoading st).
Definition setChatInput (v : string) (st : ExploreState) : ExploreState :=
  mkState (inputText st) (isSearching st) (result st) (visualType st)
          (visualContent st) (isGeneratingVisual st) (hasAddedToFlashcards st)
          (activeAudioId st) (loadingAudioId st) (useAltVoice st) (isChatOpen st)
          (chatMessages st) v (isChatLoading st).
Definition setIsChatLoading (v : bool) (st : ExploreState) : ExploreState :=
  mkState (inputText st) (isSearching st) (result st) (visualType st)
          (visualContent st) (isGeneratingVisual st) (hasAddedToFlashcards st)
          (activeAudioId st) (loadingAudioId st) (useAltVoice st) (isChatOpen st)
          (chatMessages st) (chatInput st) v.

(** The component as first mounted. *)
Definition mounted : ExploreState :=
  mkState "" false None Image None false false None None false false [] "" false.

(** State of the component together with the service's world. *)
Definition Sys : Type := (ExploreState * World)%type.

(** [getVoiceForLang]. *)
Definition getVoiceForLang (props : Props) (cap : ExploreState) (langCode : string)
  : string :=
  match List.find (fun l => code l =? langCode) [sourceLang props; targetLang props] with
  | Some langOption =>
      if langCode =? "en" then
        match useAltVoice cap, altVoice langOption with
        | true, Some (String c rest as alt) => alt
        | _, _ => defaultVoice langOption
        end
      else defaultVoice langOption
  | None => "Puck"
  end.

(** The placeholder that [handleSearch] installs first. *)
Definition skeleton : TranslationResult :=
  Result.mk (JsString "") (JsString "") (JsString "") (JsString "") (JsString "").

(** [{ ...prev!, translation: simpleTranslation }]. *)
Definition merge_translation (simpleTranslation : string)
           (prev : option TranslationResult) : TranslationResult :=
  match prev with
  | Some r =>
      Result.mk (Result.definition r) (Result.story r) (JsString simpleTranslation)
                (Result.definitionTranslation r) (Result.storyTranslation r)
  | None =>
      Result.mk JsUndefined JsUndefined (JsString simpleTranslation)
                JsUndefined JsUndefined
  end.

(** A call of [generateSpeech] whose promise nobody awaits: only the
    part before its [await] runs now.  A text that is not a string
    enters the key through the template literal. *)
Definition prefetch_speech (text : JsValue) (voiceName : string) (w : World) : World :=
  snd (generateSpeech_call (toString text) voiceName w).

(** [handleGenerateVisual], up to its [await]. *)
Definition handleGenerateVisual_call (type : VisualType) (inputTxt : string)
           (definitionTxt storyTxt : JsValue) (sys : Sys) : Sys :=
  let '(st, w) := sys in
  let st1 := setVisualContent None (setIsGeneratingVisual true (setVisualType type st)) in
  match type with
  | Image => (st1, generateVisualImage_call inputTxt definitionTxt storyTxt w)
  | SVG => (st1, generateVisualSvg_call inputTxt definitionTxt storyTxt w)
  | Video => (setIsGeneratingVisual false st1, w)
  end.

(** [handleGenerateVisual], once the illustration call has settled. *)
Definition handleGenerateVisual_settle (content : Completion (option string)) (sys : Sys)
  : Sys :=
  let '(st, w) := sys in
  match content with
  | Returned (Some (String c rest as payload)) =>
      (setIsGeneratingVisual false (setVisualContent (Some payload) st), w)
  | Returned _ => (setIsGeneratingVisual false st, w)
  | Threw e =>
      (setIsGeneratingVisual false st, console_error "Visual gen failed" (Some e) w)
  end.

(** The guard at the top of [handleSearch]. *)
Definition search_rejected (cap : ExploreState) : bool :=
  trim (inputText cap) =? "".

(** The search button: [disabled={isSearching || !inputText.trim()}]. *)
Definition searchButton_disabled (cap : ExploreState) : bool :=
  isSearching cap || search_rejected cap.

(** [handleSearch], from the resets to the fast-translate request. *)
Definition handleSearch_start (props : Props) (cap : ExploreState) (sys : Sys) : Sys :=
  let '(st, w) := sys in
  let st1 := setChatMessages [] (setHasAddedToFlashcards false (setIsSearching true st)) in
  let w1 := stopAudio w in
  let st2 := setVisualContent None (setLoadingAudioId None (setActiveAudioId None st1)) in
  let st3 := setResult (Some skeleton) st2 in
  (st3, translateTextSimple_call (inputText cap) (label (targetLang props)) w1).

(** The [catch] and [finally] of [handleSearch]. *)
Definition handleSearch_catch (e : Exn) (sys : Sys) : Sys :=
  let '(st, w) := sys in
  (setIsSearching false st, console_error "Translation flow failed" (Some e) w).

(** [handleSearch], from the fast translation to the rich-context
    request. *)
Definition handleSearch_translated (props : Props) (cap : ExploreState)
           (answer : Completion string) (sys : Sys) : Sys :=
  match answer with
  | Threw e => handleSearch_catch e sys
  | Returned simpleTranslation =>
      let '(st, w) := sys in
      let st1 := setResult (Some (merge_translation simpleTranslation (result st))) st in
      let voiceSource := getVoiceForLang props cap (code (sourceLang props)) in
      let voiceTarget := getVoiceForLang props cap (code (targetLang props)) in
      let w1 := prefetch_speech (JsString (inputText cap)) voiceSource w in
      let w2 := if simpleTranslation =? "" then w1
                else prefetch_speech (JsString simpleTranslation) voiceTarget w1 in
      (st1, getRichContext_call (inputText cap) (label (sourceLang props))
                                (label (targetLang props)) w2)
  end.

(** The object literal handed to [setResult] once [richData] is there;
    reading a property of [richData] may throw. *)
Definition full_result (simpleTranslation : string) (richData : JsValue)
  : Completion TranslationResult :=
  match (if simpleTranslation =? "" then js_get richData "translation"
         else Returned (JsString simpleTranslation)) with
  | Threw e => Threw e
  | Returned tr =>
      match js_get richData "definition", js_get richData "story",
            js_get richData "definitionTranslation",
            js_get richData "storyTranslation" with
      | Returned d, Returned s, Returned dt, Returned sT =>
          Returned (Result.mk d s tr dt sT)
      | Threw e, _, _, _ => Threw e
      | _, Threw e, _, _ => Threw e
      | _, _, Threw e, _ => Threw e
      | _, _, _, Threw e => Threw e
      end
  end.

(** [handleSearch], from the rich context to the end. *)
Definition handleSearch_enriched (props : Props) (cap : ExploreState)
           (simpleTranslation : string) (answer : Completion JsValue) (sys : Sys) : Sys :=
  match answer with
  | Threw e => handleSearch_catch e sys
  | Returned richData =>
      match full_result simpleTranslation richData with
      | Threw e => handleSearch_catch e sys
      | Returned full =>
          let '(st, w) := sys in
          let voiceSource := getVoiceForLang props cap (code (sourceLang props)) in
          let '(st1, w1) :=
            handleGenerateVisual_call Image (inputText cap) (Result.definition full)
              (Result.story full) (setResult (Some full) st, w) in
          let w2 := prefetch_speech (Result.definition full) voiceSource w1 in
          let w3 := prefetch_speech (Result.story full) voiceSource w2 in
          (setIsSearching false st1, w3)
      end
  end.

(** One search, the backend answering each awaited call in turn: the
    states after each stage, in order.  Calls that nobody awaits
    (speech prefetch, illustration) stay in flight. *)
Definition handleSearch_stages (backend : Backend) (props : Props) (sys : Sys)
  : list Sys :=
  let cap := fst sys in
  if search_rejected cap then []
  else
    let s1 := handleSearch_start props cap sys in
    let '(simple, w1) :=
      translateTextSimple_settle
        (backend (ReqTranslate (inputText cap) (label (targetLang props)))) (snd s1) in
    let s2 := handleSearch_translated props cap simple (fst s1, w1) in
    match simple with
    | Threw _ => [s1; s2]
    | Returned simpleTranslation =>
        let '(rich, w2) :=
          getRichContext_settle
            (backend (ReqRichContext (inputText cap) (label (sourceLang props))
                                     (label (targetLang props)))) (snd s2) in
        [s1; s2; handleSearch_enriched props cap simpleTranslation rich (fst s2, w2)]
    end.

(** [handleSearch], run to its end. *)
Definition handleSearch (backend : Backend) (props : Props) (sys : Sys) : Sys :=
  List.last (handleSearch_stages backend props sys) sys.

(** The guard at the top of [handleSendMessage]. *)
Definition message_rejected (cap : ExploreState) : bool :=
  (trim (chatInput cap) =? "") ||
  match result cap with None => true | Some _ => false end.

Definition chat_context (cap : ExploreState) : string :=
  match result cap with
  | Some r =>
      "Word: " +:+ inputText cap +:+ ". Definition: " +:+ toString (Result.definition r)
        +:+ ". Story: " +:+ toString (Result.story r)
  | None => ""
  end.

Definition role_name (r : Chat.Role) : string :=
  match r with Chat.user => "user" | Chat.model => "model" end.

Definition apiHistory (cap : ExploreState) : list (string * string) :=
  map (fun m => (role_name (Chat.role m), Chat.text m)) (chatMessages cap).

(** [handleSendMessage], up to the chat request. *)
Definition handleSendMessage_start (cap : ExploreState) (sys : Sys) : Sys :=
  let '(st, w) := sys in
  let userMsg := chatInput cap in
  let st1 := setChatInput "" st in
  let st2 := setChatMessages (chatMessages st1 ++ [Chat.mk Chat.user userMsg]) st1 in
  let st3 := setIsChatLoading true st2 in
  (st3, chatWithAI_call userMsg (chat_context cap) (apiHistory cap) w).

(** [handleSendMessage], once the chat call has settled. *)
Definition handleSendMessage_settle (answer : Completion string) (sys : Sys) : Sys :=
  let '(st, w) := sys in
  match answer with
  | Returned aiResponseText =>
      (setIsChatLoading false
         (setChatMessages (chatMessages st ++ [Chat.mk Chat.model aiResponseText]) st), w)
  | Threw e => (setIsChatLoading false st, console_error "Chat failed" (Some e) w)
  end.

(** [handleSendMessage], the backend answering at once. *)
Definition handleSendMessage (backend : Backend) (sys : Sys) : Sys :=
  let cap := fst sys in
  if message_rejected cap then sys
  else
    let s1 := handleSendMessage_start cap sys in
    let '(reply, w1) :=
      chatWithAI_settle
        (backend (ReqChat (chatInput cap) (chat_context cap) (apiHistory cap))) (snd s1) in
    handleSendMessage_settle reply (fst s1, w1).

(** [Date.now().toString()]. *)
Definition timestamp_id (now : Z) : string := NilZero.string_of_int (Z.to_int now).

(** [handleAddToFlashcards]: the card built from the current lookup,
    if there is one.  [now] and [now'] are the two readings of the
    clock. *)
Definition newCard (props : Props) (cap : ExploreState) (now now' : Z)
  : option Flashcard :=
  match result cap with
  | None => None
  | Some r =>
      Some (Card.mk (timestamp_id now) (inputText cap)
              (js_or (Result.definition r) (JsString ""))
              (js_or (Result.story r) (JsString ""))
              (js_or (Result.translation r) (JsString ""))
              (js_or (Result.definitionTranslation r) (JsString ""))
              (js_or (Result.storyTranslation r) (JsString ""))
              (code (targetLang props)) (code (sourceLang props)) now'
              (Some (visualType cap))
              (match visualContent cap with
               | Some (String c rest as v) => Some v
               | _ => None
               end))
  end.

(** The [disabled] attribute of the commit button; the button exists
    only while there is a result. *)
Definition addButton_disabled (st : ExploreState) : option bool :=
  match result st with
  | None => None
  | Some r => Some (hasAddedToFlashcards st || negb (truthy (Result.definition r)))
  end.

End Explore.

(* ================================================================== *)
(** * The application: ExploreView mounted in App *)
(* ================================================================== *)

Module Ui.
Import Explore.

(** [handleAddToFlashcards] with [onAddFlashcard] bound to the store's
    [addFlashcard], as [App] mounts it. *)
Definition handleAddToFlashcards {host : Host} (props : Props) (now now' : Z)
           (st : ExploreState) (flashcards : list Flashcard)
  : ExploreState * list Flashcard :=
  match newCard props st now now' with
  | None => (st, flashcards)
  | Some card => (setHasAddedToFlashcards true st, App.add card flashcards)
  end.

(** A click on the commit button: a button that is absent or disabled
    delivers no click. *)
Definition click_add {host : Host} (props : Props) (now now' : Z)
           (st : ExploreState) (flashcards : list Flashcard)
  : ExploreState * list Flashcard :=
  match addButton_disabled st with
  | Some false => handleAddToFlashcards props now now' st flashcards
  | _ => (st, flashcards)
  end.

End Ui.

(* ================================================================== *)
(** * Notions used by the properties *)
(* ================================================================== *)

Import Genai Service Explore.

(** The five fields of a lookup result. *)
Inductive Field : Type :=
| Definition_ | Story | Translation | DefinitionTranslation | StoryTranslation.

Definition field (f : Field) (r : TranslationResult) : JsValue :=
  match f with
  | Definition_ => Result.definition r
  | Story => Result.story r
  | Translation => Result.translation r
  | DefinitionTranslation => Result.definitionTranslation r
  | StoryTranslation => Result.storyTranslation r
  end.

(** A field counts as populated when the view shows it rather than a
    placeholder, that is when it is truthy. *)
Definition populated (f : Field) (r : TranslationResult) : bool := truthy (field f r).

(** What holds of the audio subsystem after any course of events: the
    calls whose [onEnded] has run are old and pairwise distinct, so are
    the calls that own a node, a parked call has neither run its
    [onEnded] nor got a node, and no node whose [ended] is still to be
    dispatched has had its [onEnded] run. *)
Record playback_inv (w : World) : Prop := mk_playback_inv {
  inv_calls_old : forall p, In p (onEndedCalls w) -> (p < plays w)%nat;
  inv_calls_nodup : NoDup (onEndedCalls w);
  inv_nodes_old : forall i nd, nodes w !! i = Some nd -> (node_playback nd < plays w)%nat;
  inv_nodes_nodup : NoDup (map node_playback (nodes w));
  inv_waiting : forall entry, In entry (awaitingResume w) ->
      (fst entry < plays w)%nat
      /\ ~ In (fst entry) (onEndedCalls w)
      /\ ~ In (fst entry) (map node_playback (nodes w));
  inv_pending : forall i nd, nodes w !! i = Some nd -> node_state nd <> Ended ->
      ~ In (node_playback nd) (onEndedCalls w)
}.

(** A response that carries no text at all. *)
Definition no_text (response : Response) : bool :=
  match Genai.text response with
  | None | Some "" => true
  | Some _ => false
  end.

(** Two strings that differ only by the case of ASCII letters. *)
Fixpoint differ_only_by_case (a b : string) : bool :=
  match a, b with
  | EmptyString, EmptyString => true
  | String x a', String y b' =>
      (Ascii.eqb (lower_char x) (lower_char y)) && differ_only_by_case a' b'
  | _, _ => false
  end.

(* ================================================================== *)
(** * Sample inputs *)
(* ================================================================== *)

Definition lower_char_twice (c : ascii) : lower_char (lower_char c) = lower_char c.
Proof.
  destruct c as [b0 b1 b2 b3 b4 b5 b6 b7];
    destruct b0, b1, b2, b3, b4, b5, b6, b7; reflexivity.
Defined.

Fixpoint lower_ascii_twice (s : string) : lower_ascii (lower_ascii s) = lower_ascii s :=
  match s with
  | EmptyString => eq_refl
  | String c rest =>
      f_equal2 String (lower_char_twice c) (lower_ascii_twice rest)
  end.

(** An engine for the examples: one whose case tables hold the ASCII
    letters alone.  On ASCII strings every engine agrees with it. *)
Definition ascii_host : Host :=
  {| toLowerCase := lower_ascii;
     toLowerCase_ascii := fun s _ => eq_refl;
     toLowerCase_fold := lower_ascii_twice |}.

Definition card_of (source : string) (created : Z) : Flashcard :=
  Card.mk (timestamp_id created) source (JsString "d") (JsString "s") (JsString "t")
          (JsString "dt") (JsString "st") "zh-CN" "en" created (Some Image) None.

Definition tts_response (payload : string) : Response :=
  mkResponse None (Some (mkPart (Some (mkInline (Some payload))))).

(** A backend that answers every speech request with the same audio and
    fails every other request. *)
Definition speaking_backend (payload : string) : Backend :=
  fun req =>
    match req with
    | ReqTts _ _ => Returned (tts_response payload)
    | _ => Threw (BackendError "503")
    end.

Definition failing_backend : Backend := fun _ => Threw (BackendError "503").

Definition sample_props : Props :=
  mkProps (mkLang "en" "English" "Fenrir" (Some "Puck"))
          (mkLang "zh-CN" "Chinese (Simplified)" "Zephyr" None).

(** A completed lookup of "hello", the chat open on its third
    message. *)
Definition asking : ExploreState :=
  mkState "hello" false
          (Some (Result.mk (JsString "a greeting") (JsString "She said hello.")
                   (JsString "ni hao") (JsString "wen hou") (JsString "ta shuo ni hao")))
          Image None false false None None false true
          [Chat.mk Chat.user "formal?"; Chat.mk Chat.model "No, casual."]
          "and at night?" false.

(** The input field holds "hello"; nothing has been searched yet. *)
Definition typed_hello : ExploreState :=
  mkState "hello" false None Image None false false None None false false [] "" false.

(** A backend whose rich-context answer is cut short. *)
Definition cut_backend : Backend :=
  fun req =>
    match req with
    | ReqTranslate _ _ => Returned (mkResponse (Some " ni hao ") None)
    | ReqRichContext _ _ _ => Returned (mkResponse (Some "{") None)
    | _ => Threw (BackendError "503")
    end.

(** A backend whose rich-context answer carries no text. *)
Definition textless_backend : Backend :=
  fun req =>
    match req with
    | ReqTranslate _ _ => Returned (mkResponse (Some " ni hao ") None)
    | ReqRichContext _ _ _ => Returned (mkResponse None None)
    | _ => Threw (BackendError "503")
    end.

(** The lookup of "hello" between the fast translation and the rich
    context, as [handleSearch] leaves it. *)
Definition awaiting_rich_context : ExploreState :=
  fst (handleSearch_translated sample_props typed_hello (Returned "ni hao")
         (handleSearch_start sample_props typed_hello (typed_hello, initial (Some "key")))).

(** The lookup of "hello" after a rich context that brought a
    definition and an empty story. *)
Definition without_story : ExploreState :=
  mkState "hello" false
          (Some (Result.mk (JsString "a greeting") (JsString "") (JsString "ni hao")
                   (JsString "wen hou") (JsString "")))
          Image None false false None None false false [] "" false.

(** One frame of silence. *)
Definition silence : string := "AAA=".

(** Three playbacks in a row, the [ended] event of the first arriving
    while the second sounds. *)
Definition stale_ended : list Event :=
  [EvPlay Running silence true; EvPlay Running silence true; EvEnded 0;
   EvPlay Running silence true].

(** Two playbacks requested while the audio context is suspended. *)
Definition overlapping_setups : list Event :=
  [EvPlay Suspended silence true; EvPlay Suspended silence true;
   EvResumeSettled 0 true; EvResumeSettled 1 true].

(* ================================================================== *)
(** * Further notions *)
(* ================================================================== *)

(** A string without a hyphen. *)
Fixpoint hyphen_free (s : string) : bool :=
  match s with
  | EmptyString => true
  | String c rest => negb (c =? "-")%char && hyphen_free rest
  end.

(** What the application can do to the collection, and a course of
    such operations. *)
Inductive StoreOp : Type :=
| Add (card : Flashcard)
| Remove (id : string).

Definition store_step {host : Host} (op : StoreOp) (flashcards : list Flashcard)
  : list Flashcard :=
  match op with
  | Add card => App.add card flashcards
  | Remove id => App.remove id flashcards
  end.

Definition store_run {host : Host} (ops : list StoreOp) (flashcards : list Flashcard)
  : list Flashcard :=
  fold_left (fun acc op => store_step op acc) ops flashcards.

(** The source texts of a collection, lower-cased: what the duplicate
    test compares. *)
Definition source_keys {host : Host} (flashcards : list Flashcard) : list string :=
  map (fun c => toLowerCase (Card.sourceText c)) flashcards.

(** The request that a speech call sends, if any, given the cache it
    finds. *)
Definition speech_request (cache : gmap string string) (text voiceName : string)
  : list Request :=
  match cache !! cacheKey text voiceName with
  | Some _ => []
  | None => [ReqTts text voiceName]
  end.

(** An answer to a speech request, as it arrives at the [await] of the
    [generateSpeech] call that sent the request: the text and the voice
    of that call, and the answer. *)
Definition Arrival : Type := string * string * Completion Response.

Definition speech_arrive (arrivals : list Arrival) (w : World) : World :=
  fold_left (fun acc (a : Arrival) =>
               snd (generateSpeech_settle (fst (fst a)) (snd (fst a)) (snd a) acc))
            arrivals w.

(** What a series of arrivals makes of the cache. *)
Definition cache_after (arrivals : list Arrival) (cache : gmap string string)
  : gmap string string :=
  fold_left (fun acc (a : Arrival) =>
               match snd a with
               | Returned response =>
                   match audio_of response with
                   | Some (String c rest as base64Audio) =>
                       <[cacheKey (fst (fst a)) (snd (fst a)) := base64Audio]> acc
                   | _ => acc
                   end
               | Threw _ => acc
               end)
            arrivals cache.

(** One search, run to its end with no other handler of the view in
    between, amid the answers to speech requests: while the search
    waits for the fast translation ([arrivals1]) and for the rich
    context ([arrivals2]), answers to speech requests made earlier, its
    own prefetches among them, arrive and are stored. *)
Definition handleSearch_amid (backend : Backend) (props : Props)
           (arrivals1 arrivals2 : list Arrival) (sys : Sys) : Sys :=
  let cap := fst sys in
  if search_rejected cap then sys
  else
    let s1 := handleSearch_start props cap sys in
    let '(simple, w1) :=
      translateTextSimple_settle
        (backend (ReqTranslate (inputText cap) (label (targetLang props))))
        (speech_arrive arrivals1 (snd s1)) in
    let s2 := handleSearch_translated props cap simple (fst s1, w1) in
    match simple with
    | Threw _ => s2
    | Returned simpleTranslation =>
        let '(rich, w2) :=
          getRichContext_settle
            (backend (ReqRichContext (inputText cap) (label (sourceLang props))
                                     (label (targetLang props))))
            (speech_arrive arrivals2 (snd s2)) in
        handleSearch_enriched props cap simpleTranslation rich (fst s2, w2)
    end.

(** The client call that a generation of [type] awaits, once the
    backend has answered it.  (The video type awaits nothing; its
    [content] stays [null].) *)
Definition visual_settle (type : VisualType) (answer : Completion Response) (w : World)
  : Completion (option string) * World :=
  match type with
  | Image => generateVisualImage_settle answer w
  | SVG => generateVisualSvg_settle answer w
  | Video => (Returned None, w)
  end.

(** [handleGenerateVisual] from the answer of the backend on, in the
    state that the answer finds. *)
Definition handleGenerateVisual_answered (type : VisualType)
           (answer : Completion Response) (sys : Sys) : Sys :=
  let '(content, w1) := visual_settle type answer (snd sys) in
  handleGenerateVisual_settle content (fst sys, w1).

(** A backend whose rich-context answer is the JSON text [null]. *)
Definition null_backend : Backend :=
  fun req =>
    match req with
    | ReqTranslate _ _ => Returned (mkResponse (Some " ni hao ") None)
    | ReqRichContext _ _ _ => Returned (mkResponse (Some "null") None)
    | _ => Threw (BackendError "503")
    end.

(** The JSON text of an object with a definition and a story. *)
Definition greeting_json : string :=
  let q := String Json.dquote EmptyString in
  "{" +:+ q +:+ "definition" +:+ q +:+ ":" +:+ q +:+ "a greeting" +:+ q +:+ ","
      +:+ q +:+ "story" +:+ q +:+ ":" +:+ q +:+ "She said hello." +:+ q +:+ "}".

(** A backend that translates and explains, and fails every other
    request. *)
Definition greeting_backend : Backend :=
  fun req =>
    match req with
    | ReqTranslate _ _ => Returned (mkResponse (Some " ni hao ") None)
    | ReqRichContext _ _ _ => Returned (mkResponse (Some greeting_json) None)
    | _ => Threw (BackendError "503")
    end.


(* ================================================================== *)
(** * components/ExploreView.tsx: the typewriter placeholder *)
(* ================================================================== *)

Module Typewriter.

Definition words : list string := ["word"; "phrase"; "sentence"; "paragraph"].

(** [s.substring(0, n)]: a negative [n] counts as zero, one past the
    end as the length. *)
Definition substring0 (n : Z) (s : string) : string :=
  String.substring 0 (Z.to_nat n) s.

(** The variables of the effect's closure. *)
Record Vars : Type := mkVars { i : nat; j : Z; isDeleting : bool }.

(** What one call of [type] leaves behind: the closure's variables,
    the text handed to [setTypewriterText], the delay of the timeout
    that will call [type] again. *)
Record Tick : Type := mkTick { vars : Vars; typewriterText : string; delay : Z }.

Definition start : Vars := mkVars 0 0 false.

(** [type()].  [None]: [words[i]] is [undefined] and [substring]
    throws. *)
Definition type (v : Vars) : option Tick :=
  match words !! i v with
  | None => None
  | Some currentWord =>
      let len := Z.of_nat (String.length currentWord) in
      let '(text, v1) :=
        if isDeleting v then
          let j1 := j v - 1 in
          (substring0 (j v - 1) currentWord,
           if j1 =? 0 then mkVars ((i v + 1) mod length words) j1 false
           else mkVars (i v) j1 true)
        else
          let j1 := j v + 1 in
          (substring0 (j v + 1) currentWord,
           if j1 =? len then mkVars (i v) j1 true else mkVars (i v) j1 false) in
      let speed := if isDeleting v1 then 75 else 150 in
      let delay := if negb (isDeleting v1) && (j v1 =? len) then 3000 else speed in
      Some (mkTick v1 text delay)
  end%Z.

(** The call of [type] at mount and the [n] calls that the timeouts
    make after it; the result is that of the last call. *)
Fixpoint run (n : nat) (v : Vars) : option Tick :=
  match n with
  | O => type v
  | S n' =>
      match type v with
      | Some tick => run n' (vars tick)
      | None => None
      end
  end.

End Typewriter.

(* ================================================================== *)
(** * components/FlashcardView.tsx *)
(* ================================================================== *)

Module Deck.

Record State : Type := mk {
  currentIndex : Z;
  isFlipped : bool;
  isDownloading : bool
}.

Definition setCurrentIndex (v : Z) (st : State) : State :=
  mk v (isFlipped st) (isDownloading st).
Definition setIsFlipped (v : bool) (st : State) : State :=
  mk (currentIndex st) v (isDownloading st).

Definition mounted : State := mk 0 false false.

(** [nextCard]: the guard reads the render's [currentIndex], the
    update is applied to the state of the moment. *)
Definition nextCard (flashcards : list Flashcard) (cap st : State) : State :=
  if (currentIndex cap <? Z.of_nat (length flashcards) - 1)%Z
  then let st1 := setIsFlipped false st in setCurrentIndex (currentIndex st1 + 1) st1
  else st.

Definition prevCard (cap st : State) : State :=
  if (currentIndex cap >? 0)%Z
  then let st1 := setIsFlipped false st in setCurrentIndex (currentIndex st1 - 1) st1
  else st.

Definition handleReset (st : State) : State :=
  setCurrentIndex 0 (setIsFlipped false st).

(** The [onClick] of the card at [index]:
    [isCurrent && setIsFlipped(!isFlipped)]. *)
Definition card_clicked (index : Z) (cap st : State) : State :=
  if (index =? currentIndex cap)%Z then setIsFlipped (negb (isFlipped cap)) st else st.

(** [flashcards[currentIndex]]. *)
Definition currentCard (flashcards : list Flashcard) (st : State) : option Flashcard :=
  if (currentIndex st <? 0)%Z then None else flashcards !! Z.to_nat (currentIndex st).

(** What the user, and the explore view through [onAddFlashcard], can
    do while the view is mounted.  Nothing in the view calls
    [onRemove]. *)
Inductive Event : Type :=
| Next
| Prev
| Reset
| CardClicked (index : Z)
| Added (card : Flashcard).

(** Each handler runs in the render that follows the previous event. *)
Definition step {host : Host} (ev : Event) (sys : State * list Flashcard)
  : State * list Flashcard :=
  let '(st, flashcards) := sys in
  match ev with
  | Next => (nextCard flashcards st st, flashcards)
  | Prev => (prevCard st st, flashcards)
  | Reset => (handleReset st, flashcards)
  | CardClicked index => (card_clicked index st st, flashcards)
  | Added card => (st, App.add card flashcards)
  end.

Definition run {host : Host} (evs : list Event) (sys : State * list Flashcard)
  : State * list Flashcard :=
  fold_left (fun acc ev => step ev acc) evs sys.

(** The animated properties of one card of the stack that the proofs
    look at ([scale], [y] and the brightness filter are left out). *)
Record Style : Type := mkStyle {
  isCurrent : bool;
  offset : Z;
  zIndex : Z;
  x : Z;
  opacity : Z;
  rotateY : Z
}.

(** The body of [flashcards.map((card, index) => ...)]: [None] where
    it returns [null]. *)
Definition card_style (st : State) (index : Z) : option Style :=
  if ((index <? currentIndex st - 1) || (index >? currentIndex st + 2))%Z then None
  else
    let isCurrent := (index =? currentIndex st)%Z in
    let offset := (index - currentIndex st)%Z in
    Some (mkStyle isCurrent offset (30 - offset)
            (if (index <? currentIndex st)%Z then -400 else 0)
            (if (index <? currentIndex st)%Z then 0
             else if (offset >? 2)%Z then 0 else 1)
            (if isCurrent && isFlipped st then 180 else 0))%Z.

(** The cards that are rendered, each with its index. *)
Definition stack (flashcards : list Flashcard) (st : State) : list (Z * Style) :=
  omap (fun index => match card_style st index with
                     | Some style => Some (index, style)
                     | None => None
                     end)
       (map Z.of_nat (seq 0 (length flashcards))).

End Deck.

(** The typewriter's variables between two calls of [type]: [i] names
    a word, [j] is inside it, at its end only while deleting. *)
Definition typewriter_inv (v : Typewriter.Vars) : Prop :=
  exists word, Typewriter.words !! Typewriter.i v = Some word
    /\ (0 <= Typewriter.j v <= Z.of_nat (String.length word))%Z
    /\ (Typewriter.isDeleting v = true -> 1 <= Typewriter.j v)%Z
    /\ (Typewriter.isDeleting v = false
        -> Typewriter.j v < Z.of_nat (String.length word))%Z.

(* ================================================================== *)
(** * components/ExploreView.tsx: playing a text aloud *)
(* ================================================================== *)

Module Player.

(** The view, the service, and the [onEnded] closures that the view
    has handed to [playAudio]: the number of the call and the
    [elementId] that the closure holds. *)
Record Player : Type := mk {
  view : ExploreState;
  service : World;
  listeners : list (nat * string)
}.

(** [value === id], for a state cell that holds a string or [null]. *)
Definition is_id (value : option string) (id : string) : bool :=
  match value with
  | Some held => held =? id
  | None => false
  end.

(** The closure:
    [setActiveAudioId(prev => prev === elementId ? null : prev)]. *)
Definition onEnded (elementId : string) (st : ExploreState) : ExploreState :=
  setActiveAudioId
    (if is_id (activeAudioId st) elementId then None else activeAudioId st) st.

Definition is_listener (playback : nat) (l : nat * string) : bool :=
  (fst l =? playback)%nat.

Definition call_listener (ls : list (nat * string)) (st : ExploreState) (playback : nat)
  : ExploreState :=
  match List.find (is_listener playback) ls with
  | Some l => onEnded (snd l) st
  | None => st
  end.

(** The service runs an [onEnded] by logging its call; the closures of
    the calls logged since [before] run on the view, in order. *)
Definition deliver (before : World) (p : Player) : Player :=
  mk (fold_left (call_listener (listeners p))
                (drop (length (onEndedCalls before)) (onEndedCalls (service p)))
                (view p))
     (service p) (listeners p).

(** [handlePlayAudio], once [generateSpeech] has settled. *)
Definition handlePlayAudio_settle (fresh : ContextState) (elementId : string)
           (audioData : Completion (option string)) (p : Player) : Player :=
  match audioData with
  | Returned audio =>
      let st1 := setLoadingAudioId None (view p) in
      match audio with
      | Some (String c rest as base64Audio) =>
          let st2 := setActiveAudioId (Some elementId) st1 in
          let w := service p in
          deliver w (mk st2 (playAudio fresh base64Audio true w)
                        (listeners p ++ [(plays w, elementId)]))
      | _ => mk st1 (service p) (listeners p)
      end
  | Threw e =>
      mk (setActiveAudioId None (setLoadingAudioId None (view p)))
         (console_error "Play failed" (Some e) (service p)) (listeners p)
  end.

(** [handlePlayAudio(text, langCode, elementId)], up to the request of
    [generateSpeech]; on a cache hit there is no request and the rest
    follows at once. *)
Definition handlePlayAudio_call (props : Props) (fresh : ContextState) (text : JsValue)
           (langCode elementId : string) (cap : ExploreState) (p : Player) : Player :=
  if is_id (activeAudioId cap) elementId then
    mk (setActiveAudioId None (view p)) (stopAudio (service p)) (listeners p)
  else
    let st1 := setLoadingAudioId (Some elementId) (setActiveAudioId None (view p)) in
    let voice := getVoiceForLang props cap langCode in
    match generateSpeech_call (toString text) voice (service p) with
    | (Some cached, w1) =>
        handlePlayAudio_settle fresh elementId (Returned (Some cached))
          (mk st1 w1 (listeners p))
    | (None, w1) => mk st1 w1 (listeners p)
    end.

(** The button of [renderAudioButton]: not rendered without text,
    disabled while its own audio is loading. *)
Definition audioButton_clicked (props : Props) (fresh : ContextState) (text : JsValue)
           (langCode id : string) (p : Player) : Player :=
  if negb (truthy text) || is_id (loadingAudioId (view p)) id then p
  else handlePlayAudio_call props fresh text langCode id (view p) p.

(** [handleSearch] called in the render that is on screen, up to its
    first [await]. *)
Definition search_begins (props : Props) (p : Player) : Player :=
  if search_rejected (view p) then p
  else
    let '(st, w) := handleSearch_start props (view p) (view p, service p) in
    mk st w (listeners p).

(** What can happen in the explore view around a lookup and its
    audio: typing into the input, the Enter key ([handleKeyDown], which
    calls [handleSearch] whether or not a search is running), a click
    on the search button (disabled while a search runs), the later
    stages of a search, each at the arrival of the answer it awaits and
    with the render that its search captured, the switch of the English
    voice, clicks on an audio button, answers to speech requests
    (awaited by [handlePlayAudio], or prefetched by [handleSearch]),
    and the browser's audio events.  [fresh] is the state of the audio
    context, should the step create it. *)
Inductive Event : Type :=
| InputChanged (text : string)
| EnterPressed
| SearchClicked
| AltVoiceToggled
| AudioButtonClicked (fresh : ContextState) (text : JsValue) (langCode id : string)
| SpeechAnswered (fresh : ContextState) (text voiceName elementId : string)
                 (answer : Completion Response)
| PrefetchAnswered (text voiceName : string) (answer : Completion Response)
| SearchTranslated (cap : ExploreState) (answer : Completion Response)
| SearchEnriched (cap : ExploreState) (simpleTranslation : string)
                 (answer : Completion Response)
| ResumeSettled (playback : nat) (outcome : Completion unit)
| BufferPlayed (node : nat)
| Ended (node : nat).

Definition step (props : Props) (ev : Event) (p : Player) : Player :=
  match ev with
  | InputChanged text => mk (setInputText text (view p)) (service p) (listeners p)
  | EnterPressed => search_begins props p
  | SearchClicked =>
      if searchButton_disabled (view p) then p else search_begins props p
  | AltVoiceToggled =>
      mk (setUseAltVoice (negb (useAltVoice (view p))) (view p)) (service p) (listeners p)
  | AudioButtonClicked fresh text langCode id =>
      audioButton_clicked props fresh text langCode id p
  | SpeechAnswered fresh text voiceName elementId answer =>
      let '(audioData, w1) := generateSpeech_settle text voiceName answer (service p) in
      handlePlayAudio_settle fresh elementId audioData (mk (view p) w1 (listeners p))
  | PrefetchAnswered text voiceName answer =>
      mk (view p) (snd (generateSpeech_settle text voiceName answer (service p)))
         (listeners p)
  | SearchTranslated cap answer =>
      let '(simple, w1) := translateTextSimple_settle answer (service p) in
      let '(st, w) := handleSearch_translated props cap simple (view p, w1) in
      mk st w (listeners p)
  | SearchEnriched cap simpleTranslation answer =>
      let '(rich, w1) := getRichContext_settle answer (service p) in
      let '(st, w) := handleSearch_enriched props cap simpleTranslation rich (view p, w1) in
      mk st w (listeners p)
  | ResumeSettled playback outcome =>
      deliver (service p)
        (mk (view p) (playAudio_resumed playback outcome (service p)) (listeners p))
  | BufferPlayed n =>
      mk (view p) (buffer_played n (service p)) (listeners p)
  | Ended n =>
      deliver (service p) (mk (view p) (ended n (service p)) (listeners p))
  end.

Definition run (props : Props) (evs : list Event) (p : Player) : Player :=
  fold_left (fun acc ev => step props ev acc) evs p.

(** The view as mounted on a freshly loaded page. *)
Definition start (key : option string) : Player := mk mounted (initial key) [].

End Player.

(** A call of [playAudio] whose [onEnded] is still to come: the call
    waits for the audio context to resume, or its node has not had its
    [ended] event dispatched. *)
Definition pending (w : World) (playback : nat) : Prop :=
  (exists audio, In (playback, (audio, true)) (awaitingResume w))
  \/ (exists n nd, nodes w !! n = Some nd /\ node_playback nd = playback
                   /\ node_state nd <> Ended /\ node_onEnded nd = true).

(** The parts of the service's state that sound depends on. *)
Definition same_audio (w w' : World) : Prop :=
  plays w' = plays w /\ nodes w' = nodes w /\ awaitingResume w' = awaitingResume w
  /\ onEndedCalls w' = onEndedCalls w.

Record player_inv (p : Player.Player) : Prop := mk_player_inv {
  pinv_service : playback_inv (Player.service p);
  pinv_listeners : forall l, In l (Player.listeners p) ->
      (fst l < plays (Player.service p))%nat;
  pinv_listeners_nodup : List.NoDup (map fst (Player.listeners p));
  pinv_waiting_nodup : List.NoDup (map fst (awaitingResume (Player.service p)));
  pinv_highlight : forall e, activeAudioId (Player.view p) = Some e ->
      exists q, In (q, e) (Player.listeners p) /\ pending (Player.service p) q
}.

(* ================================================================== *)
(** * [HighlightedText] (ExploreView.tsx and FlashcardView.tsx) *)
(* ================================================================== *)

Module Highlight.

(** The characters that the class of [/[.*+?^${}()|[\]\\]/g] holds:
    the syntax characters of the pattern grammar. *)
Definition is_syntax (c : ascii) : bool :=
  existsb (Ascii.eqb c)
          ["."; "*"; "+"; "?"; "^"; "$"; "{"; "}"; "("; ")"; "|"; "["; "]";
           Json.backslash]%char.

(** [highlight.replace(/[.*+?^${}()|[\]\\]/g, '\\$&')]. *)
Fixpoint escape (s : string) : string :=
  match s with
  | EmptyString => EmptyString
  | String c rest =>
      if is_syntax c then String Json.backslash (String c (escape rest))
      else String c (escape rest)
  end.

(** The literal that a pattern stands for when it uses no operator: a
    backslash before a syntax character stands for that character, any
    other character for itself.  [None]: the pattern has an operator,
    or an escape of another kind. *)
Fixpoint literal_of (pattern : string) : option string :=
  match pattern with
  | EmptyString => Some EmptyString
  | String c rest =>
      if Ascii.eqb c Json.backslash then
        match rest with
        | String d rest' =>
            if is_syntax d then option_map (String d) (literal_of rest') else None
        | EmptyString => None
        end
      else if is_syntax c then None
      else option_map (String c) (literal_of rest)
  end.

(** A literal matched at the head of [s] under the flag [i], for ASCII
    strings: the characters matched and what follows them.  (Outside
    ASCII the flag follows the upper-case tables of the engine; [split]
    is not used there, see [HighlightedText].) *)
Fixpoint match_here (literal s : string) : option (string * string) :=
  match literal with
  | EmptyString => Some (EmptyString, s)
  | String p ps =>
      match s with
      | EmptyString => None
      | String c cs =>
          if Ascii.eqb (lower_char p) (lower_char c) then
            match match_here ps cs with
            | Some (m, rest) => Some (String c m, rest)
            | None => None
            end
          else None
      end
  end.

(** The loop of [String.prototype.split] on a pattern that is one
    capture group around a literal: [segment] is the text from the end
    of the last match to the position reached, [s] the text from that
    position on.  A match pushes the segment and the capture; a match
    that is empty and ends where the last one ended counts as none. *)
Fixpoint split_loop (fuel : nat) (literal segment s : string) : list string :=
  match fuel with
  | O => [segment +:+ s]
  | S fuel' =>
      match s with
      | EmptyString => [segment]
      | String c rest =>
          match match_here literal s with
          | Some (m, after) =>
              if (m =? "") && (segment =? "")
              then split_loop fuel' literal (String c EmptyString) rest
              else segment :: m :: split_loop fuel' literal "" after
          | None => split_loop fuel' literal (segment +:+ String c EmptyString) rest
          end
      end
  end.

(** [text.split(new RegExp(`(${literal})`, 'gi'))]. *)
Definition split (literal text : string) : list string :=
  match text with
  | EmptyString =>
      match match_here literal "" with
      | Some _ => []
      | None => [""]
      end
  | _ => split_loop (S (2 * String.length text)) literal "" text
  end.

(** [HighlightedText]: the parts rendered, in order, each with whether
    it is wrapped in the highlighting [span].  [None] marks what this
    model does not reach: a pattern that is not a literal, and a text
    or a highlight with a character outside ASCII, where the flag [i]
    of the pattern and [toLowerCase] each follow the case tables of
    the engine (and differ from one another, on the two small sigmas
    for one). *)
Definition HighlightedText {host : Host} (text highlight : string)
  : option (list (bool * string)) :=
  if (highlight =? "") || (trim highlight =? "") then Some [(false, text)]
  else if only_ascii text && only_ascii highlight then
    match literal_of (escape highlight) with
    | Some literal =>
        Some (map (fun part => (toLowerCase part =? toLowerCase highlight, part))
                  (split literal text))
    | None => None
    end
  else None.

End Highlight.

(** The parts of a text, one after the other. *)
Definition spell (parts : list string) : string :=
  fold_right String.append "" parts.

(** [part] has no occurrence of [literal], whatever the case of its
    letters. *)
Definition no_occurrence (literal part : string) : Prop :=
  forall a b, part = a +:+ b -> Highlight.match_here literal b = None.

(** A word looked up and played aloud, a second search started while it
    sounds, and the word played again: "hello" is typed, Enter pressed
    and the fast translation shown; the audio button of the word is
    clicked and the speech request answered with audio; Enter is
    pressed again, which stops the audio; the button is clicked again,
    and the cache answers. *)
Definition playing_hello : list Player.Event :=
  let typed := [Player.InputChanged "hello"] in
  let cap := Player.view (Player.run sample_props typed (Player.start (Some "key"))) in
  typed ++ [Player.EnterPressed;
            Player.SearchTranslated cap (Returned (mkResponse (Some "ni hao") None));
            Player.AudioButtonClicked Running (JsString "hello") "en" "source";
            Player.SpeechAnswered Running "hello" "Fenrir" "source"
                                  (Returned (tts_response silence));
            Player.EnterPressed;
            Player.AudioButtonClicked Running (JsString "hello") "en" "source"].

(** The Enter key pressed twice on "hello": the second search starts
    while the first waits for its translation; the first request is
    answered, then the second one fails.  Each later stage runs with
    the render that its search captured. *)
Definition overlapping_searches (props : Props) (key : option string)
  : list Player.Event :=
  let typed := [Player.InputChanged "hello"] in
  let first := Player.view (Player.run props typed (Player.start key)) in
  let second :=
    Player.view (Player.run props (typed ++ [Player.EnterPressed]) (Player.start key)) in
  typed ++ [Player.EnterPressed; Player.EnterPressed;
            Player.SearchTranslated first (Returned (mkResponse (Some "ni hao") None));
            Player.SearchTranslated second (Threw (BackendError "503"))].

(** The segment scanned so far has no occurrence that starts in it,
    even one that runs on into the text still to scan. *)
Definition segment_clean (literal segment rest : string) : Prop :=
  forall a b, segment = a +:+ b -> b <> "" ->
              Highlight.match_here literal (b +:+ rest) = None.

(* ================================================================== *)
(** * Properties *)
(* ================================================================== *)

(** ** Flashcard store *)

Lemma differ_only_by_case_ascii (a b : string) :
  differ_only_by_case a b = true -> lower_ascii a = lower_ascii b.
Proof.
  revert b. induction a as [|x a IH]; intros [|y b]; simpl; try discriminate; auto.
  intros H. apply andb_true_iff in H as [Hc Hr].
  apply Ascii.eqb_eq in Hc. rewrite Hc. f_equal. auto.
Qed.

Lemma differ_only_by_case_lower {host : Host} (a b : string) :
  differ_only_by_case a b = true -> toLowerCase a = toLowerCase b.
Proof.
  intros Hc. apply differ_only_by_case_ascii in Hc.
  rewrite <- (toLowerCase_fold a), <- (toLowerCase_fold b), Hc. reflexivity.
Qed.

Lemma find_existsb {A} (p : A -> bool) (l : list A) :
  match List.find p l with Some _ => true | None => false end = existsb p l.
Proof.
  induction l as [|x l IH]; simpl; [reflexivity|]. destruct (p x); auto.
Qed.

Lemma existsb_pointwise {A} (p q : A -> bool) (l : list A) :
  (forall x, p x = q x) -> existsb p l = existsb q l.
Proof. intros H. induction l as [|x l IH]; simpl; [reflexivity|]. rewrite H, IH. reflexivity. Qed.

Lemma add_spec {host : Host} (card : Flashcard) (flashcards : list Flashcard) :
  App.add card flashcards =
  if existsb (App.same_source card) flashcards then flashcards else card :: flashcards.
Proof.
  unfold App.add, App.addFlashcard. rewrite <- find_existsb.
  destruct (List.find _ flashcards); reflexivity.
Qed.

Lemma same_source_lower {host : Host} (card card' : Flashcard) :
  toLowerCase (Card.sourceText card) = toLowerCase (Card.sourceText card') ->
  forall f, App.same_source card' f = App.same_source card f.
Proof. unfold App.same_source. intros -> f. reflexivity. Qed.

Lemma same_source_refl {host : Host} (card : Flashcard) : App.same_source card card = true.
Proof. unfold App.same_source. apply String.eqb_refl. Qed.

Lemma add_contains {host : Host} (card : Flashcard) (flashcards : list Flashcard) :
  existsb (App.same_source card) (App.add card flashcards) = true.
Proof.
  rewrite add_spec. destruct (existsb _ flashcards) eqn:E; [exact E|].
  simpl. rewrite same_source_refl. reflexivity.
Qed.

(** C5.  Whatever case tables the engine carries: [add] leaves the
    collection as it is when a stored card has the same source text up
    to case, that is the same text once [toLowerCase] has been applied,
    and puts the card in front otherwise; so two cards whose source
    texts are the same up to case leave one stored card, and in
    particular two cards whose source texts differ only by the case of
    ASCII letters do. *)
Theorem add_dedup_and_order {host : Host} (flashcards : list Flashcard) (card card' : Flashcard) :
  App.add card flashcards =
    (if existsb (fun f => toLowerCase (Card.sourceText f) =? toLowerCase (Card.sourceText card))
                flashcards
     then flashcards else card :: flashcards)
  /\ (toLowerCase (Card.sourceText card) = toLowerCase (Card.sourceText card') ->
      App.add card' (App.add card flashcards) = App.add card flashcards
      /\ App.add card' (App.add card []) = [card])
  /\ (differ_only_by_case (Card.sourceText card) (Card.sourceText card') = true ->
      App.add card' (App.add card flashcards) = App.add card flashcards
      /\ App.add card' (App.add card []) = [card]).
Proof.
  split; [apply add_spec|].
  assert (Hsame : toLowerCase (Card.sourceText card) = toLowerCase (Card.sourceText card') ->
                  App.add card' (App.add card flashcards) = App.add card flashcards
                  /\ App.add card' (App.add card []) = [card]).
  { intros Hcase.
    assert (Hdup : forall fs, App.add card' (App.add card fs) = App.add card fs).
    { intros fs. rewrite (add_spec card' (App.add card fs)).
      rewrite (existsb_pointwise _ _ _ (same_source_lower card card' Hcase)).
      rewrite add_contains. reflexivity. }
    split; [apply Hdup|]. rewrite Hdup. reflexivity. }
  split; [exact Hsame|].
  intros Hcase. apply Hsame, differ_only_by_case_lower, Hcase.
Qed.

Lemma add_dedup_and_order_witness :
  differ_only_by_case "Hello" "hELLO" = true
  /\ App.add (host:=ascii_host) (card_of "hELLO" 2)
       (App.add (host:=ascii_host) (card_of "Hello" 1) [])
     = [card_of "Hello" 1].
Proof.
  split; [reflexivity|].
  apply (add_dedup_and_order (host:=ascii_host) [] (card_of "Hello" 1) (card_of "hELLO" 2)).
  reflexivity.
Defined.

(** ** Speech cache *)

Lemma generateSpeech_hit (backend : Backend) (text voiceName payload : string) (w : World) :
  audioCache w !! cacheKey text voiceName = Some payload ->
  generateSpeech backend text voiceName w = (Returned (Some payload), w).
Proof. intros H. unfold generateSpeech, generateSpeech_call. rewrite H. reflexivity. Qed.

Lemma generateSpeech_miss (backend : Backend) (text voiceName : string) (w : World) :
  audioCache w !! cacheKey text voiceName = None ->
  generateSpeech backend text voiceName w =
  generateSpeech_settle text voiceName (backend (ReqTts text voiceName))
    (send (ReqTts text voiceName) (getClient w)).
Proof. intros H. unfold generateSpeech, generateSpeech_call. rewrite H. reflexivity. Qed.

Lemma audioCache_getClient (w : World) : audioCache (getClient w) = audioCache w.
Proof. unfold getClient. destruct (apiKey w) as [[|c k]|]; reflexivity. Qed.

(** A completed call never touches an entry that is already there. *)
Lemma generateSpeech_keeps (backend : Backend) (text voiceName : string) (w : World)
      (key payload : string) :
  audioCache w !! key = Some payload ->
  audioCache (snd (generateSpeech backend text voiceName w)) !! key = Some payload.
Proof.
  intros Hkey.
  destruct (audioCache w !! cacheKey text voiceName) as [cached|] eqn:Hc.
  - rewrite (generateSpeech_hit backend _ _ cached) by exact Hc. exact Hkey.
  - rewrite generateSpeech_miss by exact Hc. unfold generateSpeech_settle.
    destruct (backend _) as [response|e]; simpl.
    + destruct (audio_of response) as [[|c rest]|]; simpl;
        rewrite ?audioCache_getClient; try exact Hkey.
      rewrite lookup_insert_ne; [exact Hkey|].
      intros Heq. rewrite Heq in Hc. congruence.
    + rewrite audioCache_getClient. exact Hkey.
Qed.

Lemma generateSpeech_all_keeps (calls : list (Backend * (string * string)))
      (w : World) (key payload : string) :
  audioCache w !! key = Some payload ->
  audioCache (generateSpeech_all calls w) !! key = Some payload.
Proof.
  revert w. induction calls as [|[backend [text voiceName]] calls IH]; intros w H; simpl;
    [exact H|].
  apply IH, generateSpeech_keeps, H.
Qed.

(** Once a key is in the cache it stays there, however calls overlap. *)
Lemma speech_run_keeps_key (evs : list SpeechEvent) (w : World) (key : string) :
  is_Some (audioCache w !! key) -> is_Some (audioCache (speech_run evs w) !! key).
Proof.
  revert w. induction evs as [|ev evs IH]; intros w H; simpl; [exact H|].
  apply IH. destruct ev as [text voiceName|text voiceName answer]; simpl.
  - unfold generateSpeech_call. destruct (audioCache w !! cacheKey text voiceName);
      [exact H|]. simpl. rewrite audioCache_getClient. exact H.
  - unfold generateSpeech_settle. destruct answer as [response|e]; [|exact H].
    destruct (audio_of response) as [[|c rest]|]; try exact H.
    simpl. destruct (decide (cacheKey text voiceName = key)) as [->|Hne].
    + rewrite lookup_insert_eq. eauto.
    + rewrite lookup_insert_ne by exact Hne. exact H.
Qed.

Lemma generateSpeech_stores (backend : Backend) (text voiceName payload : string)
      (response : Response) (w : World) :
  audioCache w !! cacheKey text voiceName = None ->
  backend (ReqTts text voiceName) = Returned response ->
  audio_of response = Some payload ->
  payload <> "" ->
  fst (generateSpeech backend text voiceName w) = Returned (Some payload)
  /\ audioCache (snd (generateSpeech backend text voiceName w)) !! cacheKey text voiceName
     = Some payload.
Proof.
  intros Hmiss Hb Ha Hne. rewrite generateSpeech_miss by exact Hmiss.
  unfold generateSpeech_settle. rewrite Hb, Ha.
  destruct payload as [|c rest]; [congruence|]. simpl. split; [reflexivity|].
  apply lookup_insert_eq.
Qed.

(** C3.  A call for a pair whose key is in the cache returns the stored
    payload and leaves the world as it was: no request is sent.  After
    a miss answered with audio, the payload is returned and stored;
    whatever completed speech calls follow, a call for the same pair
    returns that payload without a request, and however later calls
    overlap, a call for the pair finds an entry and sends nothing. *)
Theorem speech_cache_hit_and_fill (backend : Backend) (text voiceName : string) (w : World) :
  (forall payload,
      audioCache w !! cacheKey text voiceName = Some payload ->
      generateSpeech backend text voiceName w = (Returned (Some payload), w))
  /\ (forall response payload,
         audioCache w !! cacheKey text voiceName = None ->
         backend (ReqTts text voiceName) = Returned response ->
         audio_of response = Some payload ->
         payload <> "" ->
         let w1 := snd (generateSpeech backend text voiceName w) in
         fst (generateSpeech backend text voiceName w) = Returned (Some payload)
         /\ network w1 = network w ++ [ReqTts text voiceName]
         /\ audioCache w1 !! cacheKey text voiceName = Some payload
         /\ (forall backend' calls,
                let w2 := generateSpeech_all calls w1 in
                generateSpeech backend' text voiceName w2 = (Returned (Some payload), w2))
         /\ (forall backend' evs,
                let w2 := speech_run evs w1 in
                exists stored,
                  generateSpeech backend' text voiceName w2 = (Returned (Some stored), w2))).
Proof.
  split.
  - intros payload H. apply generateSpeech_hit, H.
  - intros response payload Hmiss Hb Ha Hne.
    destruct (generateSpeech_stores backend text voiceName payload response w
                Hmiss Hb Ha Hne) as [Hret Hstored].
    cbv zeta. split; [exact Hret|]. split; [|split; [exact Hstored|split]].
    + rewrite generateSpeech_miss by exact Hmiss. unfold generateSpeech_settle.
      rewrite Hb, Ha. destruct payload as [|c rest]; [congruence|]. simpl.
      unfold getClient. destruct (apiKey w) as [[|c' k]|]; reflexivity.
    + intros backend' calls. apply generateSpeech_hit, generateSpeech_all_keeps, Hstored.
    + intros backend' evs.
      destruct (speech_run_keeps_key evs _ (cacheKey text voiceName)
                  (ex_intro _ payload Hstored)) as [stored Hs].
      exists stored. apply generateSpeech_hit, Hs.
Qed.

Lemma speech_cache_hit_and_fill_witness :
  let w := initial (Some "key") in
  let w1 := snd (generateSpeech (speaking_backend "AAA=") "hello" "Fenrir" w) in
  let w2 := generateSpeech_all [(speaking_backend "AQI=", ("bye", "Puck"))] w1 in
  generateSpeech failing_backend "hello" "Fenrir" w1 = (Returned (Some "AAA="), w1)
  /\ fst (generateSpeech (speaking_backend "AAA=") "hello" "Fenrir" w) = Returned (Some "AAA=")
  /\ network w1 = [ReqTts "hello" "Fenrir"]
  /\ generateSpeech failing_backend "hello" "Fenrir" w2 = (Returned (Some "AAA="), w2).
Proof.
  cbv zeta.
  pose proof (speech_cache_hit_and_fill (speaking_backend "AAA=") "hello" "Fenrir"
                (initial (Some "key"))) as [_ Hfill].
  pose proof (speech_cache_hit_and_fill failing_backend "hello" "Fenrir"
                (snd (generateSpeech (speaking_backend "AAA=") "hello" "Fenrir"
                        (initial (Some "key"))))) as [Hhit _].
  specialize (Hfill (tts_response "AAA=") "AAA=" eq_refl eq_refl eq_refl
                ltac:(discriminate)).
  cbv zeta in Hfill. destruct Hfill as (Hret & Hnet & Hstored & Hlater & _).
  split; [apply Hhit, Hstored|].
  split; [exact Hret|]. split; [exact Hnet|].
  apply (Hlater failing_backend [(speaking_backend "AQI=", ("bye", "Puck"))]).
Defined.

(** C9.  The pairs ("a-b", "c") and ("a", "b-c") have the same key, so a
    call for the second after a successful call for the first returns
    the first pair's audio and sends nothing. *)
Theorem cache_key_collision (backend : Backend) (response : Response) (payload : string)
        (w : World) :
  audioCache w !! cacheKey "a-b" "c" = None ->
  backend (ReqTts "a-b" "c") = Returned response ->
  audio_of response = Some payload ->
  payload <> "" ->
  let w1 := snd (generateSpeech backend "a-b" "c" w) in
  ("a-b", "c") <> ("a", "b-c")
  /\ cacheKey "a-b" "c" = cacheKey "a" "b-c"
  /\ fst (generateSpeech backend "a-b" "c" w) = Returned (Some payload)
  /\ forall backend', generateSpeech backend' "a" "b-c" w1 = (Returned (Some payload), w1).
Proof.
  intros Hmiss Hb Ha Hne w1.
  destruct (generateSpeech_stores backend "a-b" "c" payload response w Hmiss Hb Ha Hne)
    as [Hret Hstored].
  split; [discriminate|]. split; [reflexivity|]. split; [exact Hret|].
  intros backend'. apply generateSpeech_hit. exact Hstored.
Qed.

Lemma cache_key_collision_witness :
  let w1 := snd (generateSpeech (speaking_backend "AAA=") "a-b" "c" (initial (Some "key"))) in
  generateSpeech (speaking_backend "AQI=") "a" "b-c" w1 = (Returned (Some "AAA="), w1).
Proof.
  apply (cache_key_collision (speaking_backend "AAA=") (tts_response "AAA=") "AAA="
           (initial (Some "key")) eq_refl eq_refl eq_refl ltac:(discriminate)).
Defined.

(** ** PCM decoding *)

Lemma byte_range (b : byte) : (0 <= Z.of_N (Byte.to_N b) <= 255)%Z.
Proof. pose proof (Byte.to_N_bounded b). lia. Qed.

Lemma int16_le_range (lo hi : byte) : (-32768 <= int16_le lo hi <= 32767)%Z.
Proof.
  unfold int16_le. pose proof (byte_range lo). pose proof (byte_range hi).
  destruct (Z.ltb_spec (Z.of_N (Byte.to_N lo) + 256 * Z.of_N (Byte.to_N hi)) 32768); lia.
Qed.

Lemma int16_le_little_endian (lo hi : byte) :
  (int16_le lo hi mod 65536 = Z.of_N (Byte.to_N lo) + 256 * Z.of_N (Byte.to_N hi))%Z.
Proof.
  unfold int16_le. pose proof (byte_range lo). pose proof (byte_range hi).
  destruct (Z.ltb_spec (Z.of_N (Byte.to_N lo) + 256 * Z.of_N (Byte.to_N hi)) 32768).
  - apply Z.mod_small. lia.
  - symmetry. apply (Z.mod_unique _ _ (-1)); lia.
Qed.

Lemma int16_view_length (data : list byte) :
  length (int16_view data) = (length data / 2)%nat.
Proof.
  induction data as [data IH] using (induction_ltof1 _ (@length byte)).
  unfold ltof in IH. destruct data as [|lo [|hi rest]]; try reflexivity.
  cbn [int16_view length]. rewrite IH by (simpl; lia).
  change (S (S (length rest))) with (1 * 2 + length rest)%nat.
  rewrite Nat.div_add_l by lia. lia.
Qed.

Lemma int16_view_lookup (data : list byte) (i : nat) (lo hi : byte) :
  data !! (2 * i)%nat = Some lo -> data !! (2 * i + 1)%nat = Some hi ->
  int16_view data !! i = Some (int16_le lo hi).
Proof.
  revert data. induction i as [|i IH]; intros [|lo' [|hi' rest]]; simpl; try discriminate.
  - intros H1 H2. congruence.
  - replace (i + S (i + 0))%nat with (S (2 * i)) by lia.
    replace (S (2 * i) + 1)%nat with (S (2 * i + 1)) by lia.
    simpl. apply IH.
Qed.

Lemma channel_samples_mono (dataInt16 : list Z) :
  channel_samples dataInt16 1 (length dataInt16) 0 = map (fun s => Qmake s 32768) dataInt16.
Proof.
  unfold channel_samples. apply list_eq. intros i.
  rewrite !list_lookup_fmap.
  destruct (dataInt16 !! i) as [s|] eqn:Hs.
  - pose proof (lookup_lt_Some _ _ _ Hs) as Hlt.
    rewrite (lookup_seq_lt 0 (length dataInt16) i) by exact Hlt. simpl.
    rewrite Nat.mul_1_r, Nat.add_0_r. f_equal. f_equal.
    apply nth_lookup_Some with (d := 0%Z) in Hs. exact Hs.
  - apply lookup_ge_None in Hs. rewrite lookup_seq_ge by exact Hs. reflexivity.
Qed.

Lemma int16_view_lookup_lt (data : list byte) (k : nat) :
  (k < length (int16_view data))%nat ->
  exists lo hi,
    data !! (2 * k)%nat = Some lo /\ data !! (2 * k + 1)%nat = Some hi
    /\ int16_view data !! k = Some (int16_le lo hi).
Proof.
  revert data. induction k as [|k IH]; intros [|lo [|hi rest]]; simpl; try lia.
  - intros _. exists lo, hi. repeat split.
  - intros Hlt. destruct (IH rest ltac:(lia)) as (lo' & hi' & Hlo & Hhi & Hv).
    exists lo', hi'.
    replace (k + S (k + 0))%nat with (S (2 * k)) by lia.
    replace (S (2 * k) + 1)%nat with (S (2 * k + 1)) by lia.
    simpl. auto.
Qed.

(** X24.  The decoder at any sample rate and channel count that every
    browser supports (8000 to 96000 Hz, up to 32 channels): channel
    [c] of the buffer holds, at frame [i], the sample number
    [i * numChannels + c] of the payload over 32768. *)
Lemma decodeAudioData_interleaved (data : list byte) (rate : Z) (numChannels : nat) :
  nominal rate numChannels = true ->
  Nat.even (length data) = true ->
  (0 < numChannels)%nat ->
  (0 < length data / 2 / numChannels)%nat ->
  exists buffer,
    decodeAudioData data rate numChannels = Returned buffer
    /\ sampleRate buffer = rate
    /\ numberOfChannels buffer = numChannels
    /\ frames buffer = (length data / 2 / numChannels)%nat
    /\ length (channelData buffer) = numChannels
    /\ forall c i,
        (c < numChannels)%nat -> (i < frames buffer)%nat ->
        exists samples lo hi q,
          channelData buffer !! c = Some samples
          /\ length samples = frames buffer
          /\ data !! (2 * (i * numChannels + c))%nat = Some lo
          /\ data !! (2 * (i * numChannels + c) + 1)%nat = Some hi
          /\ samples !! i = Some q
          /\ (q == inject_Z (int16_le lo hi) / inject_Z 32768)%Q
          /\ (inject_Z (-1) <= q)%Q /\ (q <= inject_Z 1)%Q.
Proof.
  intros Hnominal Heven Hnc Hframes.
  unfold decodeAudioData, Int16Array. rewrite Heven, int16_view_length, Hnominal.
  destruct (Nat.eqb_spec numChannels 0) as [E|_]; [lia|].
  destruct (Nat.eqb_spec (length data / 2 / numChannels) 0) as [E|_]; [lia|].
  cbn [orb negb]. eexists. split; [reflexivity|].
  cbn [sampleRate numberOfChannels frames channelData].
  split; [reflexivity|]. split; [reflexivity|]. split; [reflexivity|].
  split; [rewrite length_map, length_seq; reflexivity|].
  intros c i Hc Hi.
  set (fc := (length data / 2 / numChannels)%nat) in *.
  assert (Hk : (i * numChannels + c < length (int16_view data))%nat).
  { rewrite int16_view_length.
    pose proof (Nat.Div0.mul_div_le (length data / 2) numChannels) as Hle. fold fc in Hle.
    cbn [frames] in Hi.
    assert (Hmul : (S i * numChannels <= fc * numChannels)%nat)
      by (apply Nat.mul_le_mono_r; lia).
    lia. }
  destruct (int16_view_lookup_lt data _ Hk) as (lo & hi & Hlo & Hhi & Hv).
  exists (channel_samples (int16_view data) numChannels fc c), lo, hi,
    (Qmake (int16_le lo hi) 32768).
  pose proof (int16_le_range lo hi) as Hr.
  split; [|split; [|split; [|split; [|split; [|split; [|split]]]]]].
  - change (map ?f ?l) with (f <$> l). rewrite list_lookup_fmap.
    rewrite lookup_seq_lt by exact Hc. reflexivity.
  - unfold channel_samples. rewrite length_map, length_seq. reflexivity.
  - exact Hlo.
  - exact Hhi.
  - unfold channel_samples. change (map ?f ?l) with (f <$> l). rewrite list_lookup_fmap.
    rewrite lookup_seq_lt by exact Hi. simpl.
    rewrite (nth_lookup_Some _ _ 0%Z _ Hv). reflexivity.
  - unfold Qeq, Qdiv, Qmult, Qinv, inject_Z. simpl. lia.
  - unfold Qle, inject_Z. simpl. lia.
  - unfold Qle, inject_Z. simpl. lia.
Qed.

(** C7.  A payload of whole 16-bit samples decodes to one channel at
    24 kHz holding one sample per two bytes; sample [i] is the signed
    little-endian integer of bytes [2i] and [2i+1] over 32768, and lies
    between -1 and 1. *)
Theorem pcm_decoding (data : list byte) :
  Nat.even (length data) = true ->
  data <> [] ->
  exists samples,
    decodeAudioData data 24000 1 = Returned (mkBuffer 24000 1 (length data / 2) [samples])
    /\ length samples = (length data / 2)%nat
    /\ forall i lo hi,
        data !! (2 * i)%nat = Some lo ->
        data !! (2 * i + 1)%nat = Some hi ->
        exists q,
          samples !! i = Some q
          /\ (q == inject_Z (int16_le lo hi) / inject_Z 32768)%Q
          /\ (int16_le lo hi mod 65536
              = Z.of_N (Byte.to_N lo) + 256 * Z.of_N (Byte.to_N hi))%Z
          /\ (-32768 <= int16_le lo hi <= 32767)%Z
          /\ (inject_Z (-1) <= q)%Q /\ (q <= inject_Z 1)%Q.
Proof.
  intros Heven Hne.
  exists (map (fun s => Qmake s 32768) (int16_view data)).
  assert (Hframes : (length data / 2 <> 0)%nat).
  { destruct data as [|lo [|hi rest]]; [congruence|discriminate|].
    change (length (lo :: hi :: rest)) with (1 * 2 + length rest)%nat.
    rewrite Nat.div_add_l by lia. lia. }
  split; [|split].
  - unfold decodeAudioData, Int16Array. rewrite Heven.
    rewrite Nat.div_1_r, int16_view_length.
    destruct (Nat.eqb_spec (length data / 2) 0) as [E|_]; [contradiction|].
    simpl. rewrite <- (int16_view_length data) at 2.
    rewrite channel_samples_mono. reflexivity.
  - rewrite length_map. apply int16_view_length.
  - intros i lo hi Hlo Hhi. exists (Qmake (int16_le lo hi) 32768).
    pose proof (int16_le_range lo hi) as Hr.
    split; [|split; [|split; [|split; [|split]]]].
    + rewrite list_lookup_fmap, (int16_view_lookup data i lo hi Hlo Hhi). reflexivity.
    + unfold Qeq, Qdiv, Qmult, Qinv, inject_Z. simpl. lia.
    + apply int16_le_little_endian.
    + exact Hr.
    + unfold Qle, inject_Z. simpl. lia.
    + unfold Qle, inject_Z. simpl. lia.
Qed.

Lemma pcm_decoding_witness :
  exists samples,
    decodeAudioData ["000"%byte; "128"%byte; "255"%byte; "127"%byte] 24000 1
    = Returned (mkBuffer 24000 1 2 [samples])
    /\ samples !! 0%nat = Some (Qmake (-32768) 32768)
    /\ samples !! 1%nat = Some (Qmake 32767 32768).
Proof.
  destruct (pcm_decoding ["000"%byte; "128"%byte; "255"%byte; "127"%byte]
              eq_refl ltac:(discriminate)) as (samples & Hdec & _ & _).
  exists samples. split; [exact Hdec|].
  vm_compute in Hdec. injection Hdec as <-. split; reflexivity.
Defined.

(** ** Chat *)

Lemma logged_last (msg : string) (e : option Exn) (w : World) :
  In (msg, e) (console (console_error msg e w)).
Proof. unfold console_error. simpl. apply in_or_app. right. left. reflexivity. Qed.

Lemma network_getClient (w : World) : network (getClient w) = network w.
Proof. unfold getClient. destruct (apiKey w) as [[|c k]|]; reflexivity. Qed.

(** C8.  [handleSendMessage] puts the user's message at the end of the
    transcript and only then sends the chat request, whose history is
    the transcript before that message.  When the chat call fails, the
    transcript stays as it was after that first step, the failure is
    logged and the loading flag is cleared; this holds whatever the
    state has become when the failure arrives. *)
Theorem chat_failure_keeps_transcript (backend : Backend) (st : ExploreState) (w : World)
        (e : Exn) :
  message_rejected st = false ->
  backend (ReqChat (chatInput st) (chat_context st) (apiHistory st)) = Threw e ->
  let s1 := handleSendMessage_start st (st, w) in
  let s2 := handleSendMessage backend (st, w) in
  chatMessages (fst s1) = chatMessages st ++ [Chat.mk Chat.user (chatInput st)]
  /\ isChatLoading (fst s1) = true
  /\ network (snd s1)
     = network w ++ [ReqChat (chatInput st) (chat_context st) (apiHistory st)]
  /\ apiHistory st = map (fun m => (role_name (Chat.role m), Chat.text m)) (chatMessages st)
  /\ chatMessages (fst s2) = chatMessages (fst s1)
  /\ In ("Chat failed", Some e) (console (snd s2))
  /\ isChatLoading (fst s2) = false
  /\ forall sys e',
      let s3 := handleSendMessage_settle (Threw e') sys in
      chatMessages (fst s3) = chatMessages (fst sys)
      /\ In ("Chat failed", Some e') (console (snd s3))
      /\ isChatLoading (fst s3) = false.
Proof.
  intros Hguard Hfail s1 s2. subst s1 s2.
  unfold handleSendMessage. simpl fst. rewrite Hguard.
  unfold handleSendMessage_start. simpl snd.
  unfold chatWithAI_settle, chatWithAI_call. rewrite Hfail. simpl.
  repeat split.
  - rewrite network_getClient. reflexivity.
  - apply in_or_app. right. left. reflexivity.
  - destruct sys as [st' w']. reflexivity.
  - destruct sys as [st' w']. simpl. apply in_or_app. right. left. reflexivity.
  - destruct sys as [st' w']. reflexivity.
Qed.

Lemma chat_failure_keeps_transcript_witness :
  chatMessages (fst (handleSendMessage failing_backend (asking, initial (Some "key"))))
  = [Chat.mk Chat.user "formal?"; Chat.mk Chat.model "No, casual.";
     Chat.mk Chat.user "and at night?"]
  /\ isChatLoading (fst (handleSendMessage failing_backend (asking, initial (Some "key"))))
     = false.
Proof.
  pose proof (chat_failure_keeps_transcript failing_backend asking (initial (Some "key"))
                (BackendError "503") eq_refl eq_refl) as H.
  cbv zeta in H. destruct H as (H1 & _ & _ & _ & H2 & _ & H3 & _).
  split; [rewrite H2; exact H1 | exact H3].
Defined.

(** ** Search *)

Lemma truthy_string (t : string) : truthy (JsString t) = true -> (t =? "") = false.
Proof. simpl. destruct (t =? ""); [discriminate|reflexivity]. Qed.

Lemma translateTextSimple_returns (answer : Completion Response) (w : World) :
  exists t, forall w', fst (translateTextSimple_settle answer w') = Returned t.
Proof. unfold translateTextSimple_settle. destruct answer; eauto. Qed.

Lemma getRichContext_world_free (answer : Completion Response) (w w' : World) :
  fst (getRichContext_settle answer w) = fst (getRichContext_settle answer w').
Proof. unfold getRichContext_settle. destruct answer; reflexivity. Qed.

Lemma handleSearch_stages_eq (backend : Backend) (props : Props) (st : ExploreState) (w : World) :
  search_rejected st = false ->
  exists t1 w1 rich w2,
    (forall w', fst (translateTextSimple backend (inputText st) (label (targetLang props)) w')
                = Returned t1)
    /\ (forall w', fst (getRichContext backend (inputText st) (label (sourceLang props))
                          (label (targetLang props)) w') = rich)
    /\ handleSearch_stages backend props (st, w)
       = let s1 := handleSearch_start props st (st, w) in
         let s2 := handleSearch_translated props st (Returned t1) (fst s1, w1) in
         [s1; s2; handleSearch_enriched props st t1 rich (fst s2, w2)].
Proof.
  intros Hguard. unfold handleSearch_stages. cbn [fst]. rewrite Hguard.
  match goal with
  | |- context [translateTextSimple_settle ?a ?b] =>
      destruct (translateTextSimple_returns a b) as [t1 Ht1];
      pose proof (Ht1 b) as Hb;
      destruct (translateTextSimple_settle a b) as [simple w1] eqn:Hs
  end.
  cbn [fst] in Hb. subst simple.
  match goal with
  | |- context [getRichContext_settle ?a ?b] =>
      pose proof (fun w' => getRichContext_world_free a w' b) as Hfree;
      destruct (getRichContext_settle a b) as [rich w2] eqn:Hr
  end.
  cbn [fst] in Hfree.
  exists t1, w1, rich, w2. split; [|split].
  - intros w'. unfold translateTextSimple. apply Ht1.
  - intros w'. unfold getRichContext. apply Hfree.
  - reflexivity.
Qed.

Lemma result_start (props : Props) (cap : ExploreState) (sys : Sys) :
  result (fst (handleSearch_start props cap sys)) = Some skeleton.
Proof. destruct sys as [st w]. reflexivity. Qed.

Lemma result_translated (props : Props) (cap st : ExploreState) (t : string) (w : World) :
  result (fst (handleSearch_translated props cap (Returned t) (st, w)))
  = Some (merge_translation t (result st)).
Proof. reflexivity. Qed.

Lemma result_enriched (props : Props) (cap st : ExploreState) (t : string)
      (rich : Completion JsValue) (w : World) :
  result (fst (handleSearch_enriched props cap t rich (st, w)))
  = match rich with
    | Returned richData =>
        match full_result t richData with
        | Returned full => Some full
        | Threw _ => result st
        end
    | Threw _ => result st
    end
  /\ isSearching (fst (handleSearch_enriched props cap t rich (st, w))) = false.
Proof.
  unfold handleSearch_enriched. destruct rich as [richData|e]; [|split; reflexivity].
  destruct (full_result t richData) as [full|e]; split; reflexivity.
Qed.

Lemma full_result_translation (t : string) (richData : JsValue) (full : TranslationResult) :
  (t =? "") = false ->
  full_result t richData = Returned full ->
  Result.translation full = JsString t.
Proof.
  intros Ht. unfold full_result. rewrite Ht.
  destruct (js_get richData "definition"), (js_get richData "story"),
    (js_get richData "definitionTranslation"), (js_get richData "storyTranslation");
    try discriminate.
  intros [= <-]. reflexivity.
Qed.

(** One run of [handleSearch] on a non-blank input, with no other
    search started before it ends: the first stage installs the
    placeholder, every stage leaves a result in place, no populated
    field of the result at one stage is unpopulated at the next, and
    when the fast translation came back non-empty and the rich-context
    call threw, the run ends with that translation and with empty
    definition and story. *)
Lemma search_fields_never_revert (backend : Backend) (props : Props)
        (st : ExploreState) (w : World) :
  search_rejected st = false ->
  let stages := handleSearch_stages backend props (st, w) in
  (exists first rest, stages = first :: rest /\ result (fst first) = Some skeleton)
  /\ (forall i a, stages !! i = Some a -> exists r, result (fst a) = Some r)
  /\ (forall i a b ra rb,
         stages !! i = Some a -> stages !! (S i) = Some b ->
         result (fst a) = Some ra -> result (fst b) = Some rb ->
         forall f, populated f ra = true -> populated f rb = true)
  /\ (forall t e,
         t <> "" ->
         (forall w', fst (translateTextSimple backend (inputText st)
                            (label (targetLang props)) w') = Returned t) ->
         (forall w', fst (getRichContext backend (inputText st) (label (sourceLang props))
                            (label (targetLang props)) w') = Threw e) ->
         let final := handleSearch backend props (st, w) in
         result (fst final)
         = Some (Result.mk (JsString "") (JsString "") (JsString t)
                           (JsString "") (JsString ""))
         /\ isSearching (fst final) = false).
Proof.
  intros Hguard stages. subst stages. unfold handleSearch.
  destruct (handleSearch_stages_eq backend props st w Hguard)
    as (t1 & w1 & rich & w2 & Ht1 & Hrich & ->).
  cbv zeta.
  set (s1 := handleSearch_start props st (st, w)).
  assert (Hr1 : result (fst s1) = Some skeleton) by apply result_start.
  destruct s1 as [st1 w1']. cbn [fst] in *.
  pose proof (result_translated props st st1 t1 w1) as Hr2. rewrite Hr1 in Hr2.
  set (s2 := handleSearch_translated props st (Returned t1) (st1, w1)) in *.
  destruct s2 as [st2 w2']. cbn [fst] in *.
  destruct (result_enriched props st st2 t1 rich w2) as [Hr3 Hsearching].
  rewrite Hr2 in Hr3.
  set (s3 := handleSearch_enriched props st t1 rich (st2, w2)) in *.
  split; [eauto|]. split; [|split].
  - intros [|[|[|i]]] a Ha; simpl in Ha; try discriminate; injection Ha as <-.
    + eauto.
    + eauto.
    + rewrite Hr3. destruct rich as [richData|e]; [|eauto].
      destruct (full_result t1 richData); eauto.
  - intros [|[|i]] a b ra rb Ha Hb; simpl in Ha, Hb; try discriminate.
    + injection Ha as <-. cbn [fst]. rewrite Hr1. intros [= <-] _ f. destruct f; discriminate.
    + injection Ha as <-. injection Hb as <-. cbn [fst]. rewrite Hr2, Hr3.
      intros [= <-].
      destruct rich as [richData|e]; [|intros [= <-] f Hf; exact Hf].
      destruct (full_result t1 richData) as [full|e] eqn:Hfull;
        [|intros [= <-] f Hf; exact Hf].
      intros [= <-] f Hf. destruct f; try discriminate Hf.
      unfold populated in *. cbn [field merge_translation skeleton Result.translation] in *.
      rewrite (full_result_translation t1 richData full (truthy_string _ Hf) Hfull).
      exact Hf.
  - intros t e Hne Htr Hfail. cbn [List.last].
    specialize (Htr w). rewrite Ht1 in Htr. injection Htr as ->.
    specialize (Hfail w). rewrite Hrich in Hfail. subst rich.
    fold s3. split; [exact Hr3 | exact Hsearching].
Qed.

Lemma search_fields_never_revert_witness :
  result (fst (handleSearch cut_backend sample_props (typed_hello, initial (Some "key"))))
  = Some (Result.mk (JsString "") (JsString "") (JsString "ni hao")
                    (JsString "") (JsString "")).
Proof.
  pose proof (search_fields_never_revert cut_backend sample_props typed_hello
                (initial (Some "key")) eq_refl) as H.
  cbv zeta in H. destruct H as (_ & _ & _ & H).
  destruct (H "ni hao" (SyntaxError "Unexpected token in JSON")) as [Hres _].
  - discriminate.
  - intros w'. reflexivity.
  - intros w'. reflexivity.
  - exact Hres.
Defined.

(** C1.  The claim fails on the code.  A search that runs alone never
    empties a field, but nothing keeps a second search from starting
    while the first is under way: the search button is disabled as long
    as [isSearching] holds, the Enter key calls [handleSearch] all the
    same.  With the Enter key pressed twice, the translation that the
    first search has put on screen is emptied by a step of the second
    one, the merge of its own (failed, hence empty) fast translation,
    while both searches are still running. *)
Theorem overlapping_search_empties_translation (props : Props) (key : option string) :
  let events := overlapping_searches props key in
  let shown := Player.run props (removelast events) (Player.start key) in
  let final := Player.run props events (Player.start key) in
  result (Player.view shown)
  = Some (Result.mk (JsString "") (JsString "") (JsString "ni hao")
                    (JsString "") (JsString ""))
  /\ isSearching (Player.view shown) = true
  /\ (exists cap e, List.last events Player.EnterPressed
                    = Player.SearchTranslated cap (Threw e))
  /\ result (Player.view final) = Some skeleton
  /\ (exists before after,
         result (Player.view shown) = Some before
         /\ result (Player.view final) = Some after
         /\ populated Translation before = true
         /\ populated Translation after = false)
  /\ (forall p, isSearching (Player.view p) = true ->
                Player.step props Player.SearchClicked p = p).
Proof.
  cbv zeta.
  assert (Hshown : result (Player.view
                             (Player.run props (removelast (overlapping_searches props key))
                                         (Player.start key)))
                   = Some (Result.mk (JsString "") (JsString "") (JsString "ni hao")
                                     (JsString "") (JsString ""))).
  { destruct key as [[|c k]|]; reflexivity. }
  assert (Hfinal : result (Player.view
                             (Player.run props (overlapping_searches props key)
                                         (Player.start key)))
                   = Some skeleton).
  { destruct key as [[|c k]|]; reflexivity. }
  split; [exact Hshown|]. split; [destruct key as [[|c k]|]; reflexivity|].
  split; [eexists _, _; reflexivity|]. split; [exact Hfinal|].
  split.
  { eexists _, _. split; [exact Hshown|]. split; [exact Hfinal|]. split; reflexivity. }
  intros p Hp. cbn [Player.step]. unfold searchButton_disabled. rewrite Hp. reflexivity.
Qed.

Lemma prefetch_speech_sent (text : JsValue) (voiceName : string) (w : World) (req : Request) :
  In req (network w) -> In req (network (prefetch_speech text voiceName w)).
Proof.
  intros H. unfold prefetch_speech, generateSpeech_call.
  destruct (audioCache w !! _); [exact H|].
  cbn. rewrite network_getClient. apply in_or_app. left. exact H.
Qed.

(** ** Rich context without text *)

(** C10, as stated, fails: with a fast translation in place, a
    rich-context answer without text leaves the translation where it
    was; only the other four fields become absent. *)
Lemma textless_rich_context_keeps_translation :
  let final := handleSearch textless_backend sample_props (typed_hello, initial (Some "key")) in
  fst (getRichContext textless_backend "hello" "English" "Chinese (Simplified)"
         (initial (Some "key"))) = Returned (JsObject [])
  /\ result (fst final)
     = Some (Result.mk JsUndefined JsUndefined (JsString "ni hao") JsUndefined JsUndefined)
  /\ result (fst final)
     <> Some (Result.mk JsUndefined JsUndefined JsUndefined JsUndefined JsUndefined).
Proof. cbv zeta. split; [reflexivity|]. split; [reflexivity|]. discriminate. Qed.

Lemma getRichContext_no_text (backend : Backend) (text sourceLang targetLang : string)
      (response : Response) (w : World) :
  backend (ReqRichContext text sourceLang targetLang) = Returned response ->
  no_text response = true ->
  fst (getRichContext backend text sourceLang targetLang w) = Returned (JsObject []).
Proof.
  intros Hb Hn. unfold getRichContext, getRichContext_settle. rewrite Hb.
  unfold no_text in Hn. destruct (Genai.text response) as [[|c t]|]; try discriminate;
    reflexivity.
Qed.

(** C10, amended.  A rich-context answer without text does not throw:
    the call returns the empty object, none of whose five fields
    exists.  [handleSearch] then takes the success path (the
    illustration is requested, nothing is caught) and installs a result
    whose definition, story, definitionTranslation and storyTranslation
    are absent, and whose translation is the fast translation when that
    is non-empty and absent otherwise. *)
Theorem textless_rich_context_installed (backend : Backend) (props : Props)
        (st : ExploreState) (w : World) (response : Response) (t : string) :
  search_rejected st = false ->
  (forall w', fst (translateTextSimple backend (inputText st)
                     (label (targetLang props)) w') = Returned t) ->
  backend (ReqRichContext (inputText st) (label (sourceLang props))
             (label (targetLang props))) = Returned response ->
  no_text response = true ->
  let final := handleSearch backend props (st, w) in
  (forall w', fst (getRichContext backend (inputText st) (label (sourceLang props))
                     (label (targetLang props)) w') = Returned (JsObject []))
  /\ (forall f, exists k, js_get (JsObject []) k = Returned JsUndefined
                          /\ k = match f with
                                 | Definition_ => "definition"
                                 | Story => "story"
                                 | Translation => "translation"
                                 | DefinitionTranslation => "definitionTranslation"
                                 | StoryTranslation => "storyTranslation"
                                 end)
  /\ result (fst final)
     = Some (Result.mk JsUndefined JsUndefined
                       (if t =? "" then JsUndefined else JsString t)
                       JsUndefined JsUndefined)
  /\ isSearching (fst final) = false
  /\ isGeneratingVisual (fst final) = true
  /\ In (ReqImage (inputText st) "" "") (network (snd final)).
Proof.
  intros Hguard Htr Hb Hn final. subst final. unfold handleSearch.
  pose proof (fun w' => getRichContext_no_text backend _ _ _ response w' Hb Hn) as Hobj.
  destruct (handleSearch_stages_eq backend props st w Hguard)
    as (t1 & w1 & rich & w2 & Ht1 & Hrich & ->).
  cbv zeta. cbn [List.last].
  specialize (Htr w). rewrite Ht1 in Htr. injection Htr as ->.
  specialize (Hrich w). rewrite Hobj in Hrich. subst rich.
  split; [exact Hobj|]. split; [intros f; eexists; split; [|reflexivity]; reflexivity|].
  destruct (handleSearch_start props st (st, w)) as [st1 w1'].
  cbn [fst]. unfold handleSearch_translated. cbn [fst].
  unfold handleSearch_enriched.
  replace (full_result t (JsObject []))
    with (Returned (Result.mk JsUndefined JsUndefined
                      (if t =? "" then JsUndefined else JsString t)
                      JsUndefined JsUndefined))
    by (unfold full_result; destruct (t =? ""); reflexivity).
  cbn [handleGenerateVisual_call fst snd Result.definition Result.story].
  split; [reflexivity|]. split; [reflexivity|]. split; [reflexivity|].
  apply prefetch_speech_sent, prefetch_speech_sent.
  unfold generateVisualImage_call, send. cbn. apply in_or_app. right. left. reflexivity.
Qed.

Lemma textless_rich_context_installed_witness :
  result (fst (handleSearch textless_backend sample_props (typed_hello, initial (Some "key"))))
  = Some (Result.mk JsUndefined JsUndefined (JsString "ni hao") JsUndefined JsUndefined).
Proof.
  pose proof (textless_rich_context_installed textless_backend sample_props typed_hello
                (initial (Some "key")) (mkResponse None None) "ni hao" eq_refl
                (fun w' => eq_refl) eq_refl eq_refl) as H.
  cbv zeta in H. destruct H as (_ & _ & H & _). exact H.
Defined.

(** ** Committing a lookup *)

(** C2, as stated, fails: before the rich context has arrived the commit
    button is disabled, so a click on it stores nothing. *)
Lemma commit_before_rich_context_blocked :
  result awaiting_rich_context
  = Some (Result.mk (JsString "") (JsString "") (JsString "ni hao")
                    (JsString "") (JsString ""))
  /\ addButton_disabled awaiting_rich_context = Some true
  /\ Ui.click_add (host:=ascii_host) sample_props 1700000000000 1700000000000
       awaiting_rich_context []
     = (awaiting_rich_context, []).
Proof. repeat split; reflexivity. Qed.

(** C2, amended.  From the start of a search until the rich context
    is installed, and more generally while the definition of the
    current result is empty, the commit button is disabled and a click
    changes nothing.  The handler behind the button builds the card
    with the empty string in place of every empty field, and the store
    then applies its duplicate test and nothing else: a card with an
    empty story (or, were the handler reached, an empty definition) is
    put in front. *)
Theorem commit_gated_on_definition {host : Host} (props : Props) (now now' : Z)
        (flashcards : list Flashcard) :
  (forall backend st0 w i s,
      search_rejected st0 = false ->
      handleSearch_stages backend props (st0, w) !! i = Some s ->
      (i < 2)%nat ->
      addButton_disabled (fst s) = Some true
      /\ Ui.click_add props now now' (fst s) flashcards = (fst s, flashcards))
  /\ (forall st r,
         result st = Some r ->
         (truthy (Result.definition r) = false ->
          addButton_disabled st = Some true
          /\ Ui.click_add props now now' st flashcards = (st, flashcards))
         /\ (truthy (Result.definition r) = true -> hasAddedToFlashcards st = false ->
             Ui.click_add props now now' st flashcards
             = Ui.handleAddToFlashcards props now now' st flashcards)
         /\ exists card,
             newCard props st now now' = Some card
             /\ Ui.handleAddToFlashcards props now now' st flashcards
                = (setHasAddedToFlashcards true st, App.add card flashcards)
             /\ Card.sourceText card = inputText st
             /\ Card.definition card = js_or (Result.definition r) (JsString "")
             /\ Card.story card = js_or (Result.story r) (JsString "")
             /\ (truthy (Result.definition r) = false -> Card.definition card = JsString "")
             /\ (truthy (Result.story r) = false -> Card.story card = JsString "")
             /\ (existsb (App.same_source card) flashcards = false ->
                 App.add card flashcards = card :: flashcards)).
Proof.
  assert (Hgate : forall st r, result st = Some r -> truthy (Result.definition r) = false ->
                  addButton_disabled st = Some true
                  /\ Ui.click_add props now now' st flashcards = (st, flashcards)).
  { intros st r Hr Hd. unfold Ui.click_add, addButton_disabled. rewrite Hr, Hd.
    rewrite orb_true_r. split; reflexivity. }
  split.
  - intros backend st0 w i s Hguard Hs Hi.
    destruct (handleSearch_stages_eq backend props st0 w Hguard)
      as (t1 & w1 & rich & w2 & _ & _ & Heq).
    rewrite Heq in Hs. cbv zeta in Hs.
    set (s1 := handleSearch_start props st0 (st0, w)) in *.
    assert (Hr1 : result (fst s1) = Some skeleton) by apply result_start.
    destruct s1 as [st1 w1']. cbn [fst] in *.
    destruct i as [|[|i]]; [| |lia].
    + change (Some (st1, w1') = Some s) in Hs. injection Hs as <-.
      apply (Hgate _ skeleton); [exact Hr1 | reflexivity].
    + change (Some (handleSearch_translated props st0 (Returned t1) (st1, w1)) = Some s)
        in Hs.
      injection Hs as <-.
      eapply Hgate; [apply result_translated|]. rewrite Hr1. reflexivity.
  - intros st r Hr. split; [exact (Hgate st r Hr)|]. split.
    + intros Hd Hadded. unfold Ui.click_add, addButton_disabled. rewrite Hr, Hd, Hadded.
      reflexivity.
    + unfold Ui.handleAddToFlashcards, newCard. rewrite Hr. eexists. split; [reflexivity|].
      cbn [Card.sourceText Card.definition Card.story].
      repeat split.
      * intros Hd. unfold js_or. rewrite Hd. reflexivity.
      * intros Hs. unfold js_or. rewrite Hs. reflexivity.
      * intros Hnew. rewrite add_spec, Hnew. reflexivity.
Qed.

Lemma commit_gated_on_definition_witness :
  (exists card,
      Ui.click_add (host:=ascii_host) sample_props 1700000000000 1700000000001
        without_story []
      = (setHasAddedToFlashcards true without_story, [card])
      /\ Card.id card = "1700000000000"
      /\ Card.definition card = JsString "a greeting"
      /\ Card.story card = JsString "")
  /\ Ui.click_add (host:=ascii_host) sample_props 1700000000000 1700000000001
       awaiting_rich_context []
     = (awaiting_rich_context, []).
Proof.
  destruct (commit_gated_on_definition (host:=ascii_host) sample_props
              1700000000000 1700000000001 [])
    as [Hstages Hstate].
  split.
  - destruct (Hstate without_story
                (Result.mk (JsString "a greeting") (JsString "") (JsString "ni hao")
                   (JsString "wen hou") (JsString "")) eq_refl)
      as (_ & Hclick & card & Hnew & Hadd & _ & Hdef & _ & _ & Hstory & Hfront).
    exists card. rewrite (Hclick eq_refl eq_refl), Hadd, (Hfront eq_refl).
    split; [reflexivity|]. split; [|split].
    + injection Hnew as <-. reflexivity.
    + exact Hdef.
    + apply Hstory. reflexivity.
  - apply (Hstages textless_backend typed_hello (initial (Some "key")) 1%nat
             (handleSearch_translated sample_props typed_hello (Returned "ni hao")
                (handleSearch_start sample_props typed_hello
                   (typed_hello, initial (Some "key"))))).
    + reflexivity.
    + reflexivity.
    + lia.
Defined.

(** ** Failure policy of the generation client *)

(** C4, as stated, fails: on a failing backend the image call and the
    svg call both throw to their caller; the image call logs first, the
    svg call does not. *)
Lemma illustration_calls_throw :
  let w := initial (Some "key") in
  fst (generateVisualImage failing_backend "hello" JsUndefined JsUndefined w)
  = Threw (BackendError "503")
  /\ fst (generateVisualSvg failing_backend "hello" JsUndefined JsUndefined w)
     = Threw (BackendError "503")
  /\ console (snd (generateVisualSvg failing_backend "hello" JsUndefined JsUndefined w)) = [].
Proof. cbv zeta. repeat split; reflexivity. Qed.

(** C4, amended.  Fast translate and speech never throw, whatever the
    backend does: when it fails, the first logs and returns the empty
    string, the second logs and returns null.  The image call logs a
    failure and throws it again, the svg call lets it through unlogged,
    as do chat and rich context.  It is [handleGenerateVisual] in the
    orchestrator that catches an illustration failure, logs it and
    leaves the visual absent. *)
Theorem failure_policy (backend : Backend) (w : World) :
  (forall text targetLang,
      threw (fst (translateTextSimple backend text targetLang w)) = false
      /\ forall e,
          backend (ReqTranslate text targetLang) = Threw e ->
          fst (translateTextSimple backend text targetLang w) = Returned ""
          /\ In ("Fast translation failed", Some e)
                (console (snd (translateTextSimple backend text targetLang w))))
  /\ (forall text voiceName,
         threw (fst (generateSpeech backend text voiceName w)) = false
         /\ forall e,
             audioCache w !! cacheKey text voiceName = None ->
             backend (ReqTts text voiceName) = Threw e ->
             fst (generateSpeech backend text voiceName w) = Returned None
             /\ In ("TTS failed", Some e)
                   (console (snd (generateSpeech backend text voiceName w))))
  /\ (forall inputText definition story e,
         backend (ReqImage inputText (prompt_arg definition) (prompt_arg story)) = Threw e ->
         fst (generateVisualImage backend inputText definition story w) = Threw e
         /\ In ("Image gen failed", Some e)
               (console (snd (generateVisualImage backend inputText definition story w))))
  /\ (forall inputText definition story e,
         backend (ReqSvg inputText (prompt_arg definition) (prompt_arg story)) = Threw e ->
         fst (generateVisualSvg backend inputText definition story w) = Threw e
         /\ console (snd (generateVisualSvg backend inputText definition story w))
            = console (getClient w))
  /\ (forall message context history e,
         backend (ReqChat message context history) = Threw e ->
         fst (chatWithAI backend message context history w) = Threw e)
  /\ (forall text sourceLang targetLang e,
         backend (ReqRichContext text sourceLang targetLang) = Threw e ->
         fst (getRichContext backend text sourceLang targetLang w) = Threw e)
  /\ (forall st type inputTxt definitionTxt storyTxt e,
         let started := handleGenerateVisual_call type inputTxt definitionTxt storyTxt (st, w) in
         let settled := handleGenerateVisual_settle (Threw e) started in
         visualContent (fst settled) = None
         /\ isGeneratingVisual (fst settled) = false
         /\ In ("Visual gen failed", Some e) (console (snd settled))).
Proof.
  split; [|split; [|split; [|split; [|split; [|split]]]]].
  - intros text targetLang. unfold translateTextSimple. split.
    + destruct (backend _); reflexivity.
    + intros e ->. split; [reflexivity | apply logged_last].
  - intros text voiceName. split.
    + unfold generateSpeech, generateSpeech_call.
      destruct (audioCache w !! _); [reflexivity|].
      unfold generateSpeech_settle. destruct (backend _) as [response|e]; [|reflexivity].
      destruct (audio_of response) as [[|c rest]|]; reflexivity.
    + intros e Hmiss Hfail. rewrite generateSpeech_miss by exact Hmiss.
      rewrite Hfail. split; [reflexivity | apply logged_last].
  - intros inputText definition story e Hfail. unfold generateVisualImage. rewrite Hfail.
    split; [reflexivity | apply logged_last].
  - intros inputText definition story e Hfail. unfold generateVisualSvg. rewrite Hfail.
    split; reflexivity.
  - intros message context history e Hfail. unfold chatWithAI. rewrite Hfail. reflexivity.
  - intros text sourceLang targetLang e Hfail. unfold getRichContext. rewrite Hfail.
    reflexivity.
  - intros st type inputTxt definitionTxt storyTxt e. cbv zeta.
    destruct type; (split; [reflexivity|]; split; [reflexivity|]);
      cbn; apply in_or_app; right; left; reflexivity.
Qed.

Lemma failure_policy_witness :
  fst (translateTextSimple failing_backend "hello" "Chinese (Simplified)" (initial (Some "key")))
  = Returned ""
  /\ fst (generateSpeech failing_backend "hello" "Fenrir" (initial (Some "key")))
     = Returned None
  /\ fst (generateVisualImage failing_backend "hello" JsUndefined JsUndefined
            (initial (Some "key"))) = Threw (BackendError "503")
  /\ fst (generateVisualSvg failing_backend "hello" JsUndefined JsUndefined
            (initial (Some "key"))) = Threw (BackendError "503").
Proof.
  pose proof (failure_policy failing_backend (initial (Some "key")))
    as (Htr & Hsp & Him & Hsvg & _).
  destruct (Htr "hello" "Chinese (Simplified)") as [_ Htr'].
  destruct (Hsp "hello" "Fenrir") as [_ Hsp'].
  split; [exact (proj1 (Htr' (BackendError "503") eq_refl))|].
  split; [exact (proj1 (Hsp' (BackendError "503") eq_refl eq_refl))|].
  split; [exact (proj1 (Him "hello" JsUndefined JsUndefined (BackendError "503") eq_refl))|].
  exact (proj1 (Hsvg "hello" JsUndefined JsUndefined (BackendError "503") eq_refl)).
Defined.

(** ** Playback *)

Lemma playback_inv_initial (key : option string) : playback_inv (initial key).
Proof.
  constructor; simpl; try (intros; contradiction); try constructor.
  - intros i nd H. rewrite lookup_nil in H. discriminate.
  - intros i nd H. rewrite lookup_nil in H. discriminate.
Qed.

Lemma playbacks_set_state (l : list SourceNode) (n : nat) (nd : SourceNode) (s : NodeState) :
  l !! n = Some nd ->
  map node_playback (<[n := set_node_state s nd]> l) = map node_playback l.
Proof.
  intros H. change (map node_playback) with (fmap (M:=list) node_playback).
  rewrite list_fmap_insert. apply list_insert_id.
  rewrite list_lookup_fmap, H. reflexivity.
Qed.

Lemma lookup_set_state (l : list SourceNode) (n i : nat) (nd x : SourceNode) (s : NodeState) :
  l !! n = Some nd ->
  <[n := set_node_state s nd]> l !! i = Some x ->
  (i = n /\ x = set_node_state s nd) \/ (i <> n /\ l !! i = Some x).
Proof.
  intros Hn Hi. destruct (Nat.eq_dec i n) as [->|Hne].
  - left. split; [reflexivity|].
    rewrite list_lookup_insert_eq in Hi by (eapply lookup_lt_Some; eauto). congruence.
  - right. split; [exact Hne|]. rewrite list_lookup_insert_ne in Hi by auto. exact Hi.
Qed.

Lemma stop_node_inv (n : nat) (w : World) : playback_inv w -> playback_inv (stop_node n w).
Proof.
  intros [H1 H2 H3 H4 H5 H6]. unfold stop_node.
  destruct (nodes w !! n) as [nd|] eqn:Hn; [|constructor; assumption].
  destruct (node_state nd) eqn:Hs; try (constructor; assumption).
  constructor; simpl; auto.
  - intros i x Hi. destruct (lookup_set_state _ _ _ _ _ _ Hn Hi) as [[-> ->]|[_ Hold]];
      simpl; eauto.
  - rewrite playbacks_set_state by exact Hn. exact H4.
  - rewrite playbacks_set_state by exact Hn. exact H5.
  - intros i x Hi Hx. destruct (lookup_set_state _ _ _ _ _ _ Hn Hi) as [[-> ->]|[_ Hold]].
    + simpl. apply (H6 n nd Hn). rewrite Hs. discriminate.
    + eauto.
Qed.

Lemma stopAudio_inv (w : World) : playback_inv w -> playback_inv (stopAudio w).
Proof.
  intros H. unfold stopAudio. destruct (currentSource w) as [n|]; [|exact H].
  destruct (stop_node_inv n w H) as [H1 H2 H3 H4 H5 H6]. constructor; assumption.
Qed.

Lemma playAudio_catch_inv (p : nat) (onEnded : bool) (e : Exn) (w : World) :
  playback_inv w -> (p < plays w)%nat ->
  ~ In p (onEndedCalls w) -> ~ In p (map node_playback (nodes w)) ->
  (forall entry, In entry (awaitingResume w) -> fst entry <> p) ->
  playback_inv (playAudio_catch p onEnded e w).
Proof.
  intros [H1 H2 H3 H4 H5 H6] Hp Hfresh Hnode Hwait. unfold playAudio_catch.
  destruct onEnded; [|constructor; assumption].
  constructor; simpl; auto.
  - intros q Hq. apply in_app_or in Hq as [Hq|[<-|[]]]; auto.
  - apply NoDup_app; repeat split; auto.
    + intros x Hx Hx'. apply list_elem_of_In in Hx, Hx'. destruct Hx' as [<-|[]]. auto.
    + apply NoDup_singleton.
  - intros entry Hentry. destruct (H5 entry Hentry) as (Ha & Hb & Hc).
    repeat split; auto. intros Hin. apply in_app_or in Hin as [Hin|[Heq|[]]]; auto.
    apply (Hwait entry Hentry). auto.
  - intros i nd Hi Hs Hin. apply in_app_or in Hin as [Hin|[Heq|[]]].
    + exact (H6 i nd Hi Hs Hin).
    + apply Hnode. rewrite Heq. apply in_map. apply list_elem_of_In.
      eapply list_elem_of_lookup_2; eauto.
Qed.

Lemma playAudio_setup_inv (p : nat) (base64Audio : string) (onEnded : bool) (w : World) :
  playback_inv w -> (p < plays w)%nat ->
  ~ In p (onEndedCalls w) -> ~ In p (map node_playback (nodes w)) ->
  (forall entry, In entry (awaitingResume w) -> fst entry <> p) ->
  playback_inv (playAudio_setup p base64Audio onEnded w).
Proof.
  intros Hinv Hp Hfresh Hnode Hwait. unfold playAudio_setup.
  destruct (decodeBase64 base64Audio) as [bytes|e];
    [|apply playAudio_catch_inv; assumption].
  destruct (decodeAudioData bytes 24000 1) as [audioBuffer|e];
    [|apply playAudio_catch_inv; assumption].
  destruct Hinv as [H1 H2 H3 H4 H5 H6]. constructor; simpl; auto.
  - intros i nd Hi. apply lookup_app_Some in Hi as [Hi|[_ Hi]]; eauto.
    apply list_lookup_singleton_Some in Hi as [_ <-]. exact Hp.
  - rewrite map_app. simpl. apply NoDup_app; repeat split; auto.
    + intros x Hx Hx'. apply list_elem_of_In in Hx, Hx'. destruct Hx' as [<-|[]]. auto.
    + apply NoDup_singleton.
  - intros entry Hentry. destruct (H5 entry Hentry) as (Ha & Hb & Hc).
    repeat split; auto. rewrite map_app. intros Hin.
    apply in_app_or in Hin as [Hin|[Heq|[]]]; auto.
    apply (Hwait entry Hentry). auto.
  - intros i nd Hi Hs. apply lookup_app_Some in Hi as [Hi|[_ Hi]]; eauto.
    apply list_lookup_singleton_Some in Hi as [_ <-]. exact Hfresh.
Qed.

Lemma plays_stopAudio (w : World) : plays (stopAudio w) = plays w.
Proof.
  unfold stopAudio, stop_node. destruct (currentSource w) as [n|]; [|reflexivity].
  destruct (nodes w !! n) as [nd|]; [|reflexivity]. destruct (node_state nd); reflexivity.
Qed.

(** Counting one more call keeps the invariant and makes the old count
    a fresh call number. *)
Lemma count_call_inv (w : World) :
  playback_inv w ->
  let w1 := stopAudio (with_plays (S (plays w)) w) in
  playback_inv w1
  /\ (plays w < plays w1)%nat
  /\ ~ In (plays w) (onEndedCalls w1)
  /\ ~ In (plays w) (map node_playback (nodes w1))
  /\ forall entry, In entry (awaitingResume w1) -> fst entry <> plays w.
Proof.
  intros [H1 H2 H3 H4 H5 H6]. cbv zeta.
  assert (Hinv : playback_inv (with_plays (S (plays w)) w)).
  { constructor; simpl; auto.
    - intros p Hp. specialize (H1 p Hp). lia.
    - intros i nd Hi. specialize (H3 i nd Hi). lia.
    - intros entry He. destruct (H5 entry He) as (Ha & Hb & Hc). repeat split; auto. }
  pose proof (stopAudio_inv _ Hinv) as Hinv'.
  split; [exact Hinv'|].
  assert (Hcalls : onEndedCalls (stopAudio (with_plays (S (plays w)) w)) = onEndedCalls w).
  { unfold stopAudio, stop_node. simpl. destruct (currentSource w) as [n|]; [|reflexivity].
    simpl. destruct (nodes w !! n) as [nd|]; [|reflexivity].
    destruct (node_state nd); reflexivity. }
  assert (Hwaiting : awaitingResume (stopAudio (with_plays (S (plays w)) w))
                     = awaitingResume w).
  { unfold stopAudio, stop_node. simpl. destruct (currentSource w) as [n|]; [|reflexivity].
    simpl. destruct (nodes w !! n) as [nd|]; [|reflexivity].
    destruct (node_state nd); reflexivity. }
  assert (Hnodes : map node_playback (nodes (stopAudio (with_plays (S (plays w)) w)))
                   = map node_playback (nodes w)).
  { unfold stopAudio, stop_node. simpl. destruct (currentSource w) as [n|]; [|reflexivity].
    simpl. destruct (nodes w !! n) as [nd|] eqn:Hn; [|reflexivity].
    destruct (node_state nd); try reflexivity. simpl.
    apply playbacks_set_state. exact Hn. }
  rewrite plays_stopAudio, Hcalls, Hwaiting, Hnodes. simpl.
  split; [lia|]. split; [|split].
  - intros Hin. specialize (H1 _ Hin). lia.
  - intros Hin. apply in_map_iff in Hin as (nd & Heq & Hin).
    apply list_elem_of_In, list_elem_of_lookup in Hin as [i Hi].
    specialize (H3 i nd Hi). lia.
  - intros entry He Heq. destruct (H5 entry He) as (Ha & _). lia.
Qed.

Lemma playAudio_inv (fresh : ContextState) (base64Audio : string) (onEnded : bool)
      (w : World) :
  playback_inv w -> playback_inv (playAudio fresh base64Audio onEnded w).
Proof.
  intros Hinv. unfold playAudio.
  destruct (count_call_inv w Hinv) as (Hinv1 & Hlt & Hfresh & Hnode & Hwait).
  set (w1 := stopAudio (with_plays (S (plays w)) w)) in *.
  assert (Hctx : forall st w2, getAudioContext fresh w1 = (st, w2) ->
                 playback_inv w2 /\ plays w2 = plays w1
                 /\ onEndedCalls w2 = onEndedCalls w1 /\ nodes w2 = nodes w1
                 /\ awaitingResume w2 = awaitingResume w1).
  { intros st w2. unfold getAudioContext. destruct (audioContext w1).
    - intros [= <- <-]. auto.
    - intros [= <- <-]. split; [|auto]. destruct Hinv1. constructor; assumption. }
  destruct (getAudioContext fresh w1) as [st w2].
  destruct (Hctx st w2 eq_refl) as (Hinv2 & Hp & Hc & Hn & Ha).
  destruct st.
  - apply playAudio_setup_inv; rewrite ?Hp, ?Hc, ?Hn, ?Ha; assumption.
  - destruct Hinv2 as [H1 H2 H3 H4 H5 H6]. constructor; simpl; auto.
    intros entry He. apply in_app_or in He as [He|[<-|[]]]; auto.
    simpl. rewrite Hp, Hc, Hn. auto.
Qed.

Lemma playAudio_resumed_inv (p : nat) (outcome : Completion unit) (w : World) :
  playback_inv w -> playback_inv (playAudio_resumed p outcome w).
Proof.
  intros Hinv. unfold playAudio_resumed.
  destruct (List.find (is_playback p) (awaitingResume w)) as [[p' [base64Audio onEnded]]|] eqn:Hfind;
    [|exact Hinv].
  apply find_some in Hfind as [Hin Hp]. unfold is_playback in Hp. simpl in Hp.
  apply Nat.eqb_eq in Hp. subst p'.
  destruct Hinv as [H1 H2 H3 H4 H5 H6].
  destruct (H5 _ Hin) as (Hlt & Hfresh & Hnode). simpl in Hlt, Hfresh, Hnode.
  set (w1 := with_awaitingResume _ w).
  assert (Hinv1 : playback_inv w1).
  { constructor; simpl; auto. intros entry He. apply filter_In in He as [He _]. auto. }
  assert (Hwait : forall entry, In entry (awaitingResume w1) -> fst entry <> p).
  { intros entry He. simpl in He. apply filter_In in He as [_ He].
    unfold is_playback in He. apply negb_true_iff, Nat.eqb_neq in He. exact He. }
  destruct outcome as [[]|e].
  - apply playAudio_setup_inv; auto.
    destruct Hinv1 as [G1 G2 G3 G4 G5 G6]. constructor; assumption.
  - apply playAudio_catch_inv; auto.
Qed.

Lemma ended_inv (n : nat) (w : World) : playback_inv w -> playback_inv (ended n w).
Proof.
  intros Hinv. unfold ended.
  destruct (nodes w !! n) as [nd|] eqn:Hn; [|exact Hinv].
  destruct (node_state nd) eqn:Hs; try exact Hinv.
  destruct Hinv as [H1 H2 H3 H4 H5 H6].
  assert (Hfresh : ~ In (node_playback nd) (onEndedCalls w)).
  { apply (H6 n nd Hn). rewrite Hs. discriminate. }
  assert (Hother : forall i x, i <> n -> nodes w !! i = Some x ->
                   node_playback x <> node_playback nd).
  { intros i x Hne Hi Heq. apply Hne.
    apply (NoDup_lookup (map node_playback (nodes w)) i n (node_playback nd)); auto.
    - change (map node_playback) with (fmap (M:=list) node_playback).
      rewrite list_lookup_fmap, Hi, <- Heq. reflexivity.
    - change (map node_playback) with (fmap (M:=list) node_playback).
      rewrite list_lookup_fmap, Hn. reflexivity. }
  assert (Hbase : playback_inv
            (with_currentSource None
               (with_nodes (<[n:=set_node_state Ended nd]> (nodes w)) w))).
  { constructor; simpl; auto.
    - intros i x Hi.
      destruct (lookup_set_state _ _ _ _ _ _ Hn Hi) as [[-> ->]|[_ Hold]]; simpl; eauto.
    - rewrite playbacks_set_state by exact Hn. exact H4.
    - rewrite playbacks_set_state by exact Hn. exact H5.
    - intros i x Hi Hx.
      destruct (lookup_set_state _ _ _ _ _ _ Hn Hi) as [[-> ->]|[_ Hold]];
        [simpl in Hx; congruence | eauto]. }
  destruct (node_onEnded nd); [|exact Hbase].
  destruct Hbase as [G1 G2 G3 G4 G5 G6]. simpl in *.
  constructor; simpl; auto.
  - intros q Hq. apply in_app_or in Hq as [Hq|[<-|[]]]; eauto.
  - apply NoDup_app; repeat split; auto.
    + intros x Hx Hx'. apply list_elem_of_In in Hx, Hx'. destruct Hx' as [<-|[]]. auto.
    + apply NoDup_singleton.
  - intros entry He. destruct (G5 entry He) as (Ha & Hb & Hc).
    repeat split; auto. intros Hin. apply in_app_or in Hin as [Hin|[Heq|[]]]; auto.
    apply Hc. rewrite playbacks_set_state by exact Hn.
    rewrite <- Heq. apply in_map, list_elem_of_In. eapply list_elem_of_lookup_2; eauto.
  - intros i x Hi Hx Hin.
    destruct (lookup_set_state _ _ _ _ _ _ Hn Hi) as [[-> ->]|[Hne Hold]].
    + simpl in Hx. congruence.
    + apply in_app_or in Hin as [Hin|[Heq|[]]].
      * exact (H6 i x Hold Hx Hin).
      * exact (Hother i x Hne Hold (eq_sym Heq)).
Qed.

Lemma step_inv (ev : Event) (w : World) : playback_inv w -> playback_inv (step ev w).
Proof.
  intros H. destruct ev as [fresh base64Audio onEnded|p [|]| |n|n]; simpl.
  - apply playAudio_inv, H.
  - apply playAudio_resumed_inv, H.
  - apply playAudio_resumed_inv, H.
  - apply stopAudio_inv, H.
  - apply stop_node_inv, H.
  - apply ended_inv, H.
Qed.

Lemma run_inv (evs : list Event) (w : World) : playback_inv w -> playback_inv (run evs w).
Proof.
  revert w. induction evs as [|ev evs IH]; intros w H; simpl; [exact H|].
  apply IH, step_inv, H.
Qed.

(** Along any course of events from a fresh page, no call of
    [playAudio] has its [onEnded] run twice. *)
Lemma onEnded_at_most_once (evs : list Event) (key : option string) (playback : nat) :
  (onEnded_count playback (run evs (initial key)) <= 1)%nat.
Proof.
  unfold onEnded_count. apply NoDup_count_occ, NoDup_ListNoDup.
  apply (inv_calls_nodup _ (run_inv evs _ (playback_inv_initial key))).
Qed.

(** X23.  What [playAudio] does do: the node held in [currentSource] is
    silent once the call has been made. *)
Lemma playAudio_stops_current (fresh : ContextState) (base64Audio : string) (onEnded : bool)
      (w : World) (n : nat) (nd : SourceNode) :
  currentSource w = Some n ->
  nodes w !! n = Some nd ->
  exists nd', nodes (playAudio fresh base64Audio onEnded w) !! n = Some nd'
              /\ is_playing nd' = false.
Proof.
  intros Hcur Hn.
  assert (Hstop : exists nd', nodes (stopAudio (with_plays (S (plays w)) w)) !! n = Some nd'
                              /\ is_playing nd' = false).
  { unfold stopAudio, stop_node. simpl. rewrite Hcur. simpl. rewrite Hn.
    destruct (node_state nd) eqn:Hs; simpl.
    - eexists. split; [apply list_lookup_insert_eq; eapply lookup_lt_Some; eauto|].
      reflexivity.
    - exists nd. split; [exact Hn|]. unfold is_playing. rewrite Hs. reflexivity.
    - exists nd. split; [exact Hn|]. unfold is_playing. rewrite Hs. reflexivity. }
  destruct Hstop as (nd' & Hn' & Hsilent). exists nd'. split; [|exact Hsilent].
  unfold playAudio. set (w1 := stopAudio _) in *.
  assert (Hctx : nodes (snd (getAudioContext fresh w1)) = nodes w1).
  { unfold getAudioContext. destruct (audioContext w1); reflexivity. }
  destruct (getAudioContext fresh w1) as [st w2]. simpl in Hctx.
  destruct st; [|simpl; rewrite Hctx; exact Hn'].
  unfold playAudio_setup, playAudio_catch.
  destruct (decodeBase64 base64Audio) as [bytes|e].
  - destruct (decodeAudioData bytes 24000 1) as [audioBuffer|e].
    + simpl. rewrite Hctx. apply lookup_app_l_Some. exact Hn'.
    + destruct onEnded; simpl; rewrite Hctx; exact Hn'.
  - destruct onEnded; simpl; rewrite Hctx; exact Hn'.
Qed.

(** C6.  The code breaks exclusivity.  The [ended] handler of a
    superseded node clears [currentSource] although it holds the node of
    the next playback by then; the playback after that finds nothing to
    stop, and two nodes sound together, one of them out of reach of
    [stopAudio].  Two calls parked at [ctx.resume()] also start one node
    each.  In both runs every [onEnded] has run at most once. *)
Theorem stale_ended_handler_breaks_exclusivity :
  let w := run stale_ended (initial (Some "key")) in
  let w' := run overlapping_setups (initial (Some "key")) in
  map node_state (nodes w) = [Ended; Playing; Playing]
  /\ active w = 2%nat
  /\ currentSource w = Some 2%nat
  /\ map node_state (nodes (stopAudio w)) = [Ended; Playing; EndQueued]
  /\ onEndedCalls w = [0%nat]
  /\ map node_state (nodes w') = [Playing; Playing]
  /\ active w' = 2%nat
  /\ onEndedCalls w' = [].
Proof. cbv zeta. repeat split; reflexivity. Qed.

(* ================================================================== *)
(** * Further properties *)
(* ================================================================== *)

(** ** Audio subsystem *)

Lemma playing_after_insert (l : list SourceNode) (n : nat) (x : SourceNode) :
  is_playing x = false ->
  (length (List.filter is_playing (<[n := x]> l)) <= length (List.filter is_playing l))%nat.
Proof.
  intros Hx. revert n. induction l as [|y l IH]; intros [|n]; simpl; try lia.
  - rewrite Hx. destruct (is_playing y); simpl; lia.
  - specialize (IH n). destruct (is_playing y); simpl; lia.
Qed.

Lemma stopAudio_leaves (w : World) :
  currentSource (stopAudio w) = None
  /\ onEndedCalls (stopAudio w) = onEndedCalls w
  /\ console (stopAudio w) = console w.
Proof.
  unfold stopAudio, stop_node.
  destruct (currentSource w) as [n|] eqn:Hcur.
  - destruct (nodes w !! n) as [nd|]; [destruct (node_state nd)|]; repeat split.
  - rewrite Hcur. repeat split.
Qed.

(** X1.  [stopAudio] is idempotent and a no-op when nothing is current;
    it leaves no current source, calls no [onEnded] itself, logs
    nothing, and never makes more nodes sound. *)
Theorem stopAudio_idempotent (w : World) :
  stopAudio (stopAudio w) = stopAudio w
  /\ (currentSource w = None -> stopAudio w = w)
  /\ currentSource (stopAudio w) = None
  /\ onEndedCalls (stopAudio w) = onEndedCalls w
  /\ console (stopAudio w) = console w
  /\ (active (stopAudio w) <= active w)%nat.
Proof.
  unfold stopAudio, stop_node, active.
  destruct (currentSource w) as [n|] eqn:Hcur.
  - destruct (nodes w !! n) as [nd|] eqn:Hn; [destruct (node_state nd) eqn:Hs|];
      simpl; repeat split; try discriminate; try lia.
    apply playing_after_insert. reflexivity.
  - rewrite Hcur. repeat split; lia.
Qed.

Lemma stopAudio_idempotent_witness :
  stopAudio (initial (Some "key")) = initial (Some "key").
Proof.
  destruct (stopAudio_idempotent (initial (Some "key"))) as (_ & H & _).
  apply H. reflexivity.
Defined.

Lemma stopAudio_fields (w : World) :
  plays (stopAudio w) = plays w
  /\ awaitingResume (stopAudio w) = awaitingResume w
  /\ audioContext (stopAudio w) = audioContext w
  /\ length (nodes (stopAudio w)) = length (nodes w).
Proof.
  unfold stopAudio, stop_node. destruct (currentSource w) as [n|]; [|auto].
  destruct (nodes w !! n) as [nd|]; [destruct (node_state nd)|]; simpl; auto.
  repeat split. apply length_insert.
Qed.

(** X2.  On a running audio context [playAudio] does one of two things
    and never both: it appends one sounding node, makes it the current
    source and neither logs nor calls [onEnded]; or it creates no node,
    logs the failure and calls [onEnded] once.  Which one is decided
    by the payload alone. *)
Theorem playAudio_starts_or_reports (base64Audio : string) (w : World) :
  audioContext w <> Some Suspended ->
  let before := stopAudio (with_plays (S (plays w)) w) in
  let after := playAudio Running base64Audio true w in
  (exists bytes buffer,
      decodeBase64 base64Audio = Returned bytes
      /\ decodeAudioData bytes 24000 1 = Returned buffer
      /\ nodes after = nodes before ++ [mkNode Playing buffer (plays w) true]
      /\ currentSource after = Some (length (nodes w))
      /\ onEndedCalls after = onEndedCalls w
      /\ console after = console w)
  \/ (exists e,
         (decodeBase64 base64Audio = Threw e
          \/ exists bytes, decodeBase64 base64Audio = Returned bytes
                           /\ decodeAudioData bytes 24000 1 = Threw e)
         /\ nodes after = nodes before
         /\ currentSource after = None
         /\ onEndedCalls after = onEndedCalls w ++ [plays w]
         /\ console after = console w ++ [("Audio playback failed", Some e)]).
Proof.
  intros Hctx before after. subst before after. unfold playAudio.
  set (w1 := stopAudio (with_plays (S (plays w)) w)).
  destruct (stopAudio_leaves (with_plays (S (plays w)) w)) as (Hcur & Hcalls & Hcons).
  destruct (stopAudio_fields (with_plays (S (plays w)) w)) as (_ & _ & Hac & Hlen).
  fold w1 in Hcur, Hcalls, Hcons, Hac, Hlen. simpl in Hcalls, Hcons, Hac, Hlen.
  assert (Hget : exists w2, getAudioContext Running w1 = (Running, w2)
                 /\ nodes w2 = nodes w1 /\ currentSource w2 = None
                 /\ onEndedCalls w2 = onEndedCalls w /\ console w2 = console w).
  { unfold getAudioContext. rewrite Hac. destruct (audioContext w) as [[|]|].
    - exists w1. auto.
    - congruence.
    - eexists. split; [reflexivity|]. simpl. auto. }
  destruct Hget as (w2 & -> & Hn2 & Hc2 & He2 & Hl2).
  unfold playAudio_setup, playAudio_catch.
  destruct (decodeBase64 base64Audio) as [bytes|e] eqn:Hb.
  - destruct (decodeAudioData bytes 24000 1) as [buffer|e] eqn:Hd.
    + left. exists bytes, buffer. simpl. rewrite Hn2, Hlen, He2, Hl2. repeat split; auto.
    + right. exists e. simpl. rewrite Hn2, Hc2, He2, Hl2. repeat split; eauto.
  - right. exists e. simpl. rewrite Hn2, Hc2, He2, Hl2. repeat split; auto.
Qed.

Lemma playAudio_starts_or_reports_witness :
  onEndedCalls (playAudio Running "AA==" true (initial (Some "key"))) = [0%nat]
  /\ currentSource (playAudio Running "AAA=" true (initial (Some "key"))) = Some 0%nat.
Proof.
  split.
  - destruct (playAudio_starts_or_reports "AA==" (initial (Some "key")) ltac:(discriminate))
      as [(bytes & buffer & Hb & Hd & _)|(e & _ & _ & _ & H & _)].
    + vm_compute in Hb. injection Hb as <-. vm_compute in Hd. discriminate Hd.
    + exact H.
  - destruct (playAudio_starts_or_reports "AAA=" (initial (Some "key")) ltac:(discriminate))
      as [(bytes & buffer & _ & _ & _ & H & _)|(e & [Hb|(bytes & Hb & Hd)] & _)].
    + exact H.
    + vm_compute in Hb. discriminate Hb.
    + vm_compute in Hb. injection Hb as <-. vm_compute in Hd. discriminate Hd.
Defined.

(** X3.  At a sample rate and a channel count that every browser
    supports (8000 to 96000 Hz, at most 32 channels), [decodeAudioData]
    returns a buffer exactly for a payload of an even number of bytes
    holding at least one frame for at least one channel; an odd payload
    is a [RangeError], an empty one (or no channel) a
    [NotSupportedError]. *)
Theorem decodeAudioData_succeeds_iff (data : list byte) (rate : Z) (numChannels : nat) :
  nominal rate numChannels = true ->
  (threw (decodeAudioData data rate numChannels) = false
   <-> Nat.even (length data) = true
       /\ (0 < numChannels)%nat /\ (numChannels <= length data / 2)%nat)
  /\ (Nat.even (length data) = false ->
      exists msg, decodeAudioData data rate numChannels = Threw (RangeError msg))
  /\ (Nat.even (length data) = true ->
      (numChannels = 0%nat \/ (length data / 2 < numChannels)%nat) ->
      decodeAudioData data rate numChannels = Threw (DOMException "NotSupportedError")).
Proof.
  intros Hnominal. unfold decodeAudioData, Int16Array. rewrite Hnominal.
  destruct (Nat.even (length data)) eqn:Heven.
  - rewrite int16_view_length.
    destruct (Nat.eqb_spec numChannels 0) as [Hz|Hz]; cbn [orb negb threw].
    + subst. split; [|split].
      * split; [discriminate | lia].
      * discriminate.
      * reflexivity.
    + destruct (Nat.eqb_spec (length data / 2 / numChannels) 0) as [Hf|Hf];
        cbn [orb negb threw].
      * assert (length data / 2 < numChannels)%nat
          by (apply Nat.div_small_iff in Hf; lia).
        split; [|split].
        -- split; [discriminate | lia].
        -- discriminate.
        -- reflexivity.
      * assert (numChannels <= length data / 2)%nat.
        { destruct (Nat.le_gt_cases numChannels (length data / 2)) as [H|H]; [exact H|].
          apply Nat.div_small in H. contradiction. }
        split; [|split].
        -- split; [intros _; repeat split; lia | reflexivity].
        -- discriminate.
        -- intros _ [H'|H']; lia.
  - cbn [threw]. split; [|split].
    + split; [discriminate|]. intros [H _]. discriminate.
    + eauto.
    + discriminate.
Qed.

Lemma decodeAudioData_succeeds_iff_witness :
  (exists msg, decodeAudioData ["001"%byte] 24000 1 = Threw (RangeError msg))
  /\ decodeAudioData [] 24000 1 = Threw (DOMException "NotSupportedError").
Proof.
  split.
  - apply (decodeAudioData_succeeds_iff ["001"%byte] 24000 1); reflexivity.
  - apply (decodeAudioData_succeeds_iff [] 24000 1); [reflexivity|reflexivity|].
    right. simpl. lia.
Defined.

(** Outside these values the buffer is refused, whatever the payload. *)
Lemma decodeAudioData_refuses_unsupported (data : list byte) (rate : Z) (numChannels : nat) :
  nominal rate numChannels = false ->
  threw (decodeAudioData data rate numChannels) = true.
Proof.
  intros Hnom. unfold decodeAudioData.
  destruct (Int16Array data) as [dataInt16|e]; [|reflexivity].
  rewrite Hnom. cbn [negb]. rewrite !orb_true_r. reflexivity.
Qed.

(** ** Speech cache *)

(** X4.  A speech call that misses and gets no audio (the backend
    fails, or answers without audio data) returns null and leaves the
    cache as it was, so the next call for the pair asks the backend
    again. *)
Theorem failed_speech_not_cached (backend : Backend) (text voiceName : string) (w : World) :
  audioCache w !! cacheKey text voiceName = None ->
  (forall response, backend (ReqTts text voiceName) = Returned response ->
                    audio_of response = None \/ audio_of response = Some "") ->
  let after := snd (generateSpeech backend text voiceName w) in
  fst (generateSpeech backend text voiceName w) = Returned None
  /\ audioCache after = audioCache w
  /\ forall backend',
      network (snd (generateSpeech backend' text voiceName after))
      = network w ++ [ReqTts text voiceName; ReqTts text voiceName].
Proof.
  intros Hmiss Hempty after. subst after.
  assert (Hcall : generateSpeech backend text voiceName w
                  = generateSpeech_settle text voiceName (backend (ReqTts text voiceName))
                      (send (ReqTts text voiceName) (getClient w)))
    by (apply generateSpeech_miss, Hmiss).
  rewrite Hcall. unfold generateSpeech_settle.
  assert (Hnet : forall b v,
             audioCache v = audioCache w ->
             network (snd (generateSpeech b text voiceName v))
             = network v ++ [ReqTts text voiceName]).
  { intros b v Hv. rewrite generateSpeech_miss by (rewrite Hv; exact Hmiss).
    unfold generateSpeech_settle. destruct (b _) as [r|e]; [destruct (audio_of r) as [[|c s]|]|];
      simpl; rewrite network_getClient; reflexivity. }
  destruct (backend (ReqTts text voiceName)) as [response|e] eqn:Hb.
  - destruct (Hempty response eq_refl) as [-> | ->]; simpl;
      (split; [reflexivity|]; split; [apply audioCache_getClient|]);
      intros backend'; rewrite Hnet by (simpl; apply audioCache_getClient);
      simpl; rewrite network_getClient, <- app_assoc; reflexivity.
  - simpl. split; [reflexivity|]. split; [apply audioCache_getClient|].
    intros backend'. rewrite Hnet by (simpl; apply audioCache_getClient).
    simpl. rewrite network_getClient, <- app_assoc. reflexivity.
Qed.

Lemma failed_speech_not_cached_witness :
  network (snd (generateSpeech (speaking_backend "AAA=") "hello" "Fenrir"
                  (snd (generateSpeech failing_backend "hello" "Fenrir"
                          (initial (Some "key"))))))
  = [ReqTts "hello" "Fenrir"; ReqTts "hello" "Fenrir"].
Proof.
  destruct (failed_speech_not_cached failing_backend "hello" "Fenrir" (initial (Some "key"))
              eq_refl ltac:(intros response H; discriminate H)) as (_ & _ & H).
  apply (H (speaking_backend "AAA=")).
Defined.

(** X5.  Every payload in the cache is a non-empty string, however
    speech calls start and settle; so a hit never returns an empty
    payload. *)
Theorem cached_audio_never_empty (evs : list SpeechEvent) (key : option string)
        (backend : Backend) (text voiceName payload : string) :
  let w := speech_run evs (initial key) in
  (forall k v, audioCache w !! k = Some v -> v <> "")
  /\ (audioCache w !! cacheKey text voiceName = Some payload ->
      generateSpeech backend text voiceName w = (Returned (Some payload), w)
      /\ payload <> "").
Proof.
  cbv zeta.
  assert (Hinv : forall evs w,
             (forall k v, audioCache w !! k = Some v -> v <> "") ->
             forall k v, audioCache (speech_run evs w) !! k = Some v -> v <> "").
  { clear. intros evs. induction evs as [|ev evs IH]; intros w Hw; simpl; [exact Hw|].
    apply IH. destruct ev as [text voiceName|text voiceName answer]; simpl.
    - unfold generateSpeech_call. destruct (audioCache w !! cacheKey text voiceName);
        [exact Hw|]. simpl. rewrite audioCache_getClient. exact Hw.
    - unfold generateSpeech_settle. destruct answer as [response|e]; [|exact Hw].
      destruct (audio_of response) as [[|c rest]|]; try exact Hw.
      simpl. intros k v. destruct (decide (cacheKey text voiceName = k)) as [->|Hne].
      + rewrite lookup_insert_eq. intros [= <-]. discriminate.
      + rewrite lookup_insert_ne by exact Hne. apply Hw. }
  assert (Hall : forall k v, audioCache (speech_run evs (initial key)) !! k = Some v -> v <> "").
  { apply Hinv. intros k v. simpl. rewrite lookup_empty. discriminate. }
  split; [exact Hall|]. intros Hhit. split; [apply generateSpeech_hit, Hhit|].
  exact (Hall _ _ Hhit).
Qed.

Lemma cached_audio_never_empty_witness :
  let evs := [SpeechCalled "hello" "Fenrir";
              SpeechSettled "hello" "Fenrir" (Returned (tts_response "AAA="))] in
  generateSpeech failing_backend "hello" "Fenrir" (speech_run evs (initial (Some "key")))
  = (Returned (Some "AAA="), speech_run evs (initial (Some "key"))).
Proof.
  cbv zeta.
  destruct (cached_audio_never_empty
              [SpeechCalled "hello" "Fenrir";
               SpeechSettled "hello" "Fenrir" (Returned (tts_response "AAA="))]
              (Some "key") failing_backend "hello" "Fenrir" "AAA=") as [_ H].
  destruct (H eq_refl) as [Hhit _]. exact Hhit.
Defined.

Lemma hyphen_free_app (a b : string) : hyphen_free (a +:+ String "-" b) = false.
Proof.
  induction a as [|c a IH]; simpl; [reflexivity|].
  rewrite IH. apply andb_false_r.
Qed.

Lemma cacheKey_injective (text1 text2 voice1 voice2 : string) :
  hyphen_free voice1 = true -> hyphen_free voice2 = true ->
  cacheKey text1 voice1 = cacheKey text2 voice2 ->
  text1 = text2 /\ voice1 = voice2.
Proof.
  unfold cacheKey. change ("-" +:+ voice1) with (String "-" voice1).
  change ("-" +:+ voice2) with (String "-" voice2).
  intros H1 H2. revert text2.
  induction text1 as [|c t1 IH]; intros [|d t2]; simpl; intros Heq.
  - injection Heq as ->. auto.
  - injection Heq as _ ->. rewrite hyphen_free_app in H1. discriminate.
  - injection Heq as _ <-. rewrite hyphen_free_app in H2. discriminate.
  - injection Heq as -> Heq. destruct (IH t2 Heq) as [Ht Hv]. subst. auto.
Qed.

Lemma getVoiceForLang_hyphen_free (props : Props) (cap : ExploreState) (langCode : string) :
  In (sourceLang props) LANGUAGES -> In (targetLang props) LANGUAGES ->
  hyphen_free (getVoiceForLang props cap langCode) = true.
Proof.
  intros Hs Ht. unfold getVoiceForLang. destruct props as [src tgt]. simpl in *.
  assert (Hlang : forall l, In l LANGUAGES ->
                  hyphen_free (defaultVoice l) = true
                  /\ match altVoice l with
                     | Some alt => hyphen_free alt = true
                     | None => True
                     end).
  { intros l Hl. simpl in Hl.
    repeat (destruct Hl as [<-|Hl]; [split; [reflexivity | exact I || reflexivity]|]).
    destruct Hl. }
  destruct (Hlang src Hs) as [Hsd Hsa]. destruct (Hlang tgt Ht) as [Htd Hta].
  destruct (code src =? langCode).
  - destruct (langCode =? "en"); [|exact Hsd].
    destruct (useAltVoice cap); [|exact Hsd].
    destruct (altVoice src) as [[|c rest]|]; auto.
  - destruct (code tgt =? langCode); [|reflexivity].
    destruct (langCode =? "en"); [|exact Htd].
    destruct (useAltVoice cap); [|exact Htd].
    destruct (altVoice tgt) as [[|c rest]|]; auto.
Qed.

(** X6.  With the languages of [LANGUAGES], whose voices (like the
    fallback voice) hold no hyphen, two speech requests of the
    orchestrator share a cache key only when they have the same text
    and the same voice. *)
Theorem voice_cache_keys_do_not_collide (props : Props) (cap cap' : ExploreState)
        (langCode langCode' text text' : string) :
  In (sourceLang props) LANGUAGES ->
  In (targetLang props) LANGUAGES ->
  cacheKey text (getVoiceForLang props cap langCode)
  = cacheKey text' (getVoiceForLang props cap' langCode') ->
  text = text'
  /\ getVoiceForLang props cap langCode = getVoiceForLang props cap' langCode'.
Proof.
  intros Hs Ht. apply cacheKey_injective; apply getVoiceForLang_hyphen_free; assumption.
Qed.

Lemma voice_cache_keys_do_not_collide_witness :
  "a-b" = "a-b"
  /\ getVoiceForLang sample_props typed_hello "en"
     = getVoiceForLang sample_props typed_hello "en".
Proof.
  apply (voice_cache_keys_do_not_collide sample_props typed_hello typed_hello
           "en" "en" "a-b" "a-b"); [left; reflexivity | right; left; reflexivity | reflexivity].
Defined.


(** ** Vector illustration *)

Lemma prefix_empty (s : string) : String.prefix "" s = true.
Proof. destruct s; reflexivity. Qed.

Lemma prefix_cons (x y : ascii) (p a : string) :
  String.prefix (String x p) (String y a)
  = if ascii_dec x y then String.prefix p a else false.
Proof. reflexivity. Qed.

Lemma prefix_tick (c : ascii) (rest : string) :
  String.prefix "`" (String c rest) = if ascii_dec "`" c then true else false.
Proof. rewrite prefix_cons, prefix_empty. reflexivity. Qed.

Lemma prefix_pair (c : ascii) (rest : string) :
  String.prefix "``" (String c rest)
  = if ascii_dec "`" c then String.prefix "`" rest else false.
Proof. apply prefix_cons. Qed.

Lemma prefix_fence (c : ascii) (rest : string) :
  String.prefix "```" (String c rest)
  = if ascii_dec "`" c then String.prefix "``" rest else false.
Proof. apply prefix_cons. Qed.

Lemma remove_fence_keeps_no_tick (fuel : nat) (s : string) :
  String.prefix "`" s = false ->
  String.prefix "`" (remove_all_aux fuel "```" s) = false.
Proof.
  intros H. destruct fuel as [|fuel]; [exact H|]. destruct s as [|c rest]; [exact H|].
  cbn [remove_all_aux]. rewrite prefix_fence. rewrite prefix_tick in H.
  destruct (ascii_dec "`" c); [discriminate|]. rewrite prefix_tick.
  destruct (ascii_dec "`" c); [contradiction|reflexivity].
Qed.

Lemma remove_fence_keeps_no_pair (fuel : nat) (s : string) :
  String.prefix "``" s = false ->
  String.prefix "``" (remove_all_aux fuel "```" s) = false.
Proof.
  intros H. destruct fuel as [|fuel]; [exact H|]. destruct s as [|c rest]; [exact H|].
  cbn [remove_all_aux]. rewrite prefix_fence. rewrite prefix_pair in H.
  destruct (ascii_dec "`" c) as [Hc|Hc].
  - assert (Hrest : String.prefix "``" rest = false).
    { destruct rest as [|d rest']; [reflexivity|]. rewrite prefix_pair.
      rewrite prefix_tick in H. destruct (ascii_dec "`" d); [discriminate|reflexivity]. }
    rewrite Hrest. rewrite prefix_pair.
    destruct (ascii_dec "`" c); [|reflexivity].
    apply remove_fence_keeps_no_tick. exact H.
  - rewrite prefix_pair. destruct (ascii_dec "`" c); [contradiction|reflexivity].
Qed.

Lemma length_str_drop (n : nat) (s : string) :
  (String.length (str_drop n s) <= String.length s)%nat.
Proof.
  revert s. induction n as [|n IH]; intros [|c s]; simpl; try lia.
  specialize (IH s). lia.
Qed.

Lemma remove_fence_no_fence (fuel : nat) (s : string) :
  (String.length s <= fuel)%nat ->
  includes "```" (remove_all_aux fuel "```" s) = false.
Proof.
  revert s. induction fuel as [|fuel IH]; intros s Hlen.
  - destruct s; [reflexivity | simpl in Hlen; lia].
  - destruct s as [|c rest]; [reflexivity|].
    cbn [remove_all_aux]. destruct (String.prefix "```" (String c rest)) eqn:Hp.
    + apply IH. pose proof (length_str_drop (String.length "```") (String c rest)) as Hd.
      assert (Hstrict : (String.length (str_drop (String.length "```") (String c rest))
                         < String.length (String c rest))%nat).
      { change (str_drop (String.length "```") (String c rest)) with (str_drop 2 rest).
        pose proof (length_str_drop 2 rest). cbn [String.length]. lia. }
      lia.
    + cbn [includes]. rewrite IH by (simpl in Hlen; lia). rewrite orb_false_r.
      rewrite prefix_fence in Hp |- *.
      destruct (ascii_dec "`" c); [|reflexivity].
      apply remove_fence_keeps_no_pair. exact Hp.
Qed.

Lemma prefix_app_l (p a b : string) :
  String.prefix p a = true -> String.prefix p (a +:+ b) = true.
Proof.
  revert a. induction p as [|x p IH]; intros a; [intros _; apply prefix_empty|].
  destruct a as [|y a]; [discriminate|].
  change (String y a +:+ b) with (String y (a +:+ b)). rewrite !prefix_cons.
  destruct (ascii_dec x y); [apply IH | discriminate].
Qed.

Lemma includes_app_l (p a b : string) :
  includes p a = true -> includes p (a +:+ b) = true.
Proof.
  induction a as [|c a IH]; cbn [includes].
  - rewrite orb_false_r. intros H. destruct p; [|discriminate].
    change ("" +:+ b) with b. destruct b; cbn [includes]; rewrite prefix_empty; reflexivity.
  - intros H. change (String c a +:+ b) with (String c (a +:+ b)). cbn [includes].
    apply orb_true_iff in H as [H|H].
    + apply (prefix_app_l p (String c a) b) in H.
      change (String c a +:+ b) with (String c (a +:+ b)) in H. rewrite H. reflexivity.
    + rewrite (IH H). apply orb_true_r.
Qed.

Lemma includes_str_drop (p : string) (n : nat) (s : string) :
  includes p (str_drop n s) = true -> includes p s = true.
Proof.
  revert s. induction n as [|n IH]; intros s; [auto|].
  destruct s as [|c s]; [auto|]. cbn [str_drop]. intros H.
  cbn [includes]. rewrite (IH s H). apply orb_true_r.
Qed.

Lemma includes_trimStart (p s : string) :
  includes p (trimStart s) = true -> includes p s = true.
Proof.
  unfold trimStart. generalize (String.length s) as fuel. intros fuel. revert s.
  induction fuel as [|fuel IH]; intros s; [auto|]. cbn [trimStart_aux].
  destruct (space_width s) as [|n]; [auto|]. intros H.
  apply IH in H. apply (includes_str_drop p (S n) s H).
Qed.

Lemma trimEnd_is_prefix (s : string) : exists t, s = trimEnd s +:+ t.
Proof.
  induction s as [|c s [t IH]]; [exists ""; reflexivity|].
  cbn [trimEnd]. destruct (trimStart (String c s)) as [|d r].
  - exists (String c s). reflexivity.
  - exists t. change (String c (trimEnd s) +:+ t) with (String c (trimEnd s +:+ t)).
    f_equal. exact IH.
Qed.

Lemma includes_trim (p s : string) : includes p (trim s) = true -> includes p s = true.
Proof.
  unfold trim. intros H. apply includes_trimStart.
  destruct (trimEnd_is_prefix (trimStart s)) as [t Ht]. rewrite Ht.
  apply includes_app_l, H.
Qed.

(** X7.  Whatever text the backend sends, the markup that
    [generateVisualSvg] returns contains an [<svg] tag and no code
    fence, and the call returns null exactly when the cleaned text has
    no such tag. *)
Theorem svg_markup_is_clean (response : Response) (w : World) :
  let raw := match Genai.text response with Some t => t | None => "" end in
  match fst (generateVisualSvg_settle (Returned response) w) with
  | Returned (Some svg) =>
      svg = clean_svg raw /\ includes "<svg" svg = true /\ includes "```" svg = false
  | Returned None => includes "<svg" (clean_svg raw) = false
  | Threw _ => False
  end.
Proof.
  cbv zeta. unfold generateVisualSvg_settle. cbn [fst].
  destruct (includes "<svg" (clean_svg _)) eqn:Hsvg; [|reflexivity].
  split; [reflexivity|]. split; [exact Hsvg|].
  destruct (includes "```" (clean_svg _)) eqn:Hfence; [|reflexivity].
  unfold clean_svg in Hfence. apply includes_trim in Hfence.
  unfold remove_all in Hfence at 1. rewrite remove_fence_no_fence in Hfence by lia.
  discriminate.
Qed.

(** ** Flashcard store *)

Lemma existsb_same_source_false {host : Host} (card : Flashcard) (flashcards : list Flashcard) :
  existsb (App.same_source card) flashcards = false ->
  ~ In (toLowerCase (Card.sourceText card)) (source_keys flashcards).
Proof.
  induction flashcards as [|f fs IH]; simpl; [auto|].
  intros H. apply orb_false_iff in H as [Hf Hfs]. intros [Heq|Hin].
  - unfold App.same_source in Hf. rewrite Heq, String.eqb_refl in Hf. discriminate.
  - exact (IH Hfs Hin).
Qed.

Lemma source_keys_filter {host : Host} (p : Flashcard -> bool)
      (flashcards : list Flashcard) (k : string) :
  In k (source_keys (List.filter p flashcards)) -> In k (source_keys flashcards).
Proof.
  induction flashcards as [|f fs IH]; simpl; [auto|].
  destruct (p f); simpl; intros H; [destruct H as [H|H]|]; auto.
Qed.

Lemma store_step_keeps_distinct {host : Host} (op : StoreOp) (flashcards : list Flashcard) :
  List.NoDup (source_keys flashcards) ->
  List.NoDup (source_keys (store_step op flashcards)).
Proof.
  intros Hnd. destruct op as [card|id0]; simpl.
  - rewrite add_spec. destruct (existsb _ flashcards) eqn:E; [exact Hnd|].
    simpl. constructor; [apply existsb_same_source_false, E | exact Hnd].
  - unfold App.remove, App.removeFlashcard.
    induction flashcards as [|f fs IH]; simpl; [constructor|].
    inversion Hnd as [|k ks Hk Hks]; subst.
    destruct (negb (Card.id f =? id0)); simpl; [|auto].
    constructor; [|auto]. intros Hin. apply Hk. eapply source_keys_filter, Hin.
Qed.

(** X8.  Starting from an empty collection, whatever cards are added
    and removed in whatever order, no two stored cards have the same
    source text up to case. *)
Theorem store_never_holds_duplicates {host : Host} (ops : list StoreOp) :
  List.NoDup (source_keys (store_run ops [])).
Proof.
  unfold store_run.
  assert (H : forall fs, List.NoDup (source_keys fs) ->
                         List.NoDup (source_keys (fold_left (fun acc op => store_step op acc)
                                                            ops fs))).
  { induction ops as [|op ops IH]; intros fs Hfs; simpl; [exact Hfs|].
    apply IH, store_step_keeps_distinct, Hfs. }
  apply H. constructor.
Qed.

Lemma remove_keeps_absent (id0 : string) (flashcards : list Flashcard) :
  (forall c, In c flashcards -> Card.id c <> id0) ->
  App.remove id0 flashcards = flashcards.
Proof.
  unfold App.remove, App.removeFlashcard.
  induction flashcards as [|f fs IH]; intros H; simpl; [reflexivity|].
  assert (Hf : (Card.id f =? id0) = false)
    by (apply String.eqb_neq, H; left; reflexivity).
  rewrite Hf. simpl. f_equal. apply IH. intros c Hc. apply H. right. exact Hc.
Qed.

(** X9.  [removeFlashcard] keeps exactly the cards with another id, in
    their order; removing an id that no card has changes nothing, and
    removing twice is removing once. *)
Theorem remove_by_id (id0 : string) (flashcards : list Flashcard) :
  (forall c, In c (App.remove id0 flashcards) <-> In c flashcards /\ Card.id c <> id0)
  /\ sublist (App.remove id0 flashcards) flashcards
  /\ App.remove id0 (App.remove id0 flashcards) = App.remove id0 flashcards
  /\ ((forall c, In c flashcards -> Card.id c <> id0) ->
      App.remove id0 flashcards = flashcards).
Proof.
  assert (Hin : forall c, In c (App.remove id0 flashcards)
                          <-> In c flashcards /\ Card.id c <> id0).
  { intros c. unfold App.remove, App.removeFlashcard. rewrite filter_In.
    rewrite negb_true_iff, String.eqb_neq. reflexivity. }
  split; [exact Hin|]. split; [|split].
  - clear Hin. unfold App.remove, App.removeFlashcard.
    induction flashcards as [|f fs IH]; simpl; [constructor|].
    destruct (negb (Card.id f =? id0)); [apply sublist_skip | apply sublist_cons]; exact IH.
  - apply remove_keeps_absent. intros c Hc. apply Hin in Hc. tauto.
  - apply remove_keeps_absent.
Qed.

Lemma remove_by_id_witness :
  App.remove "3" [card_of "Hello" 1; card_of "bye" 2] = [card_of "Hello" 1; card_of "bye" 2].
Proof.
  apply (remove_by_id "3" [card_of "Hello" 1; card_of "bye" 2]).
  intros c [<-|[<-|[]]]; discriminate.
Defined.

(** X10.  Adding a card and then removing its id gives back the
    collection, provided no stored card had that id; this holds
    whether the addition went through or was turned down as a
    duplicate. *)
Theorem add_then_remove {host : Host} (card : Flashcard) (flashcards : list Flashcard) :
  (forall c, In c flashcards -> Card.id c <> Card.id card) ->
  App.remove (Card.id card) (App.add card flashcards) = flashcards.
Proof.
  intros Hfresh. rewrite add_spec. destruct (existsb _ flashcards).
  - apply remove_keeps_absent, Hfresh.
  - unfold App.remove, App.removeFlashcard. simpl. rewrite String.eqb_refl. simpl.
    apply (remove_keeps_absent (Card.id card) flashcards Hfresh).
Qed.

Lemma add_then_remove_witness :
  App.remove "2" (App.add (host:=ascii_host) (card_of "bye" 2) [card_of "Hello" 1])
  = [card_of "Hello" 1].
Proof.
  apply (add_then_remove (card_of "bye" 2) [card_of "Hello" 1]).
  intros c [<-|[]]. discriminate.
Defined.

(** ** Search, further *)

Lemma stopAudio_service (w : World) :
  audioCache (stopAudio w) = audioCache w /\ network (stopAudio w) = network w.
Proof.
  unfold stopAudio, stop_node. destruct (currentSource w) as [n|]; [|auto].
  destruct (nodes w !! n) as [nd|]; [destruct (node_state nd)|]; auto.
Qed.

Lemma prefetch_speech_effect (text : JsValue) (voiceName : string) (w : World) :
  audioCache (prefetch_speech text voiceName w) = audioCache w
  /\ network (prefetch_speech text voiceName w)
     = network w ++ speech_request (audioCache w) (toString text) voiceName
  /\ currentSource (prefetch_speech text voiceName w) = currentSource w
  /\ nodes (prefetch_speech text voiceName w) = nodes w.
Proof.
  unfold prefetch_speech, generateSpeech_call, speech_request.
  destruct (audioCache w !! _); simpl.
  - rewrite app_nil_r. auto.
  - rewrite audioCache_getClient, network_getClient.
    unfold getClient. destruct (apiKey w) as [[|c k]|]; auto.
Qed.

Lemma getClient_audio (w : World) :
  currentSource (getClient w) = currentSource w /\ nodes (getClient w) = nodes w.
Proof. unfold getClient. destruct (apiKey w) as [[|c k]|]; auto. Qed.

Lemma translate_settle_service (answer : Completion Response) (w : World) :
  audioCache (snd (translateTextSimple_settle answer w)) = audioCache w
  /\ network (snd (translateTextSimple_settle answer w)) = network w
  /\ currentSource (snd (translateTextSimple_settle answer w)) = currentSource w
  /\ nodes (snd (translateTextSimple_settle answer w)) = nodes w.
Proof. destruct answer; auto. Qed.

Lemma rich_settle_service (answer : Completion Response) (w : World) :
  audioCache (snd (getRichContext_settle answer w)) = audioCache w
  /\ network (snd (getRichContext_settle answer w)) = network w
  /\ currentSource (snd (getRichContext_settle answer w)) = currentSource w
  /\ nodes (snd (getRichContext_settle answer w)) = nodes w.
Proof. destruct answer; auto. Qed.

(** The stages of one search, each named. *)
Lemma handleSearch_stages_unfold (backend : Backend) (props : Props) (st : ExploreState)
      (w : World) :
  search_rejected st = false ->
  exists t1,
    let s1 := handleSearch_start props st (st, w) in
    let r1 := translateTextSimple_settle
                (backend (ReqTranslate (inputText st) (label (targetLang props)))) (snd s1) in
    let s2 := handleSearch_translated props st (Returned t1) (fst s1, snd r1) in
    let r2 := getRichContext_settle
                (backend (ReqRichContext (inputText st) (label (sourceLang props))
                            (label (targetLang props)))) (snd s2) in
    fst r1 = Returned t1
    /\ handleSearch_stages backend props (st, w)
       = [s1; s2; handleSearch_enriched props st t1 (fst r2) (fst s2, snd r2)].
Proof.
  intros Hguard. unfold handleSearch_stages. cbn [fst]. rewrite Hguard.
  match goal with
  | |- context [translateTextSimple_settle ?a ?b] =>
      destruct (translateTextSimple_returns a b) as [t1 Ht1];
      pose proof (Ht1 b) as Hb;
      destruct (translateTextSimple_settle a b) as [simple w1] eqn:Hs
  end.
  cbn [fst] in Hb. subst simple. exists t1. cbv zeta. cbn [fst snd].
  split; [reflexivity|].
  destruct (getRichContext_settle _ _) as [rich w2]. reflexivity.
Qed.

Lemma handleSearch_final (backend : Backend) (props : Props) (st : ExploreState) (w : World) :
  search_rejected st = false ->
  exists t1 rich,
    let s1 := handleSearch_start props st (st, w) in
    let r1 := translateTextSimple_settle
                (backend (ReqTranslate (inputText st) (label (targetLang props)))) (snd s1) in
    let s2 := handleSearch_translated props st (Returned t1) (fst s1, snd r1) in
    let r2 := getRichContext_settle
                (backend (ReqRichContext (inputText st) (label (sourceLang props))
                            (label (targetLang props)))) (snd s2) in
    fst r1 = Returned t1 /\ fst r2 = rich
    /\ handleSearch backend props (st, w)
       = handleSearch_enriched props st t1 rich (fst s2, snd r2).
Proof.
  intros Hguard. destruct (handleSearch_stages_unfold backend props st w Hguard) as [t1 H].
  cbv zeta in H. destruct H as [Ht Hstages].
  exists t1. eexists. cbv zeta. split; [exact Ht|]. split; [reflexivity|].
  unfold handleSearch. rewrite Hstages. reflexivity.
Qed.

Lemma speech_arrive_effect (arrivals : list Arrival) (w : World) :
  audioCache (speech_arrive arrivals w) = cache_after arrivals (audioCache w)
  /\ network (speech_arrive arrivals w) = network w
  /\ currentSource (speech_arrive arrivals w) = currentSource w.
Proof.
  revert w. induction arrivals as [|[[text voiceName] answer] arrivals IH]; intros w;
    [auto|].
  unfold speech_arrive, cache_after. cbn [fold_left fst snd].
  fold (speech_arrive arrivals (snd (generateSpeech_settle text voiceName answer w))).
  destruct (IH (snd (generateSpeech_settle text voiceName answer w))) as (-> & -> & ->).
  unfold cache_after, generateSpeech_settle.
  destruct answer as [response|e]; [|auto].
  destruct (audio_of response) as [[|c rest]|]; auto.
Qed.



(** What each stage of a search does to the cache, to the requests
    sent and to the current audio source. *)
Lemma handleSearch_start_effect (props : Props) (cap st : ExploreState) (w : World) :
  let s := handleSearch_start props cap (st, w) in
  audioCache (snd s) = audioCache w
  /\ network (snd s) = network w ++ [ReqTranslate (inputText cap) (label (targetLang props))]
  /\ currentSource (snd s) = None.
Proof.
  cbv zeta. unfold handleSearch_start, translateTextSimple_call. cbn [snd].
  destruct (stopAudio_service w) as [Hc Hn].
  unfold send. cbn. rewrite audioCache_getClient, network_getClient, Hc, Hn.
  destruct (getClient_audio (stopAudio w)) as [-> _].
  split; [reflexivity|]. split; [reflexivity|].
  unfold stopAudio. destruct (currentSource w) eqn:Hcur; [reflexivity | exact Hcur].
Qed.

Lemma handleSearch_translated_effect (props : Props) (cap st : ExploreState) (t : string)
      (w : World) :
  let s := handleSearch_translated props cap (Returned t) (st, w) in
  let voiceSource := getVoiceForLang props cap (code (sourceLang props)) in
  let voiceTarget := getVoiceForLang props cap (code (targetLang props)) in
  audioCache (snd s) = audioCache w
  /\ network (snd s)
     = network w
       ++ speech_request (audioCache w) (inputText cap) voiceSource
       ++ (if t =? "" then [] else speech_request (audioCache w) t voiceTarget)
       ++ [ReqRichContext (inputText cap) (label (sourceLang props))
                          (label (targetLang props))]
  /\ currentSource (snd s) = currentSource w.
Proof.
  cbv zeta. unfold handleSearch_translated, getRichContext_call. cbn [snd].
  set (vS := getVoiceForLang props cap (code (sourceLang props))).
  set (vT := getVoiceForLang props cap (code (targetLang props))).
  destruct (prefetch_speech_effect (JsString (inputText cap)) vS w) as (Hc1 & Hn1 & Hs1 & _).
  cbn [toString] in Hn1.
  match goal with
  | |- context [getClient ?x] =>
      unfold send; cbn;
      rewrite (audioCache_getClient x), (network_getClient x);
      destruct (getClient_audio x) as [-> _]
  end.
  destruct (t =? "").
  - rewrite Hc1, Hn1, Hs1. rewrite <- !app_assoc. auto.
  - destruct (prefetch_speech_effect (JsString t) vT
                (prefetch_speech (JsString (inputText cap)) vS w)) as (-> & -> & -> & _).
    cbn [toString]. rewrite Hc1, Hn1, Hs1. rewrite <- !app_assoc. auto.
Qed.

Lemma handleSearch_enriched_effect (props : Props) (cap st : ExploreState) (t : string)
      (rich : Completion JsValue) (w : World) :
  let s := handleSearch_enriched props cap t rich (st, w) in
  let voiceSource := getVoiceForLang props cap (code (sourceLang props)) in
  audioCache (snd s) = audioCache w
  /\ currentSource (snd s) = currentSource w
  /\ network (snd s)
     = network w
       ++ match rich with
          | Returned richData =>
              match full_result t richData with
              | Returned full =>
                  [ReqImage (inputText cap) (prompt_arg (Result.definition full))
                            (prompt_arg (Result.story full))]
                  ++ speech_request (audioCache w) (toString (Result.definition full))
                                    voiceSource
                  ++ speech_request (audioCache w) (toString (Result.story full))
                                    voiceSource
              | Threw _ => []
              end
          | Threw _ => []
          end.
Proof.
  cbv zeta. unfold handleSearch_enriched, handleSearch_catch.
  destruct rich as [richData|e]; [destruct (full_result t richData) as [full|e]|];
    try (cbn; rewrite app_nil_r; auto).
  cbn [handleGenerateVisual_call fst snd].
  set (vS := getVoiceForLang props cap (code (sourceLang props))).
  set (w0 := generateVisualImage_call (inputText cap) (Result.definition full)
               (Result.story full) w).
  assert (H0 : audioCache w0 = audioCache w
               /\ network w0 = network w
                               ++ [ReqImage (inputText cap) (prompt_arg (Result.definition full))
                                            (prompt_arg (Result.story full))]
               /\ currentSource w0 = currentSource w).
  { unfold w0, generateVisualImage_call, send. cbn.
    rewrite audioCache_getClient, network_getClient.
    destruct (getClient_audio w) as [-> _]. auto. }
  destruct H0 as (Hc0 & Hn0 & Hs0).
  destruct (prefetch_speech_effect (Result.definition full) vS w0) as (Hc1 & Hn1 & Hs1 & _).
  destruct (prefetch_speech_effect (Result.story full) vS
              (prefetch_speech (Result.definition full) vS w0)) as (-> & -> & -> & _).
  rewrite Hc1, Hn1, Hs1, Hc0, Hn0, Hs0. rewrite <- !app_assoc. auto.
Qed.

(** The run of [handleSearch_amid] on a non-blank input, stage by
    stage. *)
Lemma handleSearch_amid_unfold (backend : Backend) (props : Props)
      (arrivals1 arrivals2 : list Arrival) (st : ExploreState) (w : World) :
  search_rejected st = false ->
  exists t,
    let s1 := handleSearch_start props st (st, w) in
    let r1 := translateTextSimple_settle
                (backend (ReqTranslate (inputText st) (label (targetLang props))))
                (speech_arrive arrivals1 (snd s1)) in
    let s2 := handleSearch_translated props st (Returned t) (fst s1, snd r1) in
    let r2 := getRichContext_settle
                (backend (ReqRichContext (inputText st) (label (sourceLang props))
                            (label (targetLang props))))
                (speech_arrive arrivals2 (snd s2)) in
    (forall w', fst (translateTextSimple backend (inputText st)
                       (label (targetLang props)) w') = Returned t)
    /\ handleSearch_amid backend props arrivals1 arrivals2 (st, w)
       = handleSearch_enriched props st t (fst r2) (fst s2, snd r2).
Proof.
  intros Hguard. unfold handleSearch_amid. cbn [fst]. rewrite Hguard.
  match goal with
  | |- context [translateTextSimple_settle ?a ?b] =>
      destruct (translateTextSimple_returns a b) as [t Ht];
      pose proof (Ht b) as Hb;
      destruct (translateTextSimple_settle a b) as [simple w1] eqn:Hs
  end.
  cbn [fst] in Hb. subst simple. exists t. cbv zeta. cbn [fst snd].
  split; [intros w'; unfold translateTextSimple; apply Ht|].
  destruct (getRichContext_settle _ _) as [rich w2]. reflexivity.
Qed.



(** X12.  The requests of one search, run with no other handler of the
    view in between and amid any arrivals of speech answers, leave in a
    fixed order: the fast translation; speech for the input and, if the
    translation is not empty, for the translation, each only if the
    cache of that moment lacks it; the rich context, which is therefore
    never dispatched before the fast translation has been observed;
    and, only if the rich context gave a result, the image, then speech
    for the definition and the story (stated for a definition and a
    story that are strings), again each only if the cache of that
    moment lacks it.  A blank input sends nothing and changes
    nothing. *)
Theorem search_request_order (backend : Backend) (props : Props)
        (arrivals1 arrivals2 : list Arrival) (st : ExploreState) (w : World)
        (t : string) (rich : Completion JsValue) :
  (search_rejected st = true ->
   handleSearch_amid backend props arrivals1 arrivals2 (st, w) = (st, w))
  /\ (search_rejected st = false ->
      let input := inputText st in
      let voiceSource := getVoiceForLang props st (code (sourceLang props)) in
      let voiceTarget := getVoiceForLang props st (code (targetLang props)) in
      let cache1 := cache_after arrivals1 (audioCache w) in
      let cache2 := cache_after arrivals2 cache1 in
      let sent := network (snd (handleSearch_amid backend props arrivals1 arrivals2 (st, w))) in
      let base :=
        network w
        ++ [ReqTranslate input (label (targetLang props))]
        ++ speech_request cache1 input voiceSource
        ++ (if t =? "" then [] else speech_request cache1 t voiceTarget)
        ++ [ReqRichContext input (label (sourceLang props)) (label (targetLang props))] in
      (forall w', fst (translateTextSimple backend input (label (targetLang props)) w')
                  = Returned t) ->
      (forall w', fst (getRichContext backend input (label (sourceLang props))
                         (label (targetLang props)) w') = rich) ->
      match rich with
      | Returned richData =>
          match full_result t richData with
          | Returned full =>
              forall d s,
                Result.definition full = JsString d ->
                Result.story full = JsString s ->
                sent = base ++ [ReqImage input d s]
                            ++ speech_request cache2 d voiceSource
                            ++ speech_request cache2 s voiceSource
          | Threw _ => sent = base
          end
      | Threw _ => sent = base
      end).
Proof.
  split.
  - intros Hblank. unfold handleSearch_amid. cbn [fst]. rewrite Hblank. reflexivity.
  - intros Hguard. cbv zeta. intros Htr Hrich.
    destruct (handleSearch_amid_unfold backend props arrivals1 arrivals2 st w Hguard)
      as (t1 & H). cbv zeta in H. destruct H as (Ht1 & ->).
    assert (t1 = t) as -> by (specialize (Htr w); specialize (Ht1 w); congruence).
    set (req1 := backend (ReqTranslate _ _)) in *.
    set (req2 := backend (ReqRichContext _ _ _)) in *.
    destruct (handleSearch_start_effect props st st w) as (Hc1 & Hn1 & _).
    cbv zeta in Hc1, Hn1.
    set (s1 := handleSearch_start props st (st, w)) in *.
    destruct (speech_arrive_effect arrivals1 (snd s1)) as (Hc1' & Hn1' & _).
    destruct (translate_settle_service req1 (speech_arrive arrivals1 (snd s1)))
      as (Hc1'' & Hn1'' & _).
    set (w1 := snd (translateTextSimple_settle req1 (speech_arrive arrivals1 (snd s1)))) in *.
    destruct (handleSearch_translated_effect props st (fst s1) t w1) as (Hc2 & Hn2 & _).
    cbv zeta in Hc2, Hn2.
    set (s2 := handleSearch_translated props st (Returned t) (fst s1, w1)) in *.
    destruct (speech_arrive_effect arrivals2 (snd s2)) as (Hc2' & Hn2' & _).
    destruct (rich_settle_service req2 (speech_arrive arrivals2 (snd s2)))
      as (Hc2'' & Hn2'' & _).
    assert (Hr : fst (getRichContext_settle req2 (speech_arrive arrivals2 (snd s2))) = rich).
    { rewrite <- (Hrich w). unfold getRichContext. apply getRichContext_world_free. }
    set (r2 := getRichContext_settle req2 (speech_arrive arrivals2 (snd s2))) in *.
    destruct (handleSearch_enriched_effect props st (fst s2) t (fst r2) (snd r2))
      as (_ & _ & Hn3). cbv zeta in Hn3. rewrite Hr in Hn3.
    assert (Hcache1 : audioCache w1 = cache_after arrivals1 (audioCache w))
      by (rewrite Hc1'', Hc1', Hc1; reflexivity).
    assert (Hcache2 : audioCache (snd r2)
                      = cache_after arrivals2 (cache_after arrivals1 (audioCache w)))
      by (rewrite Hc2'', Hc2', Hc2, Hcache1; reflexivity).
    assert (Hbase : network (snd r2)
                    = network w
                      ++ [ReqTranslate (inputText st) (label (targetLang props))]
                      ++ speech_request (cache_after arrivals1 (audioCache w)) (inputText st)
                           (getVoiceForLang props st (code (sourceLang props)))
                      ++ (if t =? "" then []
                          else speech_request (cache_after arrivals1 (audioCache w)) t
                                 (getVoiceForLang props st (code (targetLang props))))
                      ++ [ReqRichContext (inputText st) (label (sourceLang props))
                                         (label (targetLang props))]).
    { rewrite Hn2'', Hn2', Hn2, Hn1'', Hn1', Hn1, Hcache1. rewrite <- !app_assoc.
      reflexivity. }
    rewrite Hr. rewrite Hn3, Hbase, Hcache2.
    destruct rich as [richData|e]; [destruct (full_result t richData) as [full|e]|];
      try (rewrite app_nil_r; reflexivity).
    intros d s Hd Hs. rewrite Hd, Hs. cbn [toString].
    assert (Harg : forall x, prompt_arg (JsString x) = x) by (intros [|c x]; reflexivity).
    rewrite !Harg, <- !app_assoc. reflexivity.
Qed.

Lemma search_request_order_witness :
  network (snd (handleSearch_amid greeting_backend sample_props
                  [] [("hello", "Fenrir", Returned (tts_response silence))]
                  (typed_hello, initial (Some "key"))))
  = [ReqTranslate "hello" "Chinese (Simplified)"; ReqTts "hello" "Fenrir";
     ReqTts "ni hao" "Zephyr"; ReqRichContext "hello" "English" "Chinese (Simplified)";
     ReqImage "hello" "a greeting" "She said hello.";
     ReqTts "a greeting" "Fenrir"; ReqTts "She said hello." "Fenrir"].
Proof.
  destruct (search_request_order greeting_backend sample_props
              [] [("hello", "Fenrir", Returned (tts_response silence))]
              typed_hello (initial (Some "key")) "ni hao"
              (Returned (JsObject [("definition", JsString "a greeting");
                                   ("story", JsString "She said hello.")])))
    as [_ H].
  specialize (H eq_refl (fun w' => eq_refl) (fun w' => eq_refl)
                "a greeting" "She said hello." eq_refl eq_refl).
  exact H.
Defined.

(** X13.  What [handleSearch] makes of the value that the rich context
    returns.  The JSON value [null] makes the property reads throw: the
    failure is caught and logged and the partial result stays.  An
    object gives its own fields, absent ones staying absent.  Any other
    value (a number, a string, a boolean, an array) leaves all four
    rich fields absent.  In both non-throwing cases the translation is
    the fast translation unless that is empty. *)
Theorem rich_context_value_installed (backend : Backend) (props : Props)
        (st : ExploreState) (w : World) (t : string) (richData : JsValue) :
  search_rejected st = false ->
  (forall w', fst (translateTextSimple backend (inputText st)
                     (label (targetLang props)) w') = Returned t) ->
  (forall w', fst (getRichContext backend (inputText st) (label (sourceLang props))
                     (label (targetLang props)) w') = Returned richData) ->
  let final := handleSearch backend props (st, w) in
  let field_of fields k :=
    match lookup_field k fields with Some v => v | None => JsUndefined end in
  match richData with
  | JsNull | JsUndefined =>
      result (fst final)
      = Some (Result.mk (JsString "") (JsString "") (JsString t) (JsString "") (JsString ""))
      /\ exists msg, In ("Translation flow failed", Some (TypeError msg))
                        (console (snd final))
  | JsObject fields =>
      result (fst final)
      = Some (Result.mk (field_of fields "definition") (field_of fields "story")
                (if t =? "" then field_of fields "translation" else JsString t)
                (field_of fields "definitionTranslation")
                (field_of fields "storyTranslation"))
  | _ =>
      result (fst final)
      = Some (Result.mk JsUndefined JsUndefined
                (if t =? "" then JsUndefined else JsString t) JsUndefined JsUndefined)
  end.
Proof.
  intros Hguard Htr Hrich final field_of. subst final field_of.
  destruct (handleSearch_final backend props st w Hguard) as (t1 & rich & H).
  cbv zeta in H. destruct H as (Ht & Hr & ->).
  assert (t1 = t) as ->.
  { specialize (Htr (snd (handleSearch_start props st (st, w)))).
    unfold translateTextSimple in Htr.
    destruct (translateTextSimple_returns
                (backend (ReqTranslate (inputText st) (label (targetLang props))))
                w) as [t' Ht'].
    rewrite Ht' in Ht, Htr. congruence. }
  assert (rich = Returned richData) as ->.
  { rewrite <- Hr, <- (Hrich w). unfold getRichContext. apply getRichContext_world_free. }
  clear Ht Hr Htr Hrich.
  destruct (handleSearch_start props st (st, w)) as [st1 w1] eqn:Hstart.
  assert (Hr1 : result st1 = Some skeleton).
  { change st1 with (fst (st1, w1)). rewrite <- Hstart. apply result_start. }
  cbn [fst snd]. unfold handleSearch_translated. cbn [fst snd].
  unfold handleSearch_enriched, full_result.
  destruct richData as [| |b|lex|s|items|fields]; cbn [js_get];
    try (destruct (t =? ""); cbn; reflexivity).
  - destruct (t =? ""); cbn; rewrite Hr1; (split; [reflexivity|]);
      eexists; apply in_or_app; right; left; reflexivity.
  - destruct (t =? ""); cbn; rewrite Hr1; (split; [reflexivity|]);
      eexists; apply in_or_app; right; left; reflexivity.
Qed.

Lemma rich_context_value_installed_witness :
  result (fst (handleSearch null_backend sample_props (typed_hello, initial (Some "key"))))
  = Some (Result.mk (JsString "") (JsString "") (JsString "ni hao")
                    (JsString "") (JsString "")).
Proof.
  pose proof (rich_context_value_installed null_backend sample_props typed_hello
                (initial (Some "key")) "ni hao" JsNull eq_refl
                (fun w' => eq_refl) (fun w' => eq_refl)) as H.
  cbv zeta beta iota in H. destruct H as [H _]. exact H.
Defined.

(** ** Chat, further *)



(** Blank is what [trim] empties: a no-break space (U+00A0) or an
    ideographic space (U+3000) is stripped like a space, and an input
    or a chat message made of them is turned away at the guard. *)
Lemma unicode_blank_rejected :
  let nbsp := String (ascii_of_nat 194) (String (ascii_of_nat 160) EmptyString) in
  let wide := String (ascii_of_nat 227)
                (String (ascii_of_nat 128) (String (ascii_of_nat 128) EmptyString)) in
  trim (nbsp +:+ " hi " +:+ wide) = "hi"
  /\ search_rejected (setInputText (wide +:+ nbsp) typed_hello) = true
  /\ message_rejected (setChatInput (nbsp +:+ wide) asking) = true.
Proof. cbv zeta. split; [|split]; vm_compute; reflexivity. Qed.

(** ** Committing, further *)

(** X15.  A second click on the commit button changes nothing, whatever
    the first one did: once a card has been committed the button is
    disabled, and a click that was refused is refused again. *)
Theorem commit_click_twice {host : Host} (props : Props) (now1 now1' now2 now2' : Z)
        (st : ExploreState) (flashcards : list Flashcard) :
  let once := Ui.click_add props now1 now1' st flashcards in
  Ui.click_add props now2 now2' (fst once) (snd once) = once.
Proof.
  cbv zeta. unfold Ui.click_add at 2 3 4.
  destruct (addButton_disabled st) as [[|]|] eqn:Hd; cbn [fst snd].
  - unfold Ui.click_add. rewrite Hd. reflexivity.
  - unfold Ui.handleAddToFlashcards, newCard. unfold addButton_disabled in Hd.
    destruct (result st) as [r|] eqn:Hr; [|discriminate]. cbn [fst snd].
    unfold Ui.click_add, addButton_disabled. cbn. rewrite Hr. reflexivity.
  - unfold Ui.click_add. rewrite Hd. reflexivity.
Qed.

(** ** Visual generation *)

(** X16.  A visual generation, taken at its two ends, with anything
    happening in between (another generation, a search).  The call
    selects the type, raises the generating flag (the video type apart,
    which sends nothing and is over at once), drops the visual on
    screen and sends one request, built from the word, the definition
    and the story (strings here).  The answer, in whatever state it
    finds, lowers the flag and never throws to the view; it leaves the
    selected type and the lookup as they are, so a late answer is shown
    under the type then selected; it installs the visual exactly when
    the client returned a non-empty one (a data URI for an image,
    markup with an [<svg] tag for a vector) and otherwise leaves the
    visual on screen alone; a failure is logged. *)
Theorem visual_generation_outcome (type : VisualType)
        (inputTxt definitionTxt storyTxt : string) (answer : Completion Response)
        (st later : ExploreState) (w later_w : World) :
  let called :=
    handleGenerateVisual_call type inputTxt (JsString definitionTxt) (JsString storyTxt)
      (st, w) in
  let final := handleGenerateVisual_answered type answer (later, later_w) in
  (visualType (fst called) = type
   /\ visualContent (fst called) = None
   /\ result (fst called) = result st
   /\ isGeneratingVisual (fst called)
      = match type with Video => false | _ => true end
   /\ network (snd called)
      = network w ++ match type with
                     | Image => [ReqImage inputTxt definitionTxt storyTxt]
                     | SVG => [ReqSvg inputTxt definitionTxt storyTxt]
                     | Video => []
                     end)
  /\ (type <> Video ->
      isGeneratingVisual (fst final) = false
      /\ visualType (fst final) = visualType later
      /\ result (fst final) = result later
      /\ match fst (visual_settle type answer later_w) with
         | Returned (Some payload) =>
             if payload =? "" then visualContent (fst final) = visualContent later
             else visualContent (fst final) = Some payload
                  /\ match type with
                     | Image => String.prefix "data:image/png;base64," payload = true
                     | SVG => includes "<svg" payload = true
                     | Video => False
                     end
         | Returned None => visualContent (fst final) = visualContent later
         | Threw e =>
             visualContent (fst final) = visualContent later
             /\ answer = Threw e
             /\ In ("Visual gen failed", Some e) (console (snd final))
         end).
Proof.
  cbv zeta. split.
  - assert (Harg : forall x, prompt_arg (JsString x) = x) by (intros [|c x]; reflexivity).
    unfold handleGenerateVisual_call, generateVisualImage_call, generateVisualSvg_call, send.
    destruct type; cbn -[prompt_arg]; rewrite ?Harg, ?network_getClient, ?app_nil_r;
      repeat split.
  - intros Htype. unfold handleGenerateVisual_answered, visual_settle. cbn [fst snd].
    destruct type; [| |congruence].
    + unfold generateVisualImage_settle. destruct answer as [response|e].
      * destruct (firstPart response) as [part|]; [destruct (inlineData part) as [blob|]|];
          cbn; repeat split.
        change (String.prefix "data:image/png;base64,"
                  ("data:image/png;base64," +:+
                   match data blob with Some d => d | None => "undefined" end) = true).
        apply prefix_app_l. vm_compute. reflexivity.
      * cbn. repeat split. apply in_or_app. right. left. reflexivity.
    + unfold generateVisualSvg_settle. destruct answer as [response|e].
      * destruct (includes "<svg" (clean_svg _)) eqn:Hsvg.
        -- destruct (clean_svg _) as [|c rest] eqn:Hclean; [discriminate Hsvg|].
           cbn. repeat split. exact Hsvg.
        -- cbn. repeat split.
      * cbn. repeat split. apply in_or_app. right. left. reflexivity.
Qed.

(** An image answered late, after the vector type has been asked for:
    the picture is shown under the vector type. *)
Lemma visual_generation_outcome_witness :
  let asked :=
    handleGenerateVisual_call SVG "hello" (JsString "a greeting") (JsString "")
      (handleGenerateVisual_call Image "hello" (JsString "a greeting") (JsString "")
         (asking, initial (Some "key"))) in
  let final := handleGenerateVisual_answered Image (Returned (tts_response "iVBOR")) asked in
  isGeneratingVisual (fst final) = false
  /\ visualType (fst final) = SVG
  /\ visualContent (fst final) = Some "data:image/png;base64,iVBOR".
Proof.
  cbv zeta.
  destruct (visual_generation_outcome Image "hello" "a greeting" ""
              (Returned (tts_response "iVBOR")) asking
              (fst (handleGenerateVisual_call SVG "hello" (JsString "a greeting") (JsString "")
                      (handleGenerateVisual_call Image "hello" (JsString "a greeting") (JsString "")
                         (asking, initial (Some "key")))))
              (initial (Some "key"))
              (snd (handleGenerateVisual_call SVG "hello" (JsString "a greeting") (JsString "")
                      (handleGenerateVisual_call Image "hello" (JsString "a greeting") (JsString "")
                         (asking, initial (Some "key"))))))
    as [_ H].
  destruct (H ltac:(discriminate)) as (H1 & H2 & _ & H4).
  split; [exact H1|]. split; [exact H2|]. cbn in H4. destruct H4 as [H4 _]. exact H4.
Defined.

(** ** The typewriter placeholder *)

Lemma typewriter_word (n : nat) :
  (n < 4)%nat -> exists word, Typewriter.words !! n = Some word
                             /\ (4 <= Z.of_nat (String.length word))%Z.
Proof.
  intros H. destruct n as [|[|[|[|n]]]]; try lia; eexists; (split; [reflexivity|]);
    cbn; lia.
Qed.

Lemma substring0_prefix (n : nat) (s : string) :
  String.prefix (String.substring 0 n s) s = true.
Proof.
  revert n. induction s as [|c s IH]; intros [|n]; cbn [String.substring];
    try apply prefix_empty.
  rewrite prefix_cons. destruct (ascii_dec c c); [apply IH | congruence].
Qed.

Lemma type_keeps_inv (v : Typewriter.Vars) :
  typewriter_inv v ->
  exists tick word,
    Typewriter.type v = Some tick
    /\ typewriter_inv (Typewriter.vars tick)
    /\ Typewriter.delay tick
       = (if Typewriter.isDeleting (Typewriter.vars tick) then 75 else 150)%Z
    /\ In word Typewriter.words
    /\ String.prefix (Typewriter.typewriterText tick) word = true.
Proof.
  intros (word & Hw & Hj & Hdel & Htyp).
  assert (Hin : In word Typewriter.words).
  { apply list_elem_of_In. eapply list_elem_of_lookup_2. exact Hw. }
  unfold Typewriter.type. rewrite Hw.
  destruct v as [i j [|]]; cbn [Typewriter.i Typewriter.j Typewriter.isDeleting] in *.
  - specialize (Hdel eq_refl).
    destruct (j - 1 =? 0)%Z eqn:Hz.
    + apply Z.eqb_eq in Hz.
      destruct (typewriter_word ((i + 1) mod length Typewriter.words)) as (w' & Hw' & Hlen).
      { apply Nat.mod_upper_bound. discriminate. }
      eexists; exists word. split; [reflexivity|].
      cbn [Typewriter.vars Typewriter.delay Typewriter.typewriterText
           Typewriter.isDeleting Typewriter.j Typewriter.i negb andb].
      split; [|split; [|split]].
      * exists w'. split; [exact Hw'|]. cbn [Typewriter.j Typewriter.isDeleting].
        split; [lia|]. split; [discriminate|]. lia.
      * destruct (j - 1 =? Z.of_nat (String.length word))%Z eqn:Hl; [|reflexivity].
        apply Z.eqb_eq in Hl. lia.
      * exact Hin.
      * apply substring0_prefix.
    + apply Z.eqb_neq in Hz.
      eexists; exists word. split; [reflexivity|].
      cbn [Typewriter.vars Typewriter.delay Typewriter.typewriterText
           Typewriter.isDeleting Typewriter.j Typewriter.i negb andb].
      split; [|split; [|split]].
      * exists word. split; [exact Hw|]. cbn [Typewriter.j Typewriter.isDeleting].
        split; [lia|]. split; [lia|discriminate].
      * reflexivity.
      * exact Hin.
      * apply substring0_prefix.
  - specialize (Htyp eq_refl).
    destruct (j + 1 =? Z.of_nat (String.length word))%Z eqn:Hl.
    + apply Z.eqb_eq in Hl.
      eexists; exists word. split; [reflexivity|].
      cbn [Typewriter.vars Typewriter.delay Typewriter.typewriterText
           Typewriter.isDeleting Typewriter.j Typewriter.i negb andb].
      split; [|split; [|split]].
      * exists word. split; [exact Hw|]. cbn [Typewriter.j Typewriter.isDeleting].
        split; [lia|]. split; [lia|discriminate].
      * reflexivity.
      * exact Hin.
      * apply substring0_prefix.
    + eexists; exists word. split; [reflexivity|].
      cbn [Typewriter.vars Typewriter.delay Typewriter.typewriterText
           Typewriter.isDeleting Typewriter.j Typewriter.i negb andb].
      rewrite Hl. apply Z.eqb_neq in Hl.
      split; [|split; [|split]].
      * exists word. split; [exact Hw|]. cbn [Typewriter.j Typewriter.isDeleting].
        split; [lia|]. split; [discriminate|lia].
      * reflexivity.
      * exact Hin.
      * apply substring0_prefix.
Qed.

(** X17.  The typewriter never fails and never pauses.  Every call of
    [type], however many timeouts have fired, finds its word, shows a
    prefix of one of the four words, and schedules the next call after
    75 ms when it is (now) deleting and after 150 ms when it is typing:
    the 3000 ms pause on a complete word is never chosen, because the
    call that completes a word has already switched to deleting when
    the delay is computed. *)
Theorem typewriter_never_pauses (n : nat) :
  exists tick word,
    Typewriter.run n Typewriter.start = Some tick
    /\ Typewriter.delay tick
       = (if Typewriter.isDeleting (Typewriter.vars tick) then 75 else 150)%Z
    /\ Typewriter.delay tick <> 3000%Z
    /\ In word Typewriter.words
    /\ String.prefix (Typewriter.typewriterText tick) word = true.
Proof.
  assert (Hstart : typewriter_inv Typewriter.start).
  { exists "word". cbn. repeat split; try lia; discriminate. }
  generalize dependent Typewriter.start. induction n as [|n IH]; intros v Hv.
  - destruct (type_keeps_inv v Hv) as (tick & word & Ht & _ & Hd & Hin & Hp).
    exists tick, word. cbn [Typewriter.run].
    split; [exact Ht|]. split; [exact Hd|]. split; [|split; assumption].
    rewrite Hd. destruct (Typewriter.isDeleting _); discriminate.
  - destruct (type_keeps_inv v Hv) as (tick & word & Ht & Hinv & _).
    cbn [Typewriter.run]. rewrite Ht. apply IH. exact Hinv.
Qed.

(** ** The flashcard deck view *)

Lemma add_length {host : Host} (card : Flashcard) (flashcards : list Flashcard) :
  length flashcards <= length (App.add card flashcards).
Proof.
  unfold App.add, App.addFlashcard.
  destruct (List.find _ flashcards); cbn [length]; lia.
Qed.

Lemma deck_step_in_range {host : Host} (ev : Deck.Event) (st : Deck.State)
      (cards : list Flashcard) :
  (0 <= Deck.currentIndex st)%Z ->
  (Deck.currentIndex st = 0 \/ Deck.currentIndex st < Z.of_nat (length cards))%Z ->
  let next := Deck.step ev (st, cards) in
  (0 <= Deck.currentIndex (fst next))%Z
  /\ (Deck.currentIndex (fst next) = 0
      \/ Deck.currentIndex (fst next) < Z.of_nat (length (snd next)))%Z
  /\ length cards <= length (snd next).
Proof.
  intros H0 Hr. destruct ev as [| | |index|card]; cbn [Deck.step fst snd].
  - unfold Deck.nextCard.
    destruct (Deck.currentIndex st <? Z.of_nat (length cards) - 1)%Z eqn:Hlt;
      cbn; [apply Z.ltb_lt in Hlt|]; lia.
  - unfold Deck.prevCard.
    destruct (Deck.currentIndex st >? 0)%Z eqn:Hgt; cbn; [|lia].
    apply Z.gtb_lt in Hgt. lia.
  - cbn. lia.
  - unfold Deck.card_clicked. destruct (index =? Deck.currentIndex st)%Z; cbn; lia.
  - pose proof (add_length card cards). lia.
Qed.

(** X18.  The deck view always has a card to show.  Start from any
    stored deck and let the user page forward and back, reset, flip
    cards, and the explore view add cards, in any order: the index
    stays inside the deck, so [flashcards[currentIndex]] is a card
    whenever the deck is not empty, and the deck never gets shorter. *)
Theorem current_card_always_defined {host : Host} (deck : list Flashcard) (evs : list Deck.Event) :
  let final := Deck.run evs (Deck.mounted, deck) in
  length deck <= length (snd final)
  /\ (snd final = [] \/ exists card, Deck.currentCard (snd final) (fst final) = Some card).
Proof.
  cbv zeta.
  assert (Hgen : forall st cards,
             (0 <= Deck.currentIndex st)%Z ->
             (Deck.currentIndex st = 0
              \/ Deck.currentIndex st < Z.of_nat (length cards))%Z ->
             let final := Deck.run evs (st, cards) in
             length cards <= length (snd final)
             /\ (0 <= Deck.currentIndex (fst final))%Z
             /\ (Deck.currentIndex (fst final) = 0
                 \/ Deck.currentIndex (fst final) < Z.of_nat (length (snd final)))%Z).
  { induction evs as [|ev evs IH]; intros st cards H0 Hr.
    - cbn. split; [lia|]. split; assumption.
    - cbv zeta. unfold Deck.run. cbn [fold_left].
      destruct (deck_step_in_range ev st cards H0 Hr) as (H0' & Hr' & Hlen).
      destruct (Deck.step ev (st, cards)) as [st' cards'] eqn:Hstep.
      cbn [fst snd] in *.
      destruct (IH st' cards' H0' Hr') as (Hl & Ha & Hb).
      unfold Deck.run in Hl, Ha, Hb. split; [lia|]. split; assumption. }
  destruct (Hgen Deck.mounted deck) as (Hl & H0 & Hr); [cbn; lia | left; reflexivity |].
  split; [exact Hl|].
  destruct (Deck.run evs (Deck.mounted, deck)) as [st cards]. cbn [fst snd] in *.
  destruct cards as [|c cards]; [left; reflexivity|right].
  unfold Deck.currentCard.
  destruct (Deck.currentIndex st <? 0)%Z eqn:Hneg; [apply Z.ltb_lt in Hneg; lia|].
  destruct ((c :: cards) !! Z.to_nat (Deck.currentIndex st)) as [card|] eqn:Hlk.
  - exists card. reflexivity.
  - apply lookup_ge_None in Hlk. cbn [length] in *. lia.
Qed.

Lemma stack_indices (st : Deck.State) (indices : list Z) :
  List.NoDup indices ->
  let shown := omap (fun index => match Deck.card_style st index with
                                  | Some style => Some (index, style)
                                  | None => None
                                  end) indices in
  List.NoDup (map fst shown)
  /\ (forall index, In index (map fst shown) -> In index indices)
  /\ (forall index style, In (index, style) shown ->
                          Deck.card_style st index = Some style).
Proof.
  induction indices as [|a l IH]; intros Hnd; cbv zeta.
  - cbn. split; [constructor|]. split; [tauto|]. intros ? ? [].
  - inversion Hnd as [|? ? Hnotin Hnd']; subst.
    destruct (IH Hnd') as (Hn & Hsub & Hst). cbv zeta in Hn, Hsub, Hst.
    cbn [omap list_omap]. destruct (Deck.card_style st a) as [style|] eqn:Hs.
    + cbn [map fst]. split; [|split].
      * constructor; [|exact Hn]. intros Hin. apply Hnotin, Hsub, Hin.
      * intros index [<-|Hin]; [left; reflexivity | right; apply Hsub, Hin].
      * intros index style' [[= <- <-]|Hin]; [exact Hs | apply Hst, Hin].
    + split; [exact Hn|]. split; [|exact Hst].
      intros index Hin. right. apply Hsub, Hin.
Qed.

(** X19.  The card stack.  At most four cards are rendered: the
    previous one, the current one and the two after it.  Of those,
    exactly the previous card is hidden (opacity 0, moved 400 to the
    left) and every other one is fully opaque, so the test
    [offset > 2] never selects opacity 0; the current card lies above
    every other visible card; and only the current card can be shown
    turned over. *)
Theorem card_stack_window (flashcards : list Flashcard) (st : Deck.State) :
  length (Deck.stack flashcards st) <= 4
  /\ forall index style, In (index, style) (Deck.stack flashcards st) ->
       (Deck.currentIndex st - 1 <= index <= Deck.currentIndex st + 2)%Z
       /\ (index = Deck.currentIndex st - 1
           -> Deck.opacity style = 0 /\ Deck.x style = -400)%Z
       /\ (index <> Deck.currentIndex st - 1
           -> Deck.opacity style = 1 /\ Deck.x style = 0)%Z
       /\ (Deck.isCurrent style = true <-> index = Deck.currentIndex st)
       /\ (index = Deck.currentIndex st -> Deck.zIndex style = 30)%Z
       /\ (Deck.currentIndex st < index -> Deck.zIndex style < 30)%Z
       /\ (Deck.rotateY style = 180%Z
           <-> index = Deck.currentIndex st /\ Deck.isFlipped st = true).
Proof.
  assert (Hnd : List.NoDup (map Z.of_nat (seq 0 (length flashcards)))).
  { apply Finite.Injective_map_NoDup; [intros a b; apply Nat2Z.inj | apply List.seq_NoDup]. }
  destruct (stack_indices st _ Hnd) as (Hn & _ & Hst). cbv zeta in Hn, Hst.
  fold (Deck.stack flashcards st) in Hn, Hst.
  assert (Hstyle : forall index style, Deck.card_style st index = Some style ->
             (Deck.currentIndex st - 1 <= index <= Deck.currentIndex st + 2)%Z
             /\ style = Deck.mkStyle (index =? Deck.currentIndex st)%Z
                          (index - Deck.currentIndex st) (30 - (index - Deck.currentIndex st))
                          (if (index <? Deck.currentIndex st)%Z then -400 else 0)
                          (if (index <? Deck.currentIndex st)%Z then 0 else 1)
                          (if (index =? Deck.currentIndex st)%Z && Deck.isFlipped st
                           then 180 else 0)%Z).
  { intros index style. unfold Deck.card_style.
    destruct (index <? Deck.currentIndex st - 1)%Z eqn:Ha;
      [discriminate|apply Z.ltb_ge in Ha].
    destruct (index >? Deck.currentIndex st + 2)%Z eqn:Hb; [discriminate|].
    assert (index <= Deck.currentIndex st + 2)%Z by (rewrite Z.gtb_ltb in Hb; lia).
    cbn [orb]. intros [= <-]. split; [lia|].
    destruct (index - Deck.currentIndex st >? 2)%Z eqn:Hc; [|reflexivity].
    apply Z.gtb_lt in Hc. lia. }
  split.
  - rewrite <- (length_map fst).
    change 4 with (length [Deck.currentIndex st - 1; Deck.currentIndex st;
                           Deck.currentIndex st + 1; Deck.currentIndex st + 2]%Z).
    apply List.NoDup_incl_length; [exact Hn|].
    intros index Hin. apply in_map_iff in Hin. destruct Hin as ([index' style] & <- & Hin).
    cbn [fst]. destruct (Hstyle _ _ (Hst _ _ Hin)) as [Hr _]. cbn [In]. lia.
  - intros index style Hin. destruct (Hstyle _ _ (Hst _ _ Hin)) as [Hr ->].
    cbn [Deck.opacity Deck.x Deck.isCurrent Deck.zIndex Deck.rotateY].
    split; [exact Hr|].
    assert (Hflip : (if (index =? Deck.currentIndex st)%Z && Deck.isFlipped st
                     then 180 else 0)%Z = 180%Z
                    <-> index = Deck.currentIndex st /\ Deck.isFlipped st = true).
    { destruct (index =? Deck.currentIndex st)%Z eqn:Heq;
        [apply Z.eqb_eq in Heq | apply Z.eqb_neq in Heq];
        destruct (Deck.isFlipped st); cbn [andb]; split;
        try (intros H; discriminate H); try (intros [H1 H2]; congruence);
        intros _; split; congruence. }
    assert (Hcur : (index =? Deck.currentIndex st)%Z = true
                   <-> index = Deck.currentIndex st) by apply Z.eqb_eq.
    destruct (index <? Deck.currentIndex st)%Z eqn:Hlt;
      [apply Z.ltb_lt in Hlt | apply Z.ltb_ge in Hlt].
    + split; [intros _; split; reflexivity|]. split; [intros Hne; lia|].
      split; [exact Hcur|]. split; [intros; lia|]. split; [intros; lia | exact Hflip].
    + split; [intros He; lia|]. split; [intros _; split; reflexivity|].
      split; [exact Hcur|]. split; [intros; lia|]. split; [intros; lia | exact Hflip].
Qed.

(** ** Playing a text aloud *)

Lemma same_audio_refl (w : World) : same_audio w w.
Proof. repeat split. Qed.

Lemma same_audio_trans (a b c : World) : same_audio a b -> same_audio b c -> same_audio a c.
Proof.
  intros (H1 & H2 & H3 & H4) (K1 & K2 & K3 & K4).
  repeat split; congruence.
Qed.

Lemma same_audio_getClient (w : World) : same_audio w (getClient w).
Proof. unfold getClient. destruct (apiKey w) as [[|c k]|]; repeat split. Qed.

Lemma same_audio_speech_call (text voiceName : string) (w : World) :
  same_audio w (snd (generateSpeech_call text voiceName w)).
Proof.
  unfold generateSpeech_call. destruct (audioCache w !! _); cbn [snd].
  - apply same_audio_refl.
  - apply (same_audio_trans _ (getClient w)); [apply same_audio_getClient|repeat split].
Qed.

Lemma same_audio_speech_settle (text voiceName : string) (answer : Completion Response)
      (w : World) :
  same_audio w (snd (generateSpeech_settle text voiceName answer w)).
Proof.
  unfold generateSpeech_settle. destruct answer as [response|e]; [|repeat split].
  destruct (audio_of response) as [[|c rest]|]; repeat split.
Qed.

Lemma same_audio_prefetch (text : JsValue) (voiceName : string) (w : World) :
  same_audio w (prefetch_speech text voiceName w).
Proof. apply same_audio_speech_call. Qed.

Lemma pending_lists (w w' : World) (q : nat) :
  nodes w' = nodes w -> awaitingResume w' = awaitingResume w ->
  pending w q -> pending w' q.
Proof. unfold pending. intros -> ->. tauto. Qed.

Lemma pending_same (w w' : World) (q : nat) :
  same_audio w w' -> pending w q -> pending w' q.
Proof. intros (_ & Hn & Ha & _). apply pending_lists; assumption. Qed.

Lemma playback_inv_same (w w' : World) :
  same_audio w w' -> playback_inv w -> playback_inv w'.
Proof.
  intros (Hp & Hn & Ha & Hc) [H1 H2 H3 H4 H5 H6].
  constructor; rewrite ?Hp, ?Hn, ?Ha, ?Hc; assumption.
Qed.

Lemma player_inv_same (p : Player.Player) (st : ExploreState) (w : World) :
  player_inv p -> same_audio (Player.service p) w ->
  (activeAudioId st = activeAudioId (Player.view p) \/ activeAudioId st = None) ->
  player_inv (Player.mk st w (Player.listeners p)).
Proof.
  intros [H1 H2 H3 H4 H5] Hs Hv. pose proof Hs as (Hp & Hn & Ha & Hc).
  constructor; cbn [Player.view Player.service Player.listeners].
  - eapply playback_inv_same; eauto.
  - rewrite Hp. exact H2.
  - exact H3.
  - rewrite Ha. exact H4.
  - intros e He. destruct Hv as [Hv|Hv]; [|congruence].
    rewrite Hv in He. destruct (H5 e He) as (q & Hq & Hpend).
    exists q. split; [exact Hq|]. eapply pending_same; eauto.
Qed.

Lemma pending_stop_node (n : nat) (w : World) (q : nat) :
  pending w q -> pending (stop_node n w) q.
Proof.
  intros [Ha|(i & nd & Hi & Hq & Hs & Hf)]; unfold stop_node.
  - left. destruct (nodes w !! n) as [x|]; [destruct (node_state x)|]; exact Ha.
  - right. destruct (nodes w !! n) as [x|] eqn:Hn; [|exists i, nd; auto].
    destruct (node_state x) eqn:Hx; try solve [exists i, nd; auto].
    cbn [nodes with_nodes]. destruct (Nat.eq_dec i n) as [->|Hne].
    + exists n, (set_node_state EndQueued x).
      rewrite list_lookup_insert_eq by (eapply lookup_lt_Some; eauto).
      assert (x = nd) by congruence. subst x. cbn. repeat split; auto; discriminate.
    + exists i, nd. rewrite list_lookup_insert_ne by auto. auto.
Qed.

Lemma stop_node_lists (n : nat) (w : World) :
  plays (stop_node n w) = plays w
  /\ awaitingResume (stop_node n w) = awaitingResume w
  /\ onEndedCalls (stop_node n w) = onEndedCalls w.
Proof.
  unfold stop_node. destruct (nodes w !! n) as [x|]; [destruct (node_state x)|]; auto.
Qed.

Lemma stopAudio_lists (w : World) :
  plays (stopAudio w) = plays w
  /\ awaitingResume (stopAudio w) = awaitingResume w
  /\ onEndedCalls (stopAudio w) = onEndedCalls w.
Proof.
  unfold stopAudio. destruct (currentSource w) as [n|]; [|auto].
  apply (stop_node_lists n w).
Qed.

Lemma pending_stopAudio (w : World) (q : nat) : pending w q -> pending (stopAudio w) q.
Proof.
  intros H. unfold stopAudio. destruct (currentSource w) as [n|]; [|exact H].
  apply (pending_stop_node n) in H. exact H.
Qed.

Lemma find_listener (ls : list (nat * string)) (q : nat) (e : string) :
  List.NoDup (map fst ls) -> In (q, e) ls ->
  List.find (Player.is_listener q) ls = Some (q, e).
Proof.
  induction ls as [|[q' e'] ls IH]; intros Hnd Hin; [destruct Hin|].
  cbn [map fst] in Hnd. inversion Hnd as [|? ? Hnotin Hnd']; subst.
  cbn [List.find]. unfold Player.is_listener at 1. cbn [fst].
  destruct Hin as [[= -> ->]|Hin].
  - rewrite Nat.eqb_refl. reflexivity.
  - destruct (q' =? q)%nat eqn:Heq.
    + apply Nat.eqb_eq in Heq. subst q'. exfalso. apply Hnotin.
      apply in_map_iff. exists (q, e). auto.
    + apply IH; assumption.
Qed.

Lemma find_no_listener (ls : list (nat * string)) (q : nat) :
  (forall l, In l ls -> fst l <> q) -> List.find (Player.is_listener q) ls = None.
Proof.
  intros H. destruct (List.find (Player.is_listener q) ls) as [l|] eqn:Hf; [|reflexivity].
  apply find_some in Hf as [Hin Hq]. apply Nat.eqb_eq in Hq. exfalso. eapply H; eauto.
Qed.

Lemma deliver_nothing (before : World) (st : ExploreState) (w : World)
      (ls : list (nat * string)) :
  onEndedCalls w = onEndedCalls before ->
  Player.deliver before (Player.mk st w ls) = Player.mk st w ls.
Proof.
  intros H. unfold Player.deliver. cbn [Player.view Player.service Player.listeners].
  rewrite H, drop_all. reflexivity.
Qed.

Lemma deliver_one (before : World) (st : ExploreState) (w : World)
      (ls : list (nat * string)) (q : nat) :
  onEndedCalls w = onEndedCalls before ++ [q] ->
  Player.deliver before (Player.mk st w ls)
  = Player.mk (Player.call_listener ls st q) w ls.
Proof.
  intros H. unfold Player.deliver. cbn [Player.view Player.service Player.listeners].
  rewrite H, drop_app_length. reflexivity.
Qed.

(** A closure either clears the marker of its own element or leaves
    the marker alone. *)
Lemma call_listener_marker (ls : list (nat * string)) (st : ExploreState) (q : nat) :
  List.NoDup (map fst ls) ->
  forall e, activeAudioId (Player.call_listener ls st q) = Some e ->
            activeAudioId st = Some e /\ ~ In (q, e) ls.
Proof.
  intros Hnd e. unfold Player.call_listener.
  destruct (List.find (Player.is_listener q) ls) as [[q' e']|] eqn:Hf.
  - pose proof (find_some _ _ Hf) as [Hin Hq]. apply Nat.eqb_eq in Hq. cbn in Hq. subst q'.
    unfold Player.onEnded, Player.is_id. cbn [snd activeAudioId setActiveAudioId].
    destruct (activeAudioId st) as [held|]; [|discriminate].
    destruct (held =? e')%string eqn:Heq; [discriminate|].
    intros [= ->]. split; [reflexivity|]. intros Hin'.
    rewrite (find_listener ls q e Hnd Hin') in Hf. injection Hf as <-.
    rewrite String.eqb_refl in Heq. discriminate.
  - intros He. split; [exact He|]. intros Hin.
    rewrite (find_listener ls q e Hnd Hin) in Hf. discriminate.
Qed.

Lemma waiting_fresh (w : World) (q : nat) :
  playback_inv w -> (plays w <= q)%nat ->
  ~ In q (map fst (awaitingResume w)).
Proof.
  intros Hinv Hq Hin. apply in_map_iff in Hin as (entry & <- & Hin).
  destruct (inv_waiting w Hinv entry Hin) as (Hlt & _). lia.
Qed.

Lemma NoDup_snoc_fresh (l : list nat) (q : nat) :
  List.NoDup l -> ~ In q l -> List.NoDup (l ++ [q]).
Proof.
  intros Hnd Hq. apply List.NoDup_app; [exact Hnd | repeat constructor; intros [] |].
  intros a Ha [<-|[]]. exact (Hq Ha).
Qed.

(** What a call of [playAudio] with an [onEnded] does to the calls in
    progress: it is itself in progress afterwards, or its [onEnded] has
    run; no other call is settled by it. *)
Lemma playAudio_outcome (fresh : ContextState) (audio : string) (w : World) :
  playback_inv w -> List.NoDup (map fst (awaitingResume w)) ->
  let w' := playAudio fresh audio true w in
  plays w' = S (plays w)
  /\ List.NoDup (map fst (awaitingResume w'))
  /\ (forall q, pending w q -> pending w' q)
  /\ ((onEndedCalls w' = onEndedCalls w /\ pending w' (plays w))
      \/ onEndedCalls w' = onEndedCalls w ++ [plays w]).
Proof.
  intros Hinv Hnd. cbv zeta. unfold playAudio.
  set (w1 := stopAudio (with_plays (S (plays w)) w)).
  destruct (stopAudio_lists (with_plays (S (plays w)) w)) as (H1 & H2 & H3).
  fold w1 in H1, H2, H3. cbn in H1, H2, H3.
  assert (H4 : forall q, pending w q -> pending w1 q).
  { intros q Hq. apply pending_stopAudio.
    apply (pending_lists w); [reflexivity | reflexivity | exact Hq]. }
  assert (Hfresh : ~ In (plays w) (map fst (awaitingResume w))).
  { apply waiting_fresh; [exact Hinv | lia]. }
  assert (Hrun : forall w2, same_audio w1 w2 ->
             let w' := playAudio_setup (plays w) audio true w2 in
             plays w' = S (plays w)
             /\ List.NoDup (map fst (awaitingResume w'))
             /\ (forall q, pending w q -> pending w' q)
             /\ ((onEndedCalls w' = onEndedCalls w /\ pending w' (plays w))
                 \/ onEndedCalls w' = onEndedCalls w ++ [plays w])).
  { intros w2 Hs. pose proof Hs as (Hp & Hn & Ha & Hc). cbv zeta.
    unfold playAudio_setup.
    assert (Hcatch : forall e,
               let w' := playAudio_catch (plays w) true e w2 in
               plays w' = S (plays w)
               /\ List.NoDup (map fst (awaitingResume w'))
               /\ (forall q, pending w q -> pending w' q)
               /\ ((onEndedCalls w' = onEndedCalls w /\ pending w' (plays w))
                   \/ onEndedCalls w' = onEndedCalls w ++ [plays w])).
    { intros e. cbv zeta. unfold playAudio_catch. cbn.
      rewrite Hp, Ha, Hc, H1, H2, H3.
      split; [reflexivity|]. split; [exact Hnd|]. split; [|right; reflexivity].
      intros q Hq. apply (pending_lists w2); [reflexivity|reflexivity|].
      apply (pending_same w1); [exact Hs | apply H4, Hq]. }
    destruct (decodeBase64 audio) as [bytes|e]; [|apply Hcatch].
    destruct (decodeAudioData bytes 24000 1) as [buffer|e]; [|apply Hcatch].
    cbn. rewrite Hp, Ha, Hc, H1, H2, H3.
    split; [reflexivity|]. split; [exact Hnd|]. split; [|left; split; [reflexivity|]].
    - intros q Hq. apply H4 in Hq. apply (pending_same w1 w2 q Hs) in Hq.
      destruct Hq as [Hq|(i & nd & Hi & Hq1 & Hq2 & Hq3)]; [left; exact Hq|right].
      exists i, nd. cbn. split; [|auto]. apply lookup_app_l_Some. exact Hi.
    - right. exists (length (nodes w2)), (mkNode Playing buffer (plays w) true).
      cbn. split; [apply list_lookup_middle; reflexivity|].
      repeat split; auto; discriminate. }
  assert (Hsus : forall w2, same_audio w1 w2 ->
             let w' := with_awaitingResume
                         (awaitingResume w2 ++ [(plays w, (audio, true))]) w2 in
             plays w' = S (plays w)
             /\ List.NoDup (map fst (awaitingResume w'))
             /\ (forall q, pending w q -> pending w' q)
             /\ ((onEndedCalls w' = onEndedCalls w /\ pending w' (plays w))
                 \/ onEndedCalls w' = onEndedCalls w ++ [plays w])).
  { intros w2 Hs. pose proof Hs as (Hp & Hn & Ha & Hc). cbv zeta. cbn.
    rewrite Hp, Ha, Hc, H1, H2, H3.
    split; [reflexivity|]. split; [|split; [|left; split; [reflexivity|]]].
    - rewrite map_app. cbn [map fst]. apply NoDup_snoc_fresh; assumption.
    - intros q Hq. apply H4 in Hq. apply (pending_same w1 w2 q Hs) in Hq.
      destruct Hq as [[a Hq]|(i & nd & Hi & Hq1 & Hq2 & Hq3)].
      + left. exists a. cbn. apply in_or_app. left. rewrite <- H2, <- Ha. exact Hq.
      + right. exists i, nd. cbn. auto.
    - left. exists audio. cbn. apply in_or_app. right. left. reflexivity. }
  unfold getAudioContext.
  destruct (audioContext w1) as [[|]|].
  - apply Hrun, same_audio_refl.
  - apply Hsus, same_audio_refl.
  - destruct fresh; [apply Hrun | apply Hsus]; repeat split.
Qed.

Lemma NoDup_fst_filter {A : Type} (f : nat * A -> bool) (l : list (nat * A)) :
  List.NoDup (map fst l) -> List.NoDup (map fst (List.filter f l)).
Proof.
  induction l as [|x l IH]; intros Hnd; [exact Hnd|].
  cbn [map] in Hnd. inversion Hnd as [|? ? Hnotin Hnd']; subst.
  cbn [List.filter]. destruct (f x); [|apply IH, Hnd'].
  cbn [map]. constructor; [|apply IH, Hnd'].
  intros Hin. apply Hnotin. apply in_map_iff in Hin as (y & Hy & Hin).
  apply filter_In in Hin as [Hin _]. apply in_map_iff. exists y. auto.
Qed.

Lemma NoDup_fst_unique {A : Type} (l : list (nat * A)) (q : nat) (a b : A) :
  List.NoDup (map fst l) -> In (q, a) l -> In (q, b) l -> a = b.
Proof.
  induction l as [|x l IH]; intros Hnd Ha Hb; [destruct Ha|].
  cbn [map] in Hnd. inversion Hnd as [|? ? Hnotin Hnd']; subst.
  destruct Ha as [->|Ha], Hb as [Hb|Hb].
  - congruence.
  - exfalso. apply Hnotin. apply in_map_iff. exists (q, b). auto.
  - subst x. exfalso. apply Hnotin. apply in_map_iff. exists (q, a). auto.
  - apply IH; assumption.
Qed.

(** What the settling of [ctx.resume()] does to the calls in progress:
    only the call that was waiting for it can have its [onEnded] run. *)
Lemma playAudio_resumed_outcome (q : nat) (outcome : Completion unit) (w : World) :
  playback_inv w -> List.NoDup (map fst (awaitingResume w)) ->
  let w' := playAudio_resumed q outcome w in
  plays w' = plays w
  /\ List.NoDup (map fst (awaitingResume w'))
  /\ (forall q0, q0 <> q -> pending w q0 -> pending w' q0)
  /\ ((onEndedCalls w' = onEndedCalls w /\ (pending w q -> pending w' q))
      \/ onEndedCalls w' = onEndedCalls w ++ [q]).
Proof.
  intros Hinv Hnd. cbv zeta. unfold playAudio_resumed.
  destruct (List.find (is_playback q) (awaitingResume w)) as [[q' [audio flag]]|] eqn:Hfind.
  2:{ split; [reflexivity|]. split; [exact Hnd|]. split; [auto|]. left. auto. }
  apply find_some in Hfind as [Hin Hq]. unfold is_playback in Hq. cbn [fst] in Hq.
  apply Nat.eqb_eq in Hq. subst q'.
  destruct (inv_waiting w Hinv _ Hin) as (_ & _ & Hnode). cbn [fst] in Hnode.
  assert (Hflag : pending w q -> flag = true).
  { intros [[a Ha]|(i & nd & Hi & Hp & _)].
    - pose proof (NoDup_fst_unique _ _ _ _ Hnd Hin Ha) as Heq. congruence.
    - exfalso. apply Hnode. apply in_map_iff. exists nd. split; [exact Hp|].
      apply list_elem_of_In. eapply list_elem_of_lookup_2. exact Hi. }
  set (w1 := with_awaitingResume _ w).
  assert (Hnd1 : List.NoDup (map fst (awaitingResume w1))).
  { unfold w1. cbn. apply NoDup_fst_filter, Hnd. }
  assert (Hkeep : forall q0, q0 <> q -> pending w q0 -> pending w1 q0).
  { intros q0 Hne [[a Ha]|Hn]; [left|right; exact Hn].
    exists a. unfold w1. cbn. apply filter_In. split; [exact Ha|].
    unfold is_playback. cbn [fst]. apply negb_true_iff, Nat.eqb_neq. exact Hne. }
  assert (Hcatch : forall e w2, same_audio w1 w2 ->
             let w' := playAudio_catch q flag e w2 in
             plays w' = plays w
             /\ List.NoDup (map fst (awaitingResume w'))
             /\ (forall q0, q0 <> q -> pending w q0 -> pending w' q0)
             /\ ((onEndedCalls w' = onEndedCalls w /\ (pending w q -> pending w' q))
                 \/ onEndedCalls w' = onEndedCalls w ++ [q])).
  { intros e w2 Hs. pose proof Hs as (Hp & Hn & Ha & Hc). cbv zeta.
    unfold playAudio_catch. destruct flag.
    - cbn. rewrite Hp, Ha, Hc. split; [reflexivity|]. split; [exact Hnd1|].
      split; [|right; reflexivity].
      intros q0 Hne Hq0. apply (pending_lists w2); [reflexivity|reflexivity|].
      apply (pending_same w1 w2 q0 Hs), Hkeep; assumption.
    - cbn. rewrite Hp, Ha, Hc. split; [reflexivity|]. split; [exact Hnd1|].
      split; [|left; split; [reflexivity|intros Hq; specialize (Hflag Hq); discriminate]].
      intros q0 Hne Hq0. apply (pending_lists w2); [reflexivity|reflexivity|].
      apply (pending_same w1 w2 q0 Hs), Hkeep; assumption. }
  destruct outcome as [[]|e]; [|apply Hcatch, same_audio_refl].
  assert (Hs : same_audio w1 (with_audioContext (Some Running) w1)) by (repeat split).
  unfold playAudio_setup.
  destruct (decodeBase64 audio) as [bytes|e]; [|apply Hcatch, Hs].
  destruct (decodeAudioData bytes 24000 1) as [buffer|e]; [|apply Hcatch, Hs].
  cbn. split; [reflexivity|]. split; [apply NoDup_fst_filter, Hnd|].
  split; [|left; split; [reflexivity|]].
  - intros q0 Hne Hq0. destruct (Hkeep q0 Hne Hq0) as [Ha|(i & nd & Hi & Hrest)].
    + left. exact Ha.
    + right. exists i, nd. cbn. split; [apply lookup_app_l_Some; exact Hi | exact Hrest].
  - intros Hq. specialize (Hflag Hq). subst flag. right.
    exists (length (nodes w)), (mkNode Playing buffer q true). cbn.
    split; [apply list_lookup_middle; reflexivity|]. repeat split; auto; discriminate.
Qed.

(** What the dispatch of an [ended] event does to the calls in
    progress: only the call that created the node can have its
    [onEnded] run. *)
Lemma ended_outcome (n : nat) (w : World) :
  playback_inv w ->
  let w' := ended n w in
  plays w' = plays w
  /\ awaitingResume w' = awaitingResume w
  /\ ((onEndedCalls w' = onEndedCalls w /\ forall q, pending w q -> pending w' q)
      \/ exists q, onEndedCalls w' = onEndedCalls w ++ [q]
                   /\ forall q0, q0 <> q -> pending w q0 -> pending w' q0).
Proof.
  intros Hinv. cbv zeta. unfold ended.
  destruct (nodes w !! n) as [nd|] eqn:Hn; [|repeat split; left; auto].
  destruct (node_state nd) eqn:Hs; try (repeat split; left; auto; fail).
  assert (Hkeep : forall q0 w',
             nodes w' = <[n := set_node_state Ended nd]> (nodes w) ->
             awaitingResume w' = awaitingResume w ->
             (q0 <> node_playback nd \/ node_onEnded nd = false) ->
             pending w q0 -> pending w' q0).
  { intros q0 w' Hn' Ha' Hne [[a Ha]|(i & nd0 & Hi & Hp & Hst & Hf)].
    - left. exists a. rewrite Ha'. exact Ha.
    - right. exists i, nd0. rewrite Hn'. split; [|auto].
      rewrite list_lookup_insert_ne; [exact Hi|].
      intros <-. assert (nd0 = nd) by congruence. subst nd0.
      destruct Hne as [Hne|Hne]; congruence. }
  destruct (node_onEnded nd) eqn:Hflag; cbn.
  - split; [reflexivity|]. split; [reflexivity|]. right. exists (node_playback nd).
    split; [reflexivity|]. intros q0 Hne. apply Hkeep; auto.
  - split; [reflexivity|]. split; [reflexivity|]. left. split; [reflexivity|].
    intros q0. apply Hkeep; auto.
Qed.

(** The closures run after a step of the service keep the invariant,
    provided the step settles no call but the one whose [onEnded] it
    runs. *)
Lemma deliver_inv (st : ExploreState) (w w' : World) (ls : list (nat * string)) :
  player_inv (Player.mk st w ls) ->
  playback_inv w' -> plays w' = plays w ->
  List.NoDup (map fst (awaitingResume w')) ->
  ((onEndedCalls w' = onEndedCalls w /\ forall q, pending w q -> pending w' q)
   \/ exists q, onEndedCalls w' = onEndedCalls w ++ [q]
                /\ forall q0, q0 <> q -> pending w q0 -> pending w' q0) ->
  player_inv (Player.deliver w (Player.mk st w' ls)).
Proof.
  intros [H1 H2 H3 H4 H5] Hinv Hp Hnd Hcases.
  cbn [Player.view Player.service Player.listeners] in *.
  destruct Hcases as [[Hc Hkeep]|(q & Hc & Hkeep)].
  - rewrite (deliver_nothing w st w' ls Hc).
    constructor; cbn [Player.view Player.service Player.listeners]; auto.
    + rewrite Hp. exact H2.
    + intros e He. destruct (H5 e He) as (q & Hq & Hpend). eauto.
  - rewrite (deliver_one w st w' ls q Hc).
    constructor; cbn [Player.view Player.service Player.listeners]; auto.
    + rewrite Hp. exact H2.
    + intros e He. destruct (call_listener_marker ls st q H3 e He) as [He' Hnot].
      destruct (H5 e He') as (q0 & Hq0 & Hpend).
      exists q0. split; [exact Hq0|]. apply Hkeep; [|exact Hpend].
      intros ->. exact (Hnot Hq0).
Qed.

Lemma stopped_inv (p : Player.Player) :
  player_inv p ->
  player_inv (Player.mk (setActiveAudioId None (Player.view p))
                        (stopAudio (Player.service p)) (Player.listeners p)).
Proof.
  intros [H1 H2 H3 H4 H5].
  destruct (stopAudio_lists (Player.service p)) as (Hp & Ha & Hc).
  constructor; cbn [Player.view Player.service Player.listeners].
  - apply stopAudio_inv, H1.
  - rewrite Hp. exact H2.
  - exact H3.
  - rewrite Ha. exact H4.
  - intros e He. discriminate He.
Qed.

Lemma handlePlayAudio_settle_inv (fresh : ContextState) (elementId : string)
      (audioData : Completion (option string)) (p : Player.Player) :
  player_inv p -> player_inv (Player.handlePlayAudio_settle fresh elementId audioData p).
Proof.
  intros Hinv. unfold Player.handlePlayAudio_settle.
  destruct audioData as [[[|c rest]|]|e].
  - apply player_inv_same; [exact Hinv | apply same_audio_refl | left; reflexivity].
  - pose proof Hinv as [H1 H2 H3 H4 H5]. cbv zeta.
    set (w := Player.service p) in *. set (ls := Player.listeners p) in *.
    destruct (playAudio_outcome fresh (String c rest) w H1 H4)
      as (Hp & Hnd & Hkeep & Hcases). cbv zeta in Hp, Hnd, Hkeep, Hcases.
    assert (Hls : List.NoDup (map fst (ls ++ [(plays w, elementId)]))).
    { rewrite map_app. cbn [map fst]. apply NoDup_snoc_fresh; [exact H3|].
      intros Hin. apply in_map_iff in Hin as (l & Hl & Hin).
      specialize (H2 l Hin). lia. }
    assert (Hbound : forall l, In l (ls ++ [(plays w, elementId)]) ->
                               (fst l < S (plays w))%nat).
    { intros l Hl. apply in_app_or in Hl as [Hl|[<-|[]]]; [|cbn; lia].
      specialize (H2 l Hl). lia. }
    destruct Hcases as [[Hc Hnew]|Hc].
    + rewrite deliver_nothing by exact Hc.
      constructor; cbn [Player.view Player.service Player.listeners].
      * apply playAudio_inv, H1.
      * rewrite Hp. exact Hbound.
      * exact Hls.
      * exact Hnd.
      * intros e He. cbn in He. injection He as <-.
        exists (plays w). split; [apply in_or_app; right; left; reflexivity | exact Hnew].
    + rewrite (deliver_one _ _ _ _ (plays w)) by exact Hc.
      constructor; cbn [Player.view Player.service Player.listeners].
      * apply playAudio_inv, H1.
      * rewrite Hp. exact Hbound.
      * exact Hls.
      * exact Hnd.
      * intros e He. exfalso.
        destruct (call_listener_marker _ _ _ Hls e He) as [He' Hnot].
        cbn in He'. injection He' as <-.
        apply Hnot. apply in_or_app. right. left. reflexivity.
  - apply player_inv_same; [exact Hinv | apply same_audio_refl | left; reflexivity].
  - apply player_inv_same; [exact Hinv | repeat split | right; reflexivity].
Qed.

Lemma same_audio_translate_settle (answer : Completion Response) (w : World) :
  same_audio w (snd (translateTextSimple_settle answer w)).
Proof. destruct answer; repeat split. Qed.

Lemma same_audio_rich_settle (answer : Completion Response) (w : World) :
  same_audio w (snd (getRichContext_settle answer w)).
Proof.
  unfold getRichContext_settle. destruct answer as [response|e]; [|repeat split].
  destruct (Genai.text response) as [t|]; [|repeat split].
  destruct (Json.parse _); repeat split.
Qed.

Lemma same_audio_send (req : Request) (w : World) : same_audio w (send req (getClient w)).
Proof.
  apply (same_audio_trans _ (getClient w)); [apply same_audio_getClient | repeat split].
Qed.

Lemma handleSearch_translated_audio (props : Props) (cap : ExploreState)
      (answer : Completion string) (st : ExploreState) (w : World) :
  same_audio w (snd (handleSearch_translated props cap answer (st, w)))
  /\ activeAudioId (fst (handleSearch_translated props cap answer (st, w)))
     = activeAudioId st.
Proof.
  unfold handleSearch_translated. destruct answer as [t|e]; [|split; [repeat split|reflexivity]].
  cbn [fst snd]. split; [|reflexivity].
  unfold getRichContext_call.
  eapply same_audio_trans; [|apply same_audio_send].
  destruct (t =? "")%string.
  - apply same_audio_prefetch.
  - eapply same_audio_trans; apply same_audio_prefetch.
Qed.

Lemma handleSearch_enriched_audio (props : Props) (cap : ExploreState) (t : string)
      (answer : Completion JsValue) (st : ExploreState) (w : World) :
  same_audio w (snd (handleSearch_enriched props cap t answer (st, w)))
  /\ activeAudioId (fst (handleSearch_enriched props cap t answer (st, w)))
     = activeAudioId st.
Proof.
  unfold handleSearch_enriched.
  destruct answer as [richData|e]; [|split; [repeat split|reflexivity]].
  destruct (full_result t richData) as [full|e]; [|split; [repeat split|reflexivity]].
  unfold handleGenerateVisual_call, generateVisualImage_call. cbn [fst snd].
  split; [|reflexivity].
  eapply same_audio_trans; [|apply same_audio_prefetch].
  eapply same_audio_trans; [|apply same_audio_prefetch].
  apply same_audio_send.
Qed.

Lemma player_step_inv (props : Props) (ev : Player.Event) (p : Player.Player) :
  player_inv p -> player_inv (Player.step props ev p).
Proof.
  intros Hinv.
  assert (Hbegin : player_inv (Player.search_begins props p)).
  { unfold Player.search_begins.
    destruct (search_rejected (Player.view p)); [exact Hinv|].
    unfold handleSearch_start, translateTextSimple_call.
    apply (player_inv_same _ _ _ (stopped_inv p Hinv));
      [apply same_audio_send | right; reflexivity]. }
  destruct ev as [text| | | |fresh text langCode id|fresh text voiceName elementId answer
                  |text voiceName answer|cap answer|cap t answer
                  |playback outcome|n|n]; cbn [Player.step].
  - apply (player_inv_same p); [exact Hinv | apply same_audio_refl | left; reflexivity].
  - exact Hbegin.
  - destruct (searchButton_disabled (Player.view p)); [exact Hinv | exact Hbegin].
  - apply (player_inv_same p); [exact Hinv | apply same_audio_refl | left; reflexivity].
  - unfold Player.audioButton_clicked.
    destruct (negb (truthy text) || Player.is_id _ id); [exact Hinv|].
    unfold Player.handlePlayAudio_call.
    destruct (Player.is_id (activeAudioId (Player.view p)) id); [apply stopped_inv, Hinv|].
    pose proof (same_audio_speech_call (toString text)
                  (getVoiceForLang props (Player.view p) langCode) (Player.service p)) as Hs.
    destruct (generateSpeech_call _ _ (Player.service p)) as [[cached|] w1]; cbn [snd] in Hs.
    + apply handlePlayAudio_settle_inv.
      apply (player_inv_same p); [exact Hinv | exact Hs | right; reflexivity].
    + apply (player_inv_same p); [exact Hinv | exact Hs | right; reflexivity].
  - pose proof (same_audio_speech_settle text voiceName answer (Player.service p)) as Hs.
    destruct (generateSpeech_settle text voiceName answer (Player.service p))
      as [audioData w1]; cbn [snd] in Hs.
    apply handlePlayAudio_settle_inv.
    apply (player_inv_same p); [exact Hinv | exact Hs | left; reflexivity].
  - apply (player_inv_same p);
      [exact Hinv | apply same_audio_speech_settle | left; reflexivity].
  - pose proof (same_audio_translate_settle answer (Player.service p)) as Hs.
    destruct (translateTextSimple_settle answer (Player.service p)) as [simple w1];
      cbn [snd] in Hs.
    destruct (handleSearch_translated_audio props cap simple (Player.view p) w1)
      as [Hs' Hv].
    destruct (handleSearch_translated props cap simple (Player.view p, w1)) as [st w2];
      cbn [fst snd] in *.
    apply (player_inv_same p);
      [exact Hinv | eapply same_audio_trans; eauto | left; exact Hv].
  - pose proof (same_audio_rich_settle answer (Player.service p)) as Hs.
    destruct (getRichContext_settle answer (Player.service p)) as [rich w1];
      cbn [snd] in Hs.
    destruct (handleSearch_enriched_audio props cap t rich (Player.view p) w1)
      as [Hs' Hv].
    destruct (handleSearch_enriched props cap t rich (Player.view p, w1)) as [st w2];
      cbn [fst snd] in *.
    apply (player_inv_same p);
      [exact Hinv | eapply same_audio_trans; eauto | left; exact Hv].
  - pose proof Hinv as [H1 H2 H3 H4 H5].
    destruct (playAudio_resumed_outcome playback outcome (Player.service p) H1 H4)
      as (Hp & Hnd & Hkeep & Hcases). cbv zeta in Hp, Hnd, Hkeep, Hcases.
    apply deliver_inv; auto.
    + destruct p; exact Hinv.
    + apply playAudio_resumed_inv, H1.
    + destruct Hcases as [[Hc Hq]|Hc]; [left|right; eauto].
      split; [exact Hc|]. intros q Hpend.
      destruct (Nat.eq_dec q playback) as [->|Hne]; auto.
  - pose proof Hinv as [H1 H2 H3 H4 H5]. unfold buffer_played.
    destruct (stop_node_lists n (Player.service p)) as (Hp & Ha & Hc).
    constructor; cbn [Player.view Player.service Player.listeners].
    + apply stop_node_inv, H1.
    + rewrite Hp. exact H2.
    + exact H3.
    + rewrite Ha. exact H4.
    + intros e He. destruct (H5 e He) as (q & Hq & Hpend).
      exists q. split; [exact Hq | apply pending_stop_node, Hpend].
  - pose proof Hinv as [H1 H2 H3 H4 H5].
    destruct (ended_outcome n (Player.service p) H1) as (Hp & Ha & Hcases).
    cbv zeta in Hp, Ha, Hcases.
    apply deliver_inv; auto.
    + destruct p; exact Hinv.
    + apply ended_inv, H1.
    + rewrite Ha. exact H4.
Qed.

Lemma player_run_inv (props : Props) (evs : list Player.Event) (p : Player.Player) :
  player_inv p -> player_inv (Player.run props evs p).
Proof.
  revert p. induction evs as [|ev evs IH]; intros p H; [exact H|].
  apply IH, player_step_inv, H.
Qed.

Lemma player_inv_start (key : option string) : player_inv (Player.start key).
Proof.
  constructor; cbn.
  - apply playback_inv_initial.
  - intros l [].
  - constructor.
  - constructor.
  - intros e He. discriminate He.
Qed.

Lemma pending_not_called (w : World) (q : nat) :
  playback_inv w -> pending w q -> ~ In q (onEndedCalls w).
Proof.
  intros Hinv [[a Ha]|(i & nd & Hi & Hp & Hs & _)].
  - destruct (inv_waiting w Hinv _ Ha) as (_ & Hc & _). exact Hc.
  - rewrite <- Hp. apply (inv_pending w Hinv i nd Hi Hs).
Qed.

(** X20.  The playing marker always has a playback behind it.  Along any
    course of audio-button clicks, speech answers, searches and audio
    events from a fresh page: whenever an element is marked as playing,
    some call of [playAudio] made for that very element is still in
    progress (waiting for the audio context, sounding, or stopped with
    its [ended] event still to be dispatched) and its [onEnded] has not
    run yet. *)
Theorem playing_marker_has_playback (props : Props) (key : option string)
        (evs : list Player.Event) (elementId : string) :
  let p := Player.run props evs (Player.start key) in
  activeAudioId (Player.view p) = Some elementId ->
  exists playback,
    In (playback, elementId) (Player.listeners p)
    /\ pending (Player.service p) playback
    /\ onEnded_count playback (Player.service p) = 0%nat.
Proof.
  cbv zeta. intros He.
  pose proof (player_run_inv props evs _ (player_inv_start key)) as Hinv.
  destruct (pinv_highlight _ Hinv elementId He) as (q & Hq & Hpend).
  exists q. split; [exact Hq|]. split; [exact Hpend|].
  unfold onEnded_count. apply count_occ_not_In.
  apply pending_not_called; [apply (pinv_service _ Hinv) | exact Hpend].
Qed.

Lemma playing_marker_has_playback_witness :
  exists playback,
    In (playback, "source")
       (Player.listeners (Player.run sample_props playing_hello
                                     (Player.start (Some "key"))))
    /\ pending (Player.service (Player.run sample_props playing_hello
                                           (Player.start (Some "key")))) playback
    /\ onEnded_count playback
         (Player.service (Player.run sample_props playing_hello
                                     (Player.start (Some "key")))) = 0%nat.
Proof.
  apply (playing_marker_has_playback sample_props (Some "key") playing_hello "source").
  vm_compute. reflexivity.
Defined.

(** ** Highlighting the looked-up text *)

Lemma append_cons (x : ascii) (a b : string) : String x a +:+ b = String x (a +:+ b).
Proof. reflexivity. Qed.

Lemma append_assoc (a b c : string) : (a +:+ b) +:+ c = a +:+ (b +:+ c).
Proof.
  induction a as [|x a IH]; [reflexivity|]. rewrite !append_cons, IH. reflexivity.
Qed.

Lemma append_nil_r (a : string) : a +:+ "" = a.
Proof. induction a as [|x a IH]; [reflexivity|]. rewrite append_cons, IH. reflexivity. Qed.

Lemma backslash_is_syntax (c : ascii) :
  Highlight.is_syntax c = false -> Ascii.eqb c Json.backslash = false.
Proof.
  intros H. destruct (Ascii.eqb c Json.backslash) eqn:Heq; [|reflexivity].
  apply Ascii.eqb_eq in Heq. subst c. discriminate H.
Qed.

(** Escaping leaves no operator: the pattern stands for the string
    that was escaped. *)
Lemma literal_of_escape (s : string) : Highlight.literal_of (Highlight.escape s) = Some s.
Proof.
  induction s as [|c s IH]; [reflexivity|].
  cbn [Highlight.escape]. destruct (Highlight.is_syntax c) eqn:Hc.
  - cbn [Highlight.literal_of]. rewrite Ascii.eqb_refl, Hc, IH. reflexivity.
  - cbn [Highlight.literal_of]. rewrite (backslash_is_syntax c Hc), Hc, IH. reflexivity.
Qed.

Lemma match_here_spec (literal s m after : string) :
  Highlight.match_here literal s = Some (m, after) ->
  s = m +:+ after /\ lower_ascii m = lower_ascii literal
  /\ String.length m = String.length literal.
Proof.
  revert s m after. induction literal as [|p ps IH]; intros s m after.
  - cbn. intros [= <- <-]. auto.
  - cbn [Highlight.match_here]. destruct s as [|c cs]; [discriminate|].
    destruct (Ascii.eqb (lower_char p) (lower_char c)) eqn:Hc; [|discriminate].
    destruct (Highlight.match_here ps cs) as [[m' rest]|] eqn:Hm; [|discriminate].
    intros [= <- <-]. destruct (IH _ _ _ Hm) as (-> & Hl & Hlen).
    apply Ascii.eqb_eq in Hc. cbn. rewrite Hl, Hc, Hlen. auto.
Qed.

Lemma match_here_more (literal b x m after : string) :
  Highlight.match_here literal b = Some (m, after) ->
  Highlight.match_here literal (b +:+ x) = Some (m, after +:+ x).
Proof.
  revert b m after. induction literal as [|p ps IH]; intros b m after.
  - cbn. intros [= <- <-]. reflexivity.
  - destruct b as [|c cs]; [discriminate|].
    change (String c cs +:+ x) with (String c (cs +:+ x)).
    cbn [Highlight.match_here].
    destruct (Ascii.eqb (lower_char p) (lower_char c)); [|discriminate].
    destruct (Highlight.match_here ps cs) as [[m' rest]|] eqn:Hm; [|discriminate].
    intros [= <- <-]. rewrite (IH _ _ _ Hm). reflexivity.
Qed.

Lemma split_loop_spell (fuel : nat) (literal segment s : string) :
  spell (Highlight.split_loop fuel literal segment s) = segment +:+ s.
Proof.
  revert segment s. induction fuel as [|fuel IH]; intros segment s.
  - cbn. apply append_nil_r.
  - cbn [Highlight.split_loop]. destruct s as [|c rest].
    + cbn. rewrite !append_nil_r. reflexivity.
    + destruct (Highlight.match_here literal (String c rest)) as [[m after]|] eqn:Hm.
      * destruct ((m =? "") && (segment =? ""))%string eqn:Hempty.
        -- apply andb_true_iff in Hempty as [_ Hs]. apply String.eqb_eq in Hs.
           subst segment. rewrite IH. reflexivity.
        -- cbn [spell fold_right]. fold (spell (Highlight.split_loop fuel literal "" after)).
           rewrite IH. destruct (match_here_spec _ _ _ _ Hm) as (-> & _). reflexivity.
      * rewrite IH, append_assoc. reflexivity.
Qed.

Lemma length_append (a b : string) :
  String.length (a +:+ b) = String.length a + String.length b.
Proof.
  induction a as [|x a IH]; [reflexivity|]. rewrite append_cons. cbn [String.length].
  rewrite IH. reflexivity.
Qed.

Lemma append_is_empty (a b : string) : "" = a +:+ b -> b = "".
Proof. destruct a; cbn; [auto | discriminate]. Qed.

Lemma match_here_empty (literal : string) :
  literal <> "" -> Highlight.match_here literal "" = None.
Proof. destruct literal; [congruence | reflexivity]. Qed.

Lemma snoc_split (x a b : string) (c : ascii) :
  x +:+ String c "" = a +:+ b -> b <> "" ->
  exists b0, b = b0 +:+ String c "" /\ x = a +:+ b0.
Proof.
  revert x. induction a as [|y a IH]; intros x H Hb.
  - exists x. cbn in H. auto.
  - destruct x as [|y' x].
    + cbn in H. injection H as _ H. apply append_is_empty in H. contradiction.
    + cbn in H. injection H as -> H. destruct (IH x H Hb) as (b0 & -> & ->).
      exists b0. auto.
Qed.

Lemma split_loop_parts (fuel : nat) (literal segment s : string) :
  literal <> "" -> String.length s < fuel -> segment_clean literal segment s ->
  Forall (fun part => lower_ascii part = lower_ascii literal \/ no_occurrence literal part)
         (Highlight.split_loop fuel literal segment s).
Proof.
  intros Hl. revert segment s. induction fuel as [|fuel IH]; intros segment s Hf Hclean;
    [lia|].
  assert (Hseg : forall rest, segment_clean literal segment rest ->
                              no_occurrence literal segment).
  { intros rest Hc a b Hab. destruct b as [|c b]; [apply match_here_empty, Hl|].
    specialize (Hc a (String c b) Hab ltac:(discriminate)).
    destruct (Highlight.match_here literal (String c b)) as [[m r]|] eqn:Hm; [|reflexivity].
    rewrite (match_here_more _ _ rest _ _ Hm) in Hc. discriminate. }
  cbn [Highlight.split_loop]. destruct s as [|c rest].
  - constructor; [|constructor]. right. eapply Hseg, Hclean.
  - destruct (Highlight.match_here literal (String c rest)) as [[m after]|] eqn:Hm.
    + destruct (match_here_spec _ _ _ _ Hm) as (Hs & Hlow & Hlen).
      assert (Hm0 : (m =? "")%string = false).
      { apply String.eqb_neq. intros ->. destruct literal; [congruence|discriminate]. }
      rewrite Hm0. cbn [andb].
      constructor; [right; eapply Hseg, Hclean|].
      constructor; [left; exact Hlow|].
      apply IH.
      * assert (String.length (String c rest) = String.length m + String.length after)
          by (rewrite Hs at 1; apply length_append).
        assert (0 < String.length m) by (rewrite Hlen; destruct literal; [congruence|cbn; lia]).
        lia.
      * intros a b Hab Hb. apply append_is_empty in Hab. contradiction.
    + apply IH; [cbn in Hf; lia|].
      intros a b Hab Hb. destruct (snoc_split _ _ _ _ Hab Hb) as (b0 & -> & Hseg0).
      rewrite append_assoc. change (String c "" +:+ rest) with (String c rest).
      destruct b0 as [|y b0]; [exact Hm|].
      apply (Hclean a (String y b0) Hseg0). discriminate.
Qed.

Lemma split_parts (literal text : string) :
  literal <> "" ->
  spell (Highlight.split literal text) = text
  /\ Forall (fun part => lower_ascii part = lower_ascii literal \/ no_occurrence literal part)
            (Highlight.split literal text).
Proof.
  intros Hl. unfold Highlight.split. destruct text as [|c rest].
  - rewrite (match_here_empty literal Hl). split; [reflexivity|].
    constructor; [|constructor]. right. intros a b Hab.
    apply append_is_empty in Hab. subst b. apply match_here_empty, Hl.
  - split; [apply split_loop_spell|].
    apply split_loop_parts; [exact Hl | lia |].
    intros a b Hab Hb. apply append_is_empty in Hab. contradiction.
Qed.

Lemma only_ascii_append (a b : string) :
  only_ascii (a +:+ b) = only_ascii a && only_ascii b.
Proof.
  induction a as [|x a IH]; [reflexivity|].
  rewrite append_cons. cbn [only_ascii]. rewrite IH, andb_assoc. reflexivity.
Qed.

Lemma spell_only_ascii (parts : list string) :
  only_ascii (spell parts) = true -> forall part, In part parts -> only_ascii part = true.
Proof.
  induction parts as [|p parts IH]; intros Hs part Hin; [destruct Hin|].
  cbn [spell fold_right] in Hs. fold (spell parts) in Hs.
  rewrite only_ascii_append in Hs. apply andb_true_iff in Hs as [Hp Hrest].
  destruct Hin as [<-|Hin]; [exact Hp | apply IH; assumption].
Qed.

(** X21.  [HighlightedText] on ASCII strings, with a highlight that is
    not blank.  The highlight is matched as a literal, whatever
    characters it holds (every operator of the pattern grammar is
    escaped); the parts rendered spell the text, nothing lost and
    nothing added; a part is wrapped in the highlighting [span] exactly
    when it is the highlight up to the case of its letters; and a part
    that is not wrapped has no occurrence of the highlight in it. *)
Theorem highlighted_text_parts {host : Host} (text highlight : string) :
  trim highlight <> "" ->
  only_ascii text = true ->
  only_ascii highlight = true ->
  exists parts,
    Highlight.HighlightedText text highlight = Some parts
    /\ spell (map snd parts) = text
    /\ forall marked part, In (marked, part) parts ->
         if marked then toLowerCase part = toLowerCase highlight
         else no_occurrence highlight part.
Proof.
  intros Htrim Htext Hhl.
  assert (Hl : highlight <> "") by (intros ->; apply Htrim; reflexivity).
  unfold Highlight.HighlightedText.
  assert (Hg : ((highlight =? "") || (trim highlight =? ""))%string = false).
  { apply orb_false_iff. split; apply String.eqb_neq; assumption. }
  rewrite Hg, Htext, Hhl, literal_of_escape. cbn [andb].
  destruct (split_parts highlight text Hl) as [Hspell Hparts].
  eexists. split; [reflexivity|]. split.
  - rewrite map_map. cbn [snd]. rewrite map_id. exact Hspell.
  - intros marked part Hin. apply in_map_iff in Hin as (part' & [= <- <-] & Hin).
    destruct (toLowerCase part' =? toLowerCase highlight)%string eqn:Heq.
    + apply String.eqb_eq, Heq.
    + rewrite Forall_forall in Hparts. pose proof Hin as Hin'.
      apply list_elem_of_In in Hin.
      destruct (Hparts part' Hin) as [Hlow|Hno]; [|exact Hno].
      apply String.eqb_neq in Heq. exfalso. apply Heq.
      rewrite (toLowerCase_ascii part'), (toLowerCase_ascii highlight Hhl); [exact Hlow|].
      apply (spell_only_ascii (Highlight.split highlight text)); [|exact Hin'].
      rewrite Hspell. exact Htext.
Qed.

Lemma highlighted_text_parts_witness :
  exists parts,
    Highlight.HighlightedText (host:=ascii_host) "Say (hi), then (Hi) again" "(hi)"
    = Some parts
    /\ spell (map snd parts) = "Say (hi), then (Hi) again"
    /\ forall marked part, In (marked, part) parts ->
         if marked
         then toLowerCase (Host:=ascii_host) part = toLowerCase (Host:=ascii_host) "(hi)"
         else no_occurrence "(hi)" part.
Proof.
  apply (highlighted_text_parts (host:=ascii_host) "Say (hi), then (Hi) again" "(hi)").
  - vm_compute. discriminate.
  - reflexivity.
  - reflexivity.
Defined.

(** ** The audio subsystem, further *)

(** X22.  Along any course of events of the audio subsystem from a fresh
    page, the [onEnded] of a call of [playAudio] runs at most once, and
    only when the call is over: as long as the call waits for the audio
    context, or has a node whose [ended] event is still to be
    dispatched, its [onEnded] has not run. *)
Theorem onEnded_once_and_final (evs : list Event) (key : option string) (playback : nat) :
  let w := run evs (initial key) in
  (onEnded_count playback w <= 1)%nat
  /\ (pending w playback -> onEnded_count playback w = 0%nat).
Proof.
  cbv zeta. pose proof (run_inv evs _ (playback_inv_initial key)) as Hinv. split.
  - unfold onEnded_count. apply NoDup_count_occ, NoDup_ListNoDup.
    apply (inv_calls_nodup _ Hinv).
  - intros Hpend. unfold onEnded_count. apply count_occ_not_In.
    apply pending_not_called; assumption.
Qed.

Lemma onEnded_once_and_final_witness :
  onEnded_count 0 (run [EvPlay Running silence true] (initial (Some "key"))) = 0%nat.
Proof.
  apply (onEnded_once_and_final [EvPlay Running silence true] (Some "key") 0).
  right. eexists 0%nat, _. split; [reflexivity|]. repeat split; discriminate.
Defined.

Lemma playAudio_stops_current_witness :
  exists nd',
    nodes (playAudio Running silence true
             (run [EvPlay Running silence true] (initial (Some "key")))) !! 0%nat
    = Some nd'
    /\ is_playing nd' = false.
Proof.
  eapply (playAudio_stops_current Running silence true
            (run [EvPlay Running silence true] (initial (Some "key"))) 0);
    reflexivity.
Defined.

Lemma decodeAudioData_interleaved_witness :
  exists buffer,
    decodeAudioData ["000"%byte; "128"%byte; "255"%byte; "127"%byte] 24000 2
    = Returned buffer
    /\ frames buffer = 1%nat
    /\ length (channelData buffer) = 2%nat.
Proof.
  destruct (decodeAudioData_interleaved
              ["000"%byte; "128"%byte; "255"%byte; "127"%byte] 24000 2
              eq_refl eq_refl ltac:(lia) ltac:(vm_compute; lia))
    as (buffer & Hdec & _ & _ & Hframes & Hlen & _).
  exists buffer. split; [exact Hdec|]. split; [exact Hframes | exact Hlen].
Defined.
